(** * omnivoice-deepgram: sentence segmenter and streaming bridges

    Shallow embedding of
      - [splitIntoSentences] (omnivoice/tts/provider.go), together with the
        Go string/rune conversions it relies on;
      - the buffered channel, the TTS callback handler and the two TTS
        streaming workers (omnivoice/tts/provider.go);
      - the STT stream writer, its context watcher and the STT callback
        handler (package stt).

    Go strings are byte sequences: they are modelled by [string] (a list of
    8-bit [ascii]).  Runes are [Z]. *)

From Stdlib Require Import ZArith List String Ascii Bool Lia PeanoNat.
Import ListNotations.

Open Scope string_scope.
Open Scope Z_scope.

(* ================================================================= *)
(** ** Go strings and runes *)

Definition rune := Z.

Definition byteZ (c : ascii) : Z := Z.of_N (N_of_ascii c).

(** [byte(x)]: conversion of an integer to a Go byte keeps the low 8 bits. *)
Definition byte_of (x : Z) : ascii := ascii_of_N (Z.to_N (Z.land x 255)).

Module Utf8.

(** Constants of Go's UTF-8 encoder/decoder. *)
Definition RuneError : rune := 65533.      (* U+FFFD *)
Definition RuneSelf : Z := 128.            (* 0x80 *)
Definition MaxRune : rune := 1114111.      (* U+10FFFF *)
Definition surrogateMin : Z := 55296.      (* 0xD800 *)
Definition surrogateMax : Z := 57343.      (* 0xDFFF *)
Definition tx : Z := 128.                  (* 1000 0000 *)
Definition t2 : Z := 192.                  (* 1100 0000 *)
Definition t3 : Z := 224.                  (* 1110 0000 *)
Definition t4 : Z := 240.                  (* 1111 0000 *)
Definition t5 : Z := 248.                  (* 1111 1000 *)
Definition maskx : Z := 63.                (* 0011 1111 *)
Definition mask2 : Z := 31.                (* 0001 1111 *)
Definition mask3 : Z := 15.                (* 0000 1111 *)
Definition mask4 : Z := 7.                 (* 0000 0111 *)
Definition rune1Max : Z := 127.
Definition rune2Max : Z := 2047.
Definition rune3Max : Z := 65535.
Definition locb : Z := 128.                (* 1000 0000 *)
Definition hicb : Z := 191.                (* 1011 1111 *)

Definition is_cont (b : Z) : bool := (locb <=? b) && (b <=? hicb).

Definition rune2 (b0 b1 : Z) : rune :=
  Z.lor (Z.shiftl (Z.land b0 mask2) 6) (Z.land b1 maskx).
Definition rune3 (b0 b1 b2 : Z) : rune :=
  Z.lor (Z.lor (Z.shiftl (Z.land b0 mask3) 12)
               (Z.shiftl (Z.land b1 maskx) 6))
        (Z.land b2 maskx).
Definition rune4 (b0 b1 b2 b3 : Z) : rune :=
  Z.lor (Z.lor (Z.lor (Z.shiftl (Z.land b0 mask4) 18)
                      (Z.shiftl (Z.land b1 maskx) 12))
               (Z.shiftl (Z.land b2 maskx) 6))
        (Z.land b3 maskx).

(** The decoder behind [[]rune(s)] and [range s] (the run-time's
    [decoderune], with the one-byte case of the loop around it): the rune
    at the head of [s] and the number of bytes it takes.  An ill-formed
    or truncated sequence decodes to [RuneError] with width 1. *)
Definition decoderune (s : string) : rune * nat :=
  match s with
  | EmptyString => (RuneError, 1%nat)
  | String c0 s1 =>
    let b0 := byteZ c0 in
    if b0 <? RuneSelf then (b0, 1%nat)
    else if (t2 <=? b0) && (b0 <? t3) then
      match s1 with
      | String c1 _ =>
        let b1 := byteZ c1 in
        if is_cont b1 && (rune1Max <? rune2 b0 b1)
        then (rune2 b0 b1, 2%nat) else (RuneError, 1%nat)
      | _ => (RuneError, 1%nat)
      end
    else if (t3 <=? b0) && (b0 <? t4) then
      match s1 with
      | String c1 (String c2 _) =>
        let b1 := byteZ c1 in
        let b2 := byteZ c2 in
        let r := rune3 b0 b1 b2 in
        if is_cont b1 && is_cont b2 && (rune2Max <? r)
           && negb ((surrogateMin <=? r) && (r <=? surrogateMax))
        then (r, 3%nat) else (RuneError, 1%nat)
      | _ => (RuneError, 1%nat)
      end
    else if (t4 <=? b0) && (b0 <? t5) then
      match s1 with
      | String c1 (String c2 (String c3 _)) =>
        let b1 := byteZ c1 in
        let b2 := byteZ c2 in
        let b3 := byteZ c3 in
        let r := rune4 b0 b1 b2 b3 in
        if is_cont b1 && is_cont b2 && is_cont b3
           && (rune3Max <? r) && (r <=? MaxRune)
        then (r, 4%nat) else (RuneError, 1%nat)
      | _ => (RuneError, 1%nat)
      end
    else (RuneError, 1%nat)
  end.

Fixpoint drop (n : nat) (s : string) : string :=
  match n, s with
  | O, _ => s
  | S n', String _ s' => drop n' s'
  | S _, EmptyString => EmptyString
  end.

Fixpoint take (n : nat) (s : string) : string :=
  match n, s with
  | S n', String c s' => String c (take n' s')
  | _, _ => EmptyString
  end.

(** [[]rune(s)]: decode until the string is exhausted.  Every step eats at
    least one byte, so [length s] steps are enough. *)
Fixpoint runes_fuel (fuel : nat) (s : string) : list rune :=
  match fuel with
  | O => []
  | S fuel' =>
    match s with
    | EmptyString => []
    | _ => let '(r, w) := decoderune s in r :: runes_fuel fuel' (drop w s)
    end
  end.

Definition stringtoslicerune (s : string) : list rune :=
  runes_fuel (String.length s) s.

(** [utf8.ValidString]: no decoding step falls back to the one-byte
    [RuneError]. *)
Fixpoint valid_fuel (fuel : nat) (s : string) : bool :=
  match fuel with
  | O => match s with EmptyString => true | _ => false end
  | S fuel' =>
    match s with
    | EmptyString => true
    | String c0 _ =>
      let '(_, w) := decoderune s in
      ((byteZ c0 <? RuneSelf) || negb (w =? 1)%nat) && valid_fuel fuel' (drop w s)
    end
  end.

Definition ValidString (s : string) : bool := valid_fuel (String.length s) s.

Definition str1 (a : Z) : string := String (byte_of a) EmptyString.
Definition str2 (a b : Z) : string := String (byte_of a) (str1 b).
Definition str3 (a b c : Z) : string := String (byte_of a) (str2 b c).
Definition str4 (a b c d : Z) : string := String (byte_of a) (str3 b c d).

Definition encode3 (r : rune) : string :=
  str3 (Z.lor t3 (Z.shiftr r 12))
       (Z.lor tx (Z.land (Z.shiftr r 6) maskx))
       (Z.lor tx (Z.land r maskx)).

(** [utf8.AppendRune], the encoder behind [strings.Builder.WriteRune];
    [uint32(r)] is [r mod 2^32]. *)
Definition AppendRune (r : rune) : string :=
  let i := r mod 4294967296 in
  if i <=? rune1Max then str1 r
  else if i <=? rune2Max then
    str2 (Z.lor t2 (Z.shiftr r 6)) (Z.lor tx (Z.land r maskx))
  else if (MaxRune <? i) || ((surrogateMin <=? i) && (i <=? surrogateMax)) then
    encode3 RuneError
  else if i <=? rune3Max then encode3 r
  else
    str4 (Z.lor t4 (Z.shiftr r 18))
         (Z.lor tx (Z.land (Z.shiftr r 12) maskx))
         (Z.lor tx (Z.land (Z.shiftr r 6) maskx))
         (Z.lor tx (Z.land r maskx)).

(** [string(runes)]: the runes written one after the other. *)
Fixpoint encode_runes (rs : list rune) : string :=
  match rs with
  | [] => EmptyString
  | r :: rs' => AppendRune r ++ encode_runes rs'
  end.

End Utf8.

(* ================================================================= *)
(** ** Character classes of Go's [unicode] package *)

(** The range tables of the [unicode] package are data of the Go standard
    library; the predicates consult them only above U+00FF.  Below, the
    Latin-1 answers are the ones hard-wired in the package. *)
Class UnicodeTables := {
  Upper : rune -> bool;
  Letter : rune -> bool;
  Digit : rune -> bool;
  White_Space : rune -> bool
}.

Module Unicode.
Section Classes.
Context `{UnicodeTables}.

Definition MaxLatin1 : rune := 255.

Definition between (lo hi r : rune) : bool := (lo <=? r) && (r <=? hi).

(** [uint32(r) <= MaxLatin1] *)
Definition latin1 (r : rune) : bool := (r mod 4294967296) <=? MaxLatin1.

(** Latin-1 code points whose category is Lu. *)
Definition latin1_upper (r : rune) : bool :=
  between 65 90 r || between 192 214 r || between 216 222 r.

(** Latin-1 code points whose category is a letter (Lu, Ll or Lo). *)
Definition latin1_letter (r : rune) : bool :=
  latin1_upper r || between 97 122 r || (r =? 170) || (r =? 181) || (r =? 186)
  || between 223 246 r || between 248 255 r.

Definition IsUpper (r : rune) : bool :=
  if latin1 r then latin1_upper r else Upper r.

Definition IsLetter (r : rune) : bool :=
  if latin1 r then latin1_letter r else Letter r.

Definition IsDigit (r : rune) : bool :=
  if r <=? MaxLatin1 then (48 <=? r) && (r <=? 57) else Digit r.

Definition IsSpace (r : rune) : bool :=
  if latin1 r then
    (r =? 9) || (r =? 10) || (r =? 11) || (r =? 12) || (r =? 13)
    || (r =? 32) || (r =? 133) || (r =? 160)
  else White_Space r.

End Classes.
End Unicode.

(* ================================================================= *)
(** ** The sentence segmenter *)

Module Segmenter.
Section Split.
Context `{UnicodeTables}.
Import Unicode.

Definition dot : rune := 46.        (* '.' *)
Definition bang : rune := 33.       (* '!' *)
Definition question : rune := 63.   (* '?' *)

(** [runes[i]]; the loop only reads indices it has checked to be in
    range. *)
Definition at_ (runes : list rune) (i : nat) : rune := nth i runes 0.

(** The test made on [runes[i]] inside the loop of [splitIntoSentences]:
    [true] when the sentence collected so far is appended to the result. *)
Definition endsSentence (runes : list rune) (i : nat) : bool :=
  let r := at_ runes i in
  if (r =? dot) || (r =? bang) || (r =? question) then
    let isEndOfSentence := true in
    let isEndOfSentence :=
      if (r =? dot) && (0 <? i)%nat then
        let prevRune := at_ runes (i - 1) in
        let isEndOfSentence :=
          if IsUpper prevRune
             && ((i <? 2)%nat || negb (IsLetter (at_ runes (i - 2))))
          then false else isEndOfSentence in
        if IsDigit prevRune && (i + 1 <? List.length runes)%nat
           && IsDigit (at_ runes (i + 1))
        then false else isEndOfSentence
      else isEndOfSentence in
    isEndOfSentence
    && ((List.length runes <=? i + 1)%nat || IsSpace (at_ runes (i + 1)))
  else false.

(** The [for i := 0; i < len(runes); i++] loop; [n] counts the iterations
    still to run, [sentences] and [current] are the two accumulators. *)
Fixpoint split_loop (runes : list rune) (n i : nat)
         (sentences : list string) (current : string)
  : list string * string :=
  match n with
  | O => (sentences, current)
  | S n' =>
    let current := current ++ Utf8.AppendRune (at_ runes i) in
    if endsSentence runes i
    then split_loop runes n' (S i) (sentences ++ [current])%list EmptyString
    else split_loop runes n' (S i) sentences current
  end.

Definition splitIntoSentences (text : string) : list string :=
  let runes := Utf8.stringtoslicerune text in
  let '(sentences, current) :=
    split_loop runes (List.length runes) 0%nat [] EmptyString in
  if (0 <? String.length current)%nat
  then (sentences ++ [current])%list else sentences.

(** *** The boundary rule as the specification words it *)

Definition is_terminator (r : rune) : bool :=
  (r =? dot) || (r =? bang) || (r =? question).

(** followed by whitespace or end-of-input *)
Definition followed_by_space_or_end (runes : list rune) (i : nat) : bool :=
  match nth_error runes (S i) with
  | None => true
  | Some nx => IsSpace nx
  end.

(** preceded by a single uppercase letter not itself preceded by a letter *)
Definition abbreviation_guard (runes : list rune) (i : nat) : bool :=
  match i with
  | O => false
  | S j =>
    match nth_error runes j with
    | None => false
    | Some p =>
      IsUpper p &&
      match j with
      | O => true
      | S k => match nth_error runes k with
               | Some pp => negb (IsLetter pp)
               | None => true
               end
      end
    end
  end.

(** preceded by a digit and followed immediately by a digit *)
Definition decimal_guard (runes : list rune) (i : nat) : bool :=
  match i with
  | O => false
  | S j =>
    match nth_error runes j, nth_error runes (S i) with
    | Some p, Some nx => IsDigit p && IsDigit nx
    | _, _ => false
    end
  end.

Definition boundary (runes : list rune) (i : nat) : bool :=
  match nth_error runes i with
  | None => false
  | Some r =>
    is_terminator r && followed_by_space_or_end runes i
    && negb ((r =? dot)
             && (abbreviation_guard runes i || decimal_guard runes i))
  end.

(** Cut [rs] after every position flagged in [flags]; what follows the
    last flagged position is the last piece, unless it is empty. *)
Fixpoint cut (flags : list bool) (rs : list rune) (cur : list rune)
  : list (list rune) :=
  match flags, rs with
  | b :: flags', r :: rs' =>
    if b then (cur ++ [r])%list :: cut flags' rs' []
    else cut flags' rs' (cur ++ [r])%list
  | _, _ => match cur with [] => [] | _ => [cur] end
  end.

Definition boundaries (runes : list rune) : list bool :=
  map (boundary runes) (seq 0 (List.length runes)).

Definition split_spec (text : string) : list string :=
  let runes := Utf8.stringtoslicerune text in
  map Utf8.encode_runes (cut (boundaries runes) runes []).

(** A single complete sentence: the text ends in sentence-final
    punctuation and has no boundary before its last position. *)
Definition complete_sentence (text : string) : bool :=
  let runes := Utf8.stringtoslicerune text in
  match rev runes with
  | r :: _ => is_terminator r
  | [] => false
  end
  && forallb (fun i => negb (boundary runes i))
             (seq 0 (List.length runes - 1)).

(** A text without any boundary. *)
Definition no_boundary (text : string) : bool :=
  let runes := Utf8.stringtoslicerune text in
  forallb (fun i => negb (boundary runes i)) (seq 0 (List.length runes)).

(** What the function returns from the two accumulators of the loop. *)
Definition finish_ (p : list string * string) : list string :=
  if (0 <? String.length (snd p))%nat then (fst p ++ [snd p])%list
  else fst p.

End Split.

(** Concatenation, in order, of a list of strings. *)
Definition join (l : list string) : string :=
  fold_right String.append EmptyString l.

(** The byte 0xFF, which no UTF-8 sequence contains, and the bytes
    EF BF BD, the encoding of U+FFFD. *)
Definition xFF : string := String (ascii_of_nat 255) EmptyString.
Definition xEFBFBD : string :=
  String (ascii_of_nat 239)
         (String (ascii_of_nat 191) (String (ascii_of_nat 189) EmptyString)).

End Segmenter.

(** Tables that hold nothing above U+00FF: enough to run the predicates on
    Latin-1 text. *)
Definition latin1_only : UnicodeTables :=
  {| Upper := fun _ => false; Letter := fun _ => false;
     Digit := fun _ => false; White_Space := fun _ => false |}.

(* ================================================================= *)
(** ** Buffered channels *)

(** The two run-time panics a channel operation can raise. *)
Inductive panic := SendOnClosedChannel | CloseOfClosedChannel.

Module Chan.
Section Chan.
Context {A : Type}.

(** [make(chan A, cap)]: the queued items, oldest first, the capacity and
    whether [close] has been executed. *)
Record chan := { buf : list A; cap : nat; closed : bool }.

Definition make (n : nat) : chan :=
  {| buf := []; cap := n; closed := false |}.

(** A send case of a [select] can proceed when there is room in the
    buffer, or when the channel is closed (it then proceeds by
    panicking). *)
Definition send_ready (c : chan) : bool :=
  closed c || (List.length (buf c) <? cap c)%nat.

(** [c <- x], executed when it can proceed. *)
Definition send (c : chan) (x : A) : chan + panic :=
  if closed c then inr SendOnClosedChannel
  else inl {| buf := (buf c ++ [x])%list; cap := cap c; closed := false |}.

(** [close(c)] *)
Definition close (c : chan) : chan + panic :=
  if closed c then inr CloseOfClosedChannel
  else inl {| buf := buf c; cap := cap c; closed := true |}.

Inductive received := Item (x : A) | Drained | Blocked.

(** [x, ok := <-c]: the oldest item; on an empty channel, [ok = false]
    once the channel is closed, and the receiver waits otherwise. *)
Definition recv (c : chan) : chan * received :=
  match buf c with
  | x :: rest => ({| buf := rest; cap := cap c; closed := closed c |}, Item x)
  | [] => (c, if closed c then Drained else Blocked)
  end.

(** The three-way [select { case c <- x: ...; case <-ctx.Done(): ...;
    default: }] used by every producer: the send is executed when it is
    the only case that can proceed, or when both can and the run-time's
    random choice ([pick_done = false]) falls on it. *)
Definition select_sends (c : chan) (ctx_done pick_done : bool) : bool :=
  send_ready c && negb (ctx_done && pick_done).

End Chan.
Arguments chan A : clear implicits.
End Chan.

(* ================================================================= *)
(** ** TTS: callback handler and streaming workers *)

(** [strings.TrimSpace] of the Go standard library. *)
Class Strings := { TrimSpace : string -> string }.

(** Result of [bufio.Reader.ReadString]. *)
Inductive read_error := ReadNil | ReadEOF | ReadFailed (msg : string).

(** What the surroundings answer to one step of a worker: the error of the
    SDK call it makes, the result of the read it makes, and the random
    choice of a [select] with two cases ready. *)
Record oracle := {
  call_err : option string;
  read_chunk : string;
  read_err : read_error;
  pick_done : bool
}.

(** Outcome of creating and connecting the websocket client. *)
Record connect_env := {
  new_client_err : option string;   (* error of [NewWSUsingCallback...] *)
  connect_ok : bool                 (* result of [Connect()] *)
}.

Definition connection_fails (env : connect_env) : bool :=
  match new_client_err env with
  | Some _ => true
  | None => negb (connect_ok env)
  end.

Module TTS.

Record StreamChunk := {
  Audio : string;
  IsFinal : bool;
  Error : option string
}.

Definition audioChunk (data : string) : StreamChunk :=
  {| Audio := data; IsFinal := false; Error := None |}.
Definition finalChunk : StreamChunk :=
  {| Audio := ""; IsFinal := true; Error := None |}.
Definition errorChunk (msg : string) : StreamChunk :=
  {| Audio := ""; IsFinal := false; Error := Some msg |}.

(** Methods of [ttsCallbackHandler] the SDK may call. *)
Inductive callback :=
| Open | Metadata | Flush | Clear | Close | Warning
| Error_ (er : option string)          (* [nil] or the description *)
| UnhandledEvent (raw : string)
| Binary (data : string).

(** Control points of the goroutine started by [SynthesizeStream]
    ([S...]), of the one started by [SynthesizeFromReader] ([R...]), and
    of their common deferred function. *)
Inductive pc :=
| NotStarted
| SSpeak (text : string)
| SFlush
| RSelect (textBuffer : string)
| RRead (textBuffer : string)
| RSend (pending : list string) (last : string) (eof : bool)
| REof (textBuffer : string)
| REofFlush
| RCancel (textBuffer : string)
| RCancelFlush
| Wait                                  (* [<-ctx.Done()] *)
| Report (msg : string) (next : pc)     (* [handler.sendChunk] of an error *)
| DeferFinish
| DeferClose
| Exit.

Record state := {
  chunkCh : Chan.chan StreamChunk;
  closed : bool;                  (* [handler.closed] *)
  ctx_done : bool;                (* [ctx.Done()] is closed *)
  worker : pc;
  spoken : list string;           (* arguments of [SpeakWithText] *)
  flushes : nat;                  (* calls of [wsClient.Flush] *)
  finishes : nat;                 (* calls of [wsClient.Finish] *)
  closes : nat;                   (* executions of [close(chunkCh)] *)
  received : list StreamChunk;    (* what the consumer has read *)
  saw_close : bool;               (* the consumer read from the drained,
                                     closed channel *)
  crashed : option panic
}.

Definition with_chunkCh (st : state) (c : Chan.chan StreamChunk) : state :=
  {| chunkCh := c; closed := closed st; ctx_done := ctx_done st;
     worker := worker st; spoken := spoken st; flushes := flushes st;
     finishes := finishes st; closes := closes st;
     received := received st; saw_close := saw_close st;
     crashed := crashed st |}.

Definition with_worker (st : state) (p : pc) : state :=
  {| chunkCh := chunkCh st; closed := closed st; ctx_done := ctx_done st;
     worker := p; spoken := spoken st; flushes := flushes st;
     finishes := finishes st; closes := closes st;
     received := received st; saw_close := saw_close st;
     crashed := crashed st |}.

Definition with_crash (st : state) (p : panic) : state :=
  {| chunkCh := chunkCh st; closed := closed st; ctx_done := ctx_done st;
     worker := worker st; spoken := spoken st; flushes := flushes st;
     finishes := finishes st; closes := closes st;
     received := received st; saw_close := saw_close st;
     crashed := Some p |}.

(** [wsClient.SpeakWithText(text)] *)
Definition speak (st : state) (text : string) : state :=
  {| chunkCh := chunkCh st; closed := closed st; ctx_done := ctx_done st;
     worker := worker st; spoken := (spoken st ++ [text])%list;
     flushes := flushes st;
     finishes := finishes st; closes := closes st;
     received := received st; saw_close := saw_close st;
     crashed := crashed st |}.

(** [wsClient.Flush()] *)
Definition flush (st : state) : state :=
  {| chunkCh := chunkCh st; closed := closed st; ctx_done := ctx_done st;
     worker := worker st; spoken := spoken st; flushes := S (flushes st);
     finishes := finishes st; closes := closes st;
     received := received st; saw_close := saw_close st;
     crashed := crashed st |}.

(** [wsClient.Finish()] *)
Definition finish (st : state) : state :=
  {| chunkCh := chunkCh st; closed := closed st; ctx_done := ctx_done st;
     worker := worker st; spoken := spoken st; flushes := flushes st;
     finishes := S (finishes st); closes := closes st;
     received := received st; saw_close := saw_close st;
     crashed := crashed st |}.

(** [ttsCallbackHandler.sendChunk], one critical section of [h.mu]. *)
Definition sendChunk (pick : bool) (chunk : StreamChunk) (st : state)
  : state :=
  if closed st then st
  else if Chan.select_sends (chunkCh st) (ctx_done st) pick then
    match Chan.send (chunkCh st) chunk with
    | inl c => with_chunkCh st c
    | inr p => with_crash st p
    end
  else st.   (* context done, or channel full: the chunk is dropped *)

(** The critical section of the deferred function:
    [if !handler.closed { handler.closed = true; close(chunkCh) }]. *)
Definition guardedClose (st : state) : state :=
  if closed st then st
  else
    match Chan.close (chunkCh st) with
    | inl c =>
      {| chunkCh := c; closed := true; ctx_done := ctx_done st;
         worker := worker st; spoken := spoken st; flushes := flushes st;
         finishes := finishes st; closes := S (closes st);
         received := received st; saw_close := saw_close st;
         crashed := crashed st |}
    | inr p =>
      {| chunkCh := chunkCh st; closed := true; ctx_done := ctx_done st;
         worker := worker st; spoken := spoken st; flushes := flushes st;
         finishes := finishes st; closes := S (closes st);
         received := received st; saw_close := saw_close st;
         crashed := Some p |}
    end.

Definition handle (cb : callback) (pick : bool) (st : state) : state :=
  match cb with
  | Flush => sendChunk pick finalChunk st
  | Error_ (Some description) =>
    sendChunk pick (errorChunk ("deepgram TTS error: " ++ description)) st
  | Binary data => sendChunk pick (audioChunk data) st
  | _ => st
  end.

Definition nonempty (s : string) : bool := negb (String.eqb s "").

Section Workers.
Context `{UnicodeTables} `{Strings}.

(** Where the reader loop goes after a chunk has been dealt with. *)
Definition after_chunk (textBuffer : string) (eof : bool) : pc :=
  if eof then REof textBuffer else RSelect textBuffer.

(** One step of the goroutine. *)
Definition worker_step (o : oracle) (st : state) : state :=
  match worker st with
  | NotStarted | Exit => st
  (* SynthesizeStream *)
  | SSpeak text =>
    let st := speak st text in
    match call_err o with
    | Some e => with_worker st (Report ("failed to send text: " ++ e) DeferFinish)
    | None => with_worker st SFlush
    end
  | SFlush =>
    let st := flush st in
    match call_err o with
    | Some e => with_worker st (Report ("failed to flush: " ++ e) DeferFinish)
    | None => with_worker st Wait
    end
  (* SynthesizeFromReader *)
  | RSelect textBuffer =>
    if ctx_done st then with_worker st (RCancel textBuffer)
    else with_worker st (RRead textBuffer)
  | RRead textBuffer =>
    match read_err o with
    | ReadFailed e =>
      with_worker st (Report ("failed to read text: " ++ e) DeferFinish)
    | err =>
      let eof := match err with ReadEOF => true | _ => false end in
      let chunk := read_chunk o in
      if (0 <? String.length chunk)%nat then
        let textBuffer := textBuffer ++ chunk in
        let sentences := Segmenter.splitIntoSentences textBuffer in
        if (1 <? List.length sentences)%nat
        then with_worker st
               (RSend (removelast sentences) (last sentences "") eof)
        else with_worker st (after_chunk textBuffer eof)
      else with_worker st (after_chunk textBuffer eof)
    end
  | RSend [] lastSentence eof =>
    with_worker st (after_chunk lastSentence eof)
  | RSend (sentence :: rest) lastSentence eof =>
    let sentence := TrimSpace sentence in
    if nonempty sentence then
      let st := speak st sentence in
      match call_err o with
      | Some e =>
        with_worker st (Report ("failed to send text: " ++ e) DeferFinish)
      | None => with_worker st (RSend rest lastSentence eof)
      end
    else with_worker st (RSend rest lastSentence eof)
  | REof textBuffer =>
    let remaining := TrimSpace textBuffer in
    if nonempty remaining then
      let st := speak st remaining in
      match call_err o with
      | Some e =>
        with_worker st (Report ("failed to send text: " ++ e) DeferFinish)
      | None => with_worker st REofFlush
      end
    else with_worker st REofFlush
  | REofFlush =>
    let st := flush st in
    match call_err o with
    | Some e => with_worker st (Report ("failed to flush: " ++ e) Wait)
    | None => with_worker st Wait
    end
  | RCancel textBuffer =>
    if (0 <? String.length textBuffer)%nat
       && nonempty (TrimSpace textBuffer) then
      let st := speak st (TrimSpace textBuffer) in
      match call_err o with
      | Some e =>
        with_worker st (Report ("failed to send text: " ++ e) RCancelFlush)
      | None => with_worker st RCancelFlush
      end
    else with_worker st RCancelFlush
  | RCancelFlush =>
    let st := flush st in
    match call_err o with
    | Some e => with_worker st (Report ("failed to flush: " ++ e) DeferFinish)
    | None => with_worker st DeferFinish
    end
  (* shared *)
  | Wait => if ctx_done st then with_worker st DeferFinish else st
  | Report msg next =>
    with_worker (sendChunk (pick_done o) (errorChunk msg) st) next
  | DeferFinish => with_worker (finish st) DeferClose
  | DeferClose => with_worker (guardedClose st) Exit
  end.

Inductive event :=
| Callback (cb : callback) (pick : bool)   (* the SDK calls the handler *)
| Worker (o : oracle)                      (* the goroutine advances *)
| Cancel                                   (* the context is cancelled *)
| Receive.                                 (* the consumer reads the channel *)

Definition cancel (st : state) : state :=
  {| chunkCh := chunkCh st; closed := closed st; ctx_done := true;
     worker := worker st; spoken := spoken st; flushes := flushes st;
     finishes := finishes st; closes := closes st;
     received := received st; saw_close := saw_close st;
     crashed := crashed st |}.

Definition receive (st : state) : state :=
  match Chan.recv (chunkCh st) with
  | (c, Chan.Item x) =>
    {| chunkCh := c; closed := closed st; ctx_done := ctx_done st;
       worker := worker st; spoken := spoken st; flushes := flushes st;
       finishes := finishes st; closes := closes st;
       received := (received st ++ [x])%list; saw_close := saw_close st;
       crashed := crashed st |}
  | (_, Chan.Drained) =>
    {| chunkCh := chunkCh st; closed := closed st; ctx_done := ctx_done st;
       worker := worker st; spoken := spoken st; flushes := flushes st;
       finishes := finishes st; closes := closes st;
       received := received st; saw_close := true;
       crashed := crashed st |}
  | (_, Chan.Blocked) => st
  end.

(** One atomic step of the whole call; a panic ends the program. *)
Definition step (st : state) (ev : event) : state :=
  match crashed st with
  | Some _ => st
  | None =>
    match ev with
    | Callback cb pick => handle cb pick st
    | Worker o => worker_step o st
    | Cancel => cancel st
    | Receive => receive st
    end
  end.

Definition run (st : state) (evs : list event) : state :=
  fold_left step evs st.

(** The two streaming operations. *)
Inductive call :=
| SynthesizeStream (text : string)
| SynthesizeFromReader.

Definition entry (c : call) : pc :=
  match c with
  | SynthesizeStream text => SSpeak text
  | SynthesizeFromReader => RSelect ""
  end.

(** What the caller gets back: the channel (or [nil]) and the error. *)
Record result := { returned_channel : bool; err : option string }.

Definition fresh (c : Chan.chan StreamChunk) (p : pc) : state :=
  {| chunkCh := c; closed := false; ctx_done := false; worker := p;
     spoken := []; flushes := 0; finishes := 0; closes := 0;
     received := []; saw_close := false; crashed := None |}.

Definition close_unused (c : Chan.chan StreamChunk) : state :=
  match Chan.close c with
  | inl c' => fresh c' NotStarted
  | inr p => with_crash (fresh c NotStarted) p
  end.

(** The body of [SynthesizeStream] / [SynthesizeFromReader] up to the
    [go] statement: the state it leaves behind and what it returns. *)
Definition start (env : connect_env) (c : call) : state * result :=
  let chunkCh := Chan.make 100 in
  match new_client_err env with
  | Some e =>
    (close_unused chunkCh,
     {| returned_channel := false;
        err := Some ("failed to create Deepgram TTS client: " ++ e) |})
  | None =>
    if negb (connect_ok env) then
      (close_unused chunkCh,
       {| returned_channel := false;
          err := Some "failed to connect to Deepgram TTS" |})
    else
      (fresh chunkCh (entry c),
       {| returned_channel := true; err := None |})
  end.

(** *** Observations used in the statements *)

(** Everything put on the channel so far, in order. *)
Definition produced (st : state) : list StreamChunk :=
  (received st ++ Chan.buf (chunkCh st))%list.

Definition is_error (c : StreamChunk) : bool :=
  match Error c with Some _ => true | None => false end.

Definition non_errors (l : list StreamChunk) : list StreamChunk :=
  filter (fun c => negb (is_error c)) l.

Definition finals (l : list StreamChunk) : nat :=
  List.length (filter IsFinal l).

Definition is_callback (ev : event) : bool :=
  match ev with Callback _ _ => true | _ => false end.

Definition is_flush_ack (ev : event) : bool :=
  match ev with Callback Flush _ => true | _ => false end.

Definition is_receive (ev : event) : bool :=
  match ev with Receive => true | _ => false end.

Definition flush_acks (evs : list event) : nat :=
  List.length (filter is_flush_ack evs).

Definition is_worker (ev : event) : bool :=
  match ev with Worker _ => true | _ => false end.

(** Steps of the goroutine in a run. *)
Definition worker_steps (evs : list event) : nat :=
  List.length (filter is_worker evs).

(** The provider delivers one piece of audio: [Binary] is called with the
    data, and [pick] settles its [select] if need be. *)
Definition offer (x : string * bool) : event :=
  Callback (Binary (fst x)) (snd x).

(** A run completes gracefully when no SDK call and no read fails, the
    provider reports no error, and the flush acknowledgement arrives
    before the context is cancelled. *)
Definition no_failure (ev : event) : bool :=
  match ev with
  | Worker o =>
    match call_err o, read_err o with
    | None, ReadNil | None, ReadEOF => true
    | _, _ => false
    end
  | Callback (Error_ _) _ => false
  | _ => true
  end.

Fixpoint acked_before_cancel (acked : bool) (evs : list event) : bool :=
  match evs with
  | [] => acked
  | Callback Flush _ :: evs' => acked_before_cancel true evs'
  | Cancel :: _ => acked
  | _ :: evs' => acked_before_cancel acked evs'
  end.

Definition graceful (evs : list event) : bool :=
  forallb no_failure evs && acked_before_cancel false evs.

(** An SDK call, or a read, that succeeds. *)
Definition ok : oracle :=
  {| call_err := None; read_chunk := ""; read_err := ReadNil;
     pick_done := false |}.

(** A provider that streams 100 pieces of audio and then acknowledges the
    flush, to a consumer that starts reading only after the context has
    been cancelled and the goroutine has run to its end. *)
Definition slow_consumer : list event :=
  ([Worker ok; Worker ok]
   ++ map offer (repeat ("a", false) 100)
   ++ [Callback Flush false; Cancel; Worker ok; Worker ok; Worker ok]
   ++ repeat Receive 101)%list.

End Workers.
End TTS.

(** [strings.TrimSpace] on ASCII text: leading and trailing tabs, line
    feeds, vertical tabs, form feeds, carriage returns and spaces are
    removed. *)
Definition is_ascii_space (c : ascii) : bool :=
  let n := nat_of_ascii c in
  ((9 <=? n) && (n <=? 13))%nat || (n =? 32)%nat.

Fixpoint trim_left (s : string) : string :=
  match s with
  | String c s' => if is_ascii_space c then trim_left s' else s
  | EmptyString => EmptyString
  end.

Fixpoint trim_right (s : string) : string :=
  match s with
  | String c s' =>
    match trim_right s' with
    | EmptyString => if is_ascii_space c then EmptyString
                     else String c EmptyString
    | t => String c t
    end
  | EmptyString => EmptyString
  end.

Definition ascii_strings : Strings :=
  {| TrimSpace := fun s => trim_right (trim_left s) |}.

(* ================================================================= *)
(** ** STT: stream writer, context watcher and callback handler *)

Module STT.

Inductive EventType :=
| EventTranscript | EventSpeechStart | EventSpeechEnd | EventError.

Record StreamEvent := {
  Type_ : EventType;
  Transcript : string;
  IsFinal : bool;
  SpeechStarted : bool;
  SpeechEnded : bool;
  Error : option string
}.

Definition speechStart : StreamEvent :=
  {| Type_ := EventSpeechStart; Transcript := ""; IsFinal := false;
     SpeechStarted := true; SpeechEnded := false; Error := None |}.
Definition speechEnd : StreamEvent :=
  {| Type_ := EventSpeechEnd; Transcript := ""; IsFinal := false;
     SpeechStarted := false; SpeechEnded := true; Error := None |}.
Definition errorEvent (msg : string) : StreamEvent :=
  {| Type_ := EventError; Transcript := ""; IsFinal := false;
     SpeechStarted := false; SpeechEnded := false; Error := Some msg |}.

(** [io.ErrClosedPipe] *)
Definition ErrClosedPipe : string := "io: read/write on closed pipe".

(** The goroutine started by [TranscribeStream]:
    [select { case <-ctx.Done(): _ = writer.Close(); case <-writer.done: }] *)
Inductive watcher_pc := NoWatcher | Watching | WatcherCloses | WatcherExit.

Section Bridge.
(** The SDK's message type and the conversion
    [omnivoice.MessageResponseToStreamEvent] applied to the copy that
    [Message] builds. *)
Context {MessageResponse : Type}.
Variable MessageResponseToStreamEvent : MessageResponse -> StreamEvent.

(** Methods of [callbackHandler] the SDK may call. *)
Inductive callback :=
| Open
| Message (mr : option MessageResponse)
| Metadata
| SpeechStartedCb
| UtteranceEnd
| Close
| Error_ (er : option string)
| UnhandledEvent (raw : string).

Record state := {
  eventCh : Chan.chan StreamEvent;
  done : Chan.chan unit;           (* [writer.done] *)
  closed : bool;                   (* [streamWriter.closed] *)
  ctx_done : bool;
  watcher : watcher_pc;
  close_calls : nat;               (* calls of [streamWriter.Close] *)
  stops : nat;                     (* calls of [client.Stop] *)
  closes : nat;                    (* executions of [close(w.eventCh)] *)
  in_flight : list string;         (* [Write] calls between the check of
                                      [closed] and [client.Write] *)
  session : list string;           (* arguments of [client.Write] *)
  write_results : list (Z * option string);  (* what [Write] returned *)
  received : list StreamEvent;
  saw_close : bool;
  crashed : option panic
}.

Definition with_eventCh (st : state) (c : Chan.chan StreamEvent) : state :=
  {| eventCh := c; done := done st; closed := closed st;
     ctx_done := ctx_done st; watcher := watcher st;
     close_calls := close_calls st; stops := stops st; closes := closes st;
     in_flight := in_flight st; session := session st;
     write_results := write_results st; received := received st;
     saw_close := saw_close st; crashed := crashed st |}.

Definition with_crash (st : state) (p : panic) : state :=
  {| eventCh := eventCh st; done := done st; closed := closed st;
     ctx_done := ctx_done st; watcher := watcher st;
     close_calls := close_calls st; stops := stops st; closes := closes st;
     in_flight := in_flight st; session := session st;
     write_results := write_results st; received := received st;
     saw_close := saw_close st; crashed := Some p |}.

Definition with_watcher (st : state) (w : watcher_pc) : state :=
  {| eventCh := eventCh st; done := done st; closed := closed st;
     ctx_done := ctx_done st; watcher := w;
     close_calls := close_calls st; stops := stops st; closes := closes st;
     in_flight := in_flight st; session := session st;
     write_results := write_results st; received := received st;
     saw_close := saw_close st; crashed := crashed st |}.

(** The first half of [streamWriter.Write]: the check of [w.closed] under
    [w.mu].  A call that finds the writer closed returns
    [0, io.ErrClosedPipe]; otherwise it goes on to [client.Write]. *)
Definition write_begin (p : string) (st : state) : state :=
  if closed st then
    {| eventCh := eventCh st; done := done st; closed := closed st;
       ctx_done := ctx_done st; watcher := watcher st;
       close_calls := close_calls st; stops := stops st;
       closes := closes st;
       in_flight := in_flight st; session := session st;
       write_results := (write_results st ++ [(0, Some ErrClosedPipe)])%list;
       received := received st;
       saw_close := saw_close st; crashed := crashed st |}
  else
    {| eventCh := eventCh st; done := done st; closed := closed st;
       ctx_done := ctx_done st; watcher := watcher st;
       close_calls := close_calls st; stops := stops st;
       closes := closes st;
       in_flight := (in_flight st ++ [p])%list; session := session st;
       write_results := write_results st; received := received st;
       saw_close := saw_close st; crashed := crashed st |}.

(** The second half: [return w.client.Write(p)], where the SDK answers
    [res]. *)
Definition write_forward (res : Z * option string) (st : state) : state :=
  match in_flight st with
  | [] => st
  | p :: rest =>
    {| eventCh := eventCh st; done := done st; closed := closed st;
       ctx_done := ctx_done st; watcher := watcher st;
       close_calls := close_calls st; stops := stops st;
       closes := closes st;
       in_flight := rest; session := (session st ++ [p])%list;
       write_results := (write_results st ++ [res])%list;
       received := received st;
       saw_close := saw_close st; crashed := crashed st |}
  end.

(** [streamWriter.Close], one critical section of [w.mu]. *)
Definition Close_ (st : state) : state :=
  let st :=
    {| eventCh := eventCh st; done := done st; closed := closed st;
       ctx_done := ctx_done st; watcher := watcher st;
       close_calls := S (close_calls st); stops := stops st;
       closes := closes st;
       in_flight := in_flight st; session := session st;
       write_results := write_results st; received := received st;
       saw_close := saw_close st; crashed := crashed st |} in
  if closed st then st
  else
    (* w.closed = true; w.client.Stop() *)
    let stopped (d : Chan.chan unit) (c : Chan.chan StreamEvent)
                (n : nat) (cr : option panic) :=
      {| eventCh := c; done := d; closed := true;
         ctx_done := ctx_done st; watcher := watcher st;
         close_calls := close_calls st; stops := S (stops st);
         closes := n;
         in_flight := in_flight st; session := session st;
         write_results := write_results st; received := received st;
         saw_close := saw_close st; crashed := cr |} in
    match Chan.close (done st) with          (* close(w.done) *)
    | inr p => stopped (done st) (eventCh st) (closes st) (Some p)
    | inl d =>
      match Chan.close (eventCh st) with     (* close(w.eventCh) *)
      | inr p => stopped d (eventCh st) (S (closes st)) (Some p)
      | inl c => stopped d c (S (closes st)) None
      end
    end.

(** The [select] that ends every callback of [callbackHandler]. *)
Definition send_event (pick : bool) (ev : StreamEvent) (st : state) : state :=
  if Chan.select_sends (eventCh st) (ctx_done st) pick then
    match Chan.send (eventCh st) ev with
    | inl c => with_eventCh st c
    | inr p => with_crash st p
    end
  else st.   (* returns [ctx.Err()], or drops the event: channel full *)

Definition handle (cb : callback) (pick : bool) (st : state) : state :=
  match cb with
  | Message (Some mr) => send_event pick (MessageResponseToStreamEvent mr) st
  | SpeechStartedCb => send_event pick speechStart st
  | UtteranceEnd => send_event pick speechEnd st
  | Error_ (Some description) =>
    send_event pick (errorEvent ("deepgram error: " ++ description)) st
  | _ => st
  end.

(** One step of the watcher goroutine; [pick] is the random choice of its
    [select] when both cases are ready. *)
Definition watcher_step (pick : bool) (st : state) : state :=
  match watcher st with
  | Watching =>
    let ctx_ready := ctx_done st in
    let done_ready := Chan.closed (done st) in
    if ctx_ready && negb (done_ready && pick)
    then with_watcher st WatcherCloses
    else if done_ready then with_watcher st WatcherExit
    else st
  | WatcherCloses => with_watcher (Close_ st) WatcherExit
  | NoWatcher | WatcherExit => st
  end.

Inductive event :=
| WriteBegin (p : string)                 (* [writer.Write(p)] is called *)
| WriteForward (res : Z * option string)  (* ... and reaches the client *)
| CallerClose                             (* [writer.Close()] by the caller *)
| Cancel
| Watcher (pick : bool)
| Callback (cb : callback) (pick : bool)
| Receive.

Definition cancel (st : state) : state :=
  {| eventCh := eventCh st; done := done st; closed := closed st;
     ctx_done := true; watcher := watcher st;
     close_calls := close_calls st; stops := stops st; closes := closes st;
     in_flight := in_flight st; session := session st;
     write_results := write_results st; received := received st;
     saw_close := saw_close st; crashed := crashed st |}.

Definition receive (st : state) : state :=
  match Chan.recv (eventCh st) with
  | (c, Chan.Item x) =>
    {| eventCh := c; done := done st; closed := closed st;
       ctx_done := ctx_done st; watcher := watcher st;
       close_calls := close_calls st; stops := stops st;
       closes := closes st;
       in_flight := in_flight st; session := session st;
       write_results := write_results st;
       received := (received st ++ [x])%list;
       saw_close := saw_close st; crashed := crashed st |}
  | (_, Chan.Drained) =>
    {| eventCh := eventCh st; done := done st; closed := closed st;
       ctx_done := ctx_done st; watcher := watcher st;
       close_calls := close_calls st; stops := stops st;
       closes := closes st;
       in_flight := in_flight st; session := session st;
       write_results := write_results st; received := received st;
       saw_close := true; crashed := crashed st |}
  | (_, Chan.Blocked) => st
  end.

Definition step (st : state) (ev : event) : state :=
  match crashed st with
  | Some _ => st
  | None =>
    match ev with
    | WriteBegin p => write_begin p st
    | WriteForward res => write_forward res st
    | CallerClose => Close_ st
    | Cancel => cancel st
    | Watcher pick => watcher_step pick st
    | Callback cb pick => handle cb pick st
    | Receive => receive st
    end
  end.

Definition run (st : state) (evs : list event) : state :=
  fold_left step evs st.

(** What the caller gets back: writer and channel (or [nil, nil]) and the
    error. *)
Record result := { returned_writer : bool; returned_channel : bool;
                   err : option string }.

Definition fresh (c : Chan.chan StreamEvent) (w : watcher_pc) : state :=
  {| eventCh := c; done := Chan.make 0; closed := false;
     ctx_done := false; watcher := w;
     close_calls := 0; stops := 0; closes := 0;
     in_flight := []; session := []; write_results := [];
     received := []; saw_close := false; crashed := None |}.

Definition close_unused (c : Chan.chan StreamEvent) : state :=
  match Chan.close c with
  | inl c' => fresh c' NoWatcher
  | inr p => with_crash (fresh c NoWatcher) p
  end.

(** The body of [TranscribeStream]. *)
Definition TranscribeStream (env : connect_env) : state * result :=
  let eventCh := Chan.make 100 in
  match new_client_err env with
  | Some e =>
    (close_unused eventCh,
     {| returned_writer := false; returned_channel := false;
        err := Some ("failed to create Deepgram client: " ++ e) |})
  | None =>
    if negb (connect_ok env) then
      (close_unused eventCh,
       {| returned_writer := false; returned_channel := false;
          err := Some "failed to connect to Deepgram" |})
    else
      (fresh eventCh Watching,
       {| returned_writer := true; returned_channel := true;
          err := None |})
  end.

Definition is_receive (ev : event) : bool :=
  match ev with Receive => true | _ => false end.

(** The provider reports the start of speech: [SpeechStarted] is called,
    and [pick] settles its [select] if need be. *)
Definition offer (pick : bool) : event := Callback SpeechStartedCb pick.

End Bridge.
End STT.

(** A connection attempt that succeeds. *)
Definition connected : connect_env :=
  {| new_client_err := None; connect_ok := true |}.

(* ================================================================= *)
(** ** Invariants of the two bridges *)

Module TTSInv.
Import TTS.

(** The deferred close has run. *)
Definition exited (p : pc) : bool :=
  match p with Exit => true | _ => false end.

(** [wsClient.Finish()] has run. *)
Definition finished (p : pc) : bool :=
  match p with DeferClose | Exit => true | _ => false end.

(** Calls of [wsClient.Flush()] still ahead of a control point. *)
Fixpoint flushes_ahead (p : pc) : nat :=
  match p with
  | SSpeak _ | SFlush | RSelect _ | RRead _ | RSend _ _ _ | REof _
  | REofFlush | RCancel _ | RCancelFlush => 1
  | Report _ next => flushes_ahead next
  | NotStarted | Wait | DeferFinish | DeferClose | Exit => 0
  end.

(** Control points a started goroutine can be at: an error is reported
    only on the way to the pending flush, to the wait or to the deferred
    function. *)
Definition started (p : pc) : bool :=
  match p with
  | NotStarted => false
  | Report _ next =>
    match next with
    | DeferFinish | Wait | RCancelFlush => true
    | _ => false
    end
  | _ => true
  end.

(** A bound on the steps the goroutine still makes, once the context is
    cancelled, before it has run its deferred function.  ([RRead] is left
    out: there the goroutine waits for the reader.) *)
Fixpoint steps_to_exit (p : pc) : nat :=
  match p with
  | NotStarted | Exit | RRead _ => 0
  | DeferClose => 1
  | DeferFinish => 2
  | Wait => 3
  | Report _ next => S (steps_to_exit next)
  | RCancelFlush | SFlush => 4
  | SSpeak _ | REofFlush => 5
  | RCancel _ | REof _ => 6
  | RSelect _ => 7
  | RSend pending _ _ => List.length pending + 8
  end.

Definition reading (p : pc) : bool :=
  match p with RRead _ => true | _ => false end.

Record Inv (st : state) : Prop := {
  inv_running : crashed st = None;
  inv_flag : Chan.closed (chunkCh st) = closed st;
  inv_cap : Chan.cap (chunkCh st) = 100%nat;
  inv_room : (List.length (Chan.buf (chunkCh st)) <= 100)%nat;
  inv_exit : closed st = exited (worker st);
  inv_closes : closes st = if exited (worker st) then 1%nat else 0%nat;
  inv_finishes : finishes st = if finished (worker st) then 1%nat else 0%nat;
  inv_flushes : (flushes st + flushes_ahead (worker st) <= 1)%nat;
  inv_started : started (worker st) = true;
  inv_drained : saw_close st = true ->
                closed st = true /\ Chan.buf (chunkCh st) = []
}.

(** After a failed connection: the channel is closed and empty, nothing
    was started, nothing was read. *)
Record Unused (st : state) : Prop := {
  unused_closed : Chan.closed (chunkCh st) = true;
  unused_buf : Chan.buf (chunkCh st) = [];
  unused_worker : worker st = NotStarted;
  unused_received : received st = []
}.

End TTSInv.

Module STTInv.
Import STT.
Section Bridge.
Context {MessageResponse : Type}.

Record Inv (st : state) : Prop := {
  inv_flag : Chan.closed (eventCh st) = closed st;
  inv_done : Chan.closed (done st) = closed st;
  inv_cap : Chan.cap (eventCh st) = 100%nat;
  inv_room : (List.length (Chan.buf (eventCh st)) <= 100)%nat;
  inv_closes : closes st = Nat.min 1 (close_calls st);
  inv_stops : stops st = Nat.min 1 (close_calls st);
  inv_called : closed st = (0 <? close_calls st)%nat;
  inv_panic : crashed st <> Some CloseOfClosedChannel
}.

Record Unused (st : state) : Prop := {
  unused_closed : Chan.closed (eventCh st) = true;
  unused_buf : Chan.buf (eventCh st) = [];
  unused_received : received st = []
}.

End Bridge.
End STTInv.

(* ================================================================= *)
(** ** Package omnivoice: options, voices and conversions *)

Module Omnivoice.

Definition ProviderName : string := "deepgram".
Definition DefaultTTSModel : string := "aura-asteria-en".

(** [tts.SynthesisConfig]: the fields the adapter reads. *)
Module SynthesisConfig.
Record t := {
  VoiceID : string;
  Model : string;
  OutputFormat : string;
  SampleRate : Z
}.
End SynthesisConfig.

(** [interfaces.SpeakOptions] / [interfaces.WSSpeakOptions]: the fields
    the adapter sets. *)
Module SpeakOptions.
Record t := { Model : string; Encoding : string; SampleRate : Z }.
End SpeakOptions.

Module WSSpeakOptions.
Record t := { Model : string; Encoding : string; SampleRate : Z }.
End WSSpeakOptions.

Definition eqs (a b : string) : bool := String.eqb a b.

Definition mapTTSEncoding (format : string) : string :=
  if eqs format "mp3" then "mp3"
  else if eqs format "linear16" || eqs format "pcm" || eqs format "pcm_s16le"
          || eqs format "wav" then "linear16"
  else if eqs format "mulaw" || eqs format "ulaw" || eqs format "g711u"
          || eqs format "pcm_mulaw" then "mulaw"
  else if eqs format "alaw" || eqs format "g711a" || eqs format "pcm_alaw"
  then "alaw"
  else if eqs format "opus" then "opus"
  else if eqs format "flac" then "flac"
  else if eqs format "aac" then "aac"
  else if eqs format "" then "linear16"
  else format.

(** The encoding names Deepgram knows for speech output. *)
Definition ttsEncodings : list string :=
  ["mp3"; "linear16"; "mulaw"; "alaw"; "opus"; "flac"; "aac"].

(** The model both option builders settle on: the configured model,
    else the voice, else the default. *)
Definition pick_model (config : SynthesisConfig.t) : string :=
  let model := SynthesisConfig.Model config in
  let model :=
    if eqs model "" && negb (eqs (SynthesisConfig.VoiceID config) "")
    then SynthesisConfig.VoiceID config else model in
  if eqs model "" then DefaultTTSModel else model.

Definition ConfigToSpeakOptions (config : SynthesisConfig.t)
  : SpeakOptions.t :=
  {| SpeakOptions.Model := pick_model config;
     SpeakOptions.Encoding :=
       mapTTSEncoding (SynthesisConfig.OutputFormat config);
     SpeakOptions.SampleRate := SynthesisConfig.SampleRate config |}.

Definition ConfigToWSSpeakOptions (config : SynthesisConfig.t)
  : WSSpeakOptions.t :=
  {| WSSpeakOptions.Model := pick_model config;
     WSSpeakOptions.Encoding :=
       mapTTSEncoding (SynthesisConfig.OutputFormat config);
     WSSpeakOptions.SampleRate := SynthesisConfig.SampleRate config |}.

(** *** Voices *)

Module Voice.
Record t := { ID : string; Name : string; Language : string;
              Gender : string }.
End Voice.

(** [tts.Voice] *)
Module TTSVoice.
Record t := { ID : string; Name : string; Language : string;
              Gender : string; Provider : string }.
End TTSVoice.

Definition voice (id name language gender : string) : Voice.t :=
  {| Voice.ID := id; Voice.Name := name; Voice.Language := language;
     Voice.Gender := gender |}.

Definition DeepgramVoices : list Voice.t :=
  [ voice "aura-asteria-en" "Asteria" "en-US" "female";
    voice "aura-luna-en" "Luna" "en-US" "female";
    voice "aura-stella-en" "Stella" "en-US" "female";
    voice "aura-athena-en" "Athena" "en-US" "female";
    voice "aura-hera-en" "Hera" "en-US" "female";
    voice "aura-orion-en" "Orion" "en-US" "male";
    voice "aura-arcas-en" "Arcas" "en-US" "male";
    voice "aura-perseus-en" "Perseus" "en-US" "male";
    voice "aura-angus-en" "Angus" "en-IE" "male";
    voice "aura-orpheus-en" "Orpheus" "en-US" "male";
    voice "aura-helios-en" "Helios" "en-GB" "male";
    voice "aura-zeus-en" "Zeus" "en-US" "male";
    voice "aura-2-thalia-en" "Thalia (Aura 2)" "en-US" "female";
    voice "aura-2-andromeda-en" "Andromeda (Aura 2)" "en-US" "female";
    voice "aura-2-helena-en" "Helena (Aura 2)" "en-US" "female";
    voice "aura-2-apollo-en" "Apollo (Aura 2)" "en-US" "male";
    voice "aura-2-aries-en" "Aries (Aura 2)" "en-US" "male" ].

Definition VoiceToOmniVoice (v : Voice.t) : TTSVoice.t :=
  {| TTSVoice.ID := Voice.ID v; TTSVoice.Name := Voice.Name v;
     TTSVoice.Language := Voice.Language v;
     TTSVoice.Gender := Voice.Gender v;
     TTSVoice.Provider := ProviderName |}.

(** *** Live transcription options *)

(** [stt.TranscriptionConfig]: the fields the adapter reads. *)
Module TranscriptionConfig.
Record t := {
  Encoding : string;
  SampleRate : Z;
  Channels : Z;
  Model : string;
  Language : string;
  EnablePunctuation : bool;
  EnableSpeakerDiarization : bool;
  MaxSpeakers : Z;
  Keywords : list string
}.
End TranscriptionConfig.

(** [interfaces.LiveTranscriptionOptions]: the fields the adapter sets. *)
Module LiveTranscriptionOptions.
Record t := {
  Encoding : string;
  SampleRate : Z;
  Channels : Z;
  Model : string;
  Language : string;
  Punctuate : bool;
  SmartFormat : bool;
  InterimResults : bool;
  UtteranceEndMs : string;
  Diarize : bool;
  DiarizeVersion : string;
  Keywords : list string
}.
End LiveTranscriptionOptions.

Definition mapEncoding (encoding : string) : string :=
  if eqs encoding "mulaw" || eqs encoding "ulaw" || eqs encoding "g711u"
     || eqs encoding "pcm_mulaw" then "mulaw"
  else if eqs encoding "alaw" || eqs encoding "g711a"
          || eqs encoding "pcm_alaw" then "alaw"
  else if eqs encoding "linear16" || eqs encoding "pcm"
          || eqs encoding "pcm_s16le" then "linear16"
  else if eqs encoding "flac" then "flac"
  else if eqs encoding "opus" then "opus"
  else if eqs encoding "speex" then "speex"
  else if eqs encoding "mp3" then "mp3"
  else if eqs encoding "webm" then "webm"
  else if eqs encoding "" then "linear16"
  else encoding.

(** The encoding names Deepgram knows for speech input. *)
Definition sttEncodings : list string :=
  ["mulaw"; "alaw"; "linear16"; "flac"; "opus"; "speex"; "mp3"; "webm"].

Definition ConfigToLiveTranscriptionOptions (config : TranscriptionConfig.t)
  : LiveTranscriptionOptions.t :=
  let diarize := TranscriptionConfig.EnableSpeakerDiarization config in
  {| LiveTranscriptionOptions.Encoding :=
       mapEncoding (TranscriptionConfig.Encoding config);
     LiveTranscriptionOptions.SampleRate :=
       if TranscriptionConfig.SampleRate config =? 0 then 8000
       else TranscriptionConfig.SampleRate config;
     LiveTranscriptionOptions.Channels :=
       if TranscriptionConfig.Channels config =? 0 then 1
       else TranscriptionConfig.Channels config;
     LiveTranscriptionOptions.Model :=
       if eqs (TranscriptionConfig.Model config) "" then "nova-2"
       else TranscriptionConfig.Model config;
     LiveTranscriptionOptions.Language :=
       if eqs (TranscriptionConfig.Language config) "" then "en-US"
       else TranscriptionConfig.Language config;
     LiveTranscriptionOptions.Punctuate :=
       TranscriptionConfig.EnablePunctuation config;
     LiveTranscriptionOptions.SmartFormat := true;
     LiveTranscriptionOptions.InterimResults := true;
     LiveTranscriptionOptions.UtteranceEndMs := "1000";
     LiveTranscriptionOptions.Diarize := diarize;
     LiveTranscriptionOptions.DiarizeVersion :=
       if diarize && (0 <? TranscriptionConfig.MaxSpeakers config)
       then "latest" else "";
     LiveTranscriptionOptions.Keywords :=
       TranscriptionConfig.Keywords config |}.

(** *** [itoa] and [formatSpeaker] *)

(** Go's [int], taken as 64 bits wide: [wrap] is what an arithmetic
    result becomes. *)
Definition minInt : Z := - 2 ^ 63.
Definition maxInt : Z := 2 ^ 63 - 1.
Definition wrap (z : Z) : Z := (z + 2 ^ 63) mod 2 ^ 64 - 2 ^ 63.

(** [b[n] = c] on the array [b]. *)
Fixpoint store (n : nat) (c : ascii) (b : list ascii) : list ascii :=
  match b, n with
  | [], _ => []
  | _ :: b', O => c :: b'
  | x :: b', S n' => x :: store n' c b'
  end.

(** [for i > 0 { n--; b[n] = byte('0' + i%10); i /= 10 }]: the index
    and the array at the end of the loop, [None] when [n--] leaves the
    array (index out of range). *)
Fixpoint itoa_loop (n : nat) (i : Z) (b : list ascii)
  : option (nat * list ascii) :=
  if 0 <? i then
    match n with
    | O => None
    | S n' =>
      itoa_loop n' (Z.quot i 10) (store n' (byte_of (48 + Z.rem i 10)) b)
    end
  else Some (n, b).

(** [itoa]; the recursion on [-i] is bounded by [fuel], and [None] stands
    for no result. *)
Fixpoint itoa (fuel : nat) (i : Z) : option string :=
  match fuel with
  | O => None
  | S fuel' =>
    if i =? 0 then Some "0"
    else if i <? 0 then
      match itoa fuel' (wrap (- i)) with
      | Some s => Some ("-" ++ s)
      | None => None
      end
    else
      match itoa_loop 20 i (repeat zero 20) with
      | Some (n, b) => Some (string_of_list_ascii (skipn n b))
      | None => None
      end
  end.

Definition formatSpeaker (fuel : nat) (speaker : Z) : option string :=
  match itoa fuel speaker with
  | Some s => Some ("speaker_" ++ s)
  | None => None
  end.

(** Reading a decimal numeral back. *)
Definition digit (c : ascii) : Z := byteZ c - 48.

Fixpoint digits_value (acc : Z) (s : string) : Z :=
  match s with
  | EmptyString => acc
  | String c s' => digits_value (acc * 10 + digit c) s'
  end.

Definition atoi (s : string) : Z :=
  match s with
  | String "-"%char s' => - digits_value 0 s'
  | _ => digits_value 0 s
  end.

Definition is_digit (c : ascii) : bool :=
  (48 <=? byteZ c) && (byteZ c <=? 57).

(** The value read from index [n] of the array on. *)
Definition tail_value (n : nat) (b : list ascii) : Z :=
  digits_value 0 (string_of_list_ascii (skipn n b)).

(** *** [MessageResponseToStreamEvent] *)

Section Messages.
(** [float64], and [time.Duration(x * float64(time.Second))]. *)
Context {float64 : Type}.
Variable seconds : float64 -> Z.

Record Word := {
  Word_ : string;
  Start : float64;
  End_ : float64;
  Confidence : float64;
  Speaker : option Z
}.

Record Alternative := {
  Transcript : string;
  AltConfidence : float64;
  Words : list Word
}.

(** [MessageResponse], with [Channel.Alternatives] as [Alternatives]. *)
Record MessageResponse := {
  Alternatives : list Alternative;
  IsFinal : bool;
  Duration : float64;
  MsgStart : float64
}.

(** [stt.Word], [stt.Segment] and [stt.StreamEvent]. *)
Record SttWord := {
  Text : string;
  WordConfidence : float64;
  StartTime : Z;
  EndTime : Z;
  SpeakerLabel : string
}.

Record Segment := {
  SegText : string;
  SegConfidence : float64;
  SegWords : list SttWord;
  SegStartTime : Z;
  SegEndTime : Z
}.

Record StreamEvent := {
  EvType : STT.EventType;
  EvTranscript : string;
  EvIsFinal : bool;
  EvSegment : option Segment;
  EvSpeechStarted : bool;
  EvSpeechEnded : bool;
  EvError : option string
}.

Definition bareTranscript : StreamEvent :=
  {| EvType := STT.EventTranscript; EvTranscript := ""; EvIsFinal := false;
     EvSegment := None; EvSpeechStarted := false; EvSpeechEnded := false;
     EvError := None |}.

(** The body of the loop over [alt.Words]. *)
Definition convertWord (fuel : nat) (w : Word) : option SttWord :=
  let word (label : string) :=
    {| Text := Word_ w;
       WordConfidence := Confidence w;
       StartTime := seconds (Start w);
       EndTime := seconds (End_ w);
       SpeakerLabel := label |} in
  match Speaker w with
  | Some sp =>
    match formatSpeaker fuel sp with
    | Some label => Some (word label)
    | None => None
    end
  | None => Some (word "")
  end.

(** [for _, w := range alt.Words { ...; segment.Words =
    append(segment.Words, word) }] *)
Fixpoint convertWords (fuel : nat) (ws : list Word) (acc : list SttWord)
  : option (list SttWord) :=
  match ws with
  | [] => Some acc
  | w :: ws' =>
    match convertWord fuel w with
    | Some word => convertWords fuel ws' (acc ++ [word])%list
    | None => None
    end
  end.

(** [fuel] bounds the recursion of [itoa]; [None] stands for no
    result. *)
Definition MessageResponseToStreamEvent
           (fuel : nat) (result : option MessageResponse)
  : option StreamEvent :=
  match result with
  | None => Some bareTranscript
  | Some result =>
    match Alternatives result with
    | [] => Some bareTranscript
    | alt :: _ =>
      let event (segment : option Segment) :=
        {| EvType := STT.EventTranscript;
           EvTranscript := Transcript alt;
           EvIsFinal := IsFinal result;
           EvSegment := segment;
           EvSpeechStarted := false; EvSpeechEnded := false;
           EvError := None |} in
      match Words alt with
      | [] => Some (event None)
      | _ =>
        match convertWords fuel (Words alt) [] with
        | None => None
        | Some words =>
          Some (event (Some
            {| SegText := Transcript alt;
               SegConfidence := AltConfidence alt;
               SegWords := words;
               SegStartTime :=
                 match words with
                 | [] => 0
                 | first :: _ => StartTime first
                 end;
               SegEndTime :=
                 match rev words with
                 | [] => 0
                 | last_ :: _ => EndTime last_
                 end |}))
        end
      end
    end
  end.

End Messages.

(** *** [InitSDK] *)

(** The package-level state: whether [sdkInitOnce] has fired, and how
    often [client.Init] has run. *)
Record process := { sdkInitOnce : bool; client_inits : nat }.

Definition boot : process := {| sdkInitOnce := false; client_inits := 0 |}.

Definition InitSDK (p : process) : process :=
  if sdkInitOnce p then p
  else {| sdkInitOnce := true; client_inits := S (client_inits p) |}.

End Omnivoice.

(* ================================================================= *)
(** ** The providers: construction, batch synthesis, voices *)

(** The one functional option of both packages. *)
Inductive ProviderOption := WithAPIKey (apiKey : string).

(** [cfg := &options{}; for _, opt := range opts { opt(cfg) }] *)
Definition apply_options (opts : list ProviderOption) : string :=
  fold_left (fun _ opt => match opt with WithAPIKey k => k end) opts "".

Module STTProvider.

Record Provider := { apiKey : string }.

Definition New (opts : list ProviderOption) (p : Omnivoice.process)
  : (Provider + string) * Omnivoice.process :=
  let cfg := apply_options opts in
  if String.eqb cfg "" then (inr "API key is required", p)
  else (inl {| apiKey := cfg |}, Omnivoice.InitSDK p).

Definition Name (_ : Provider) : string := Omnivoice.ProviderName.

End STTProvider.

Module TTSProvider.

(** [client] stands for the REST client, built for the key. *)
Record Provider := { apiKey : string; client : string }.

Definition New (opts : list ProviderOption) (p : Omnivoice.process)
  : (Provider + string) * Omnivoice.process :=
  let cfg := apply_options opts in
  if String.eqb cfg "" then (inr "API key is required", p)
  else (inl {| apiKey := cfg; client := cfg |}, Omnivoice.InitSDK p).

Definition Name (_ : Provider) : string := Omnivoice.ProviderName.

(** [tts.SynthesisResult] *)
Record SynthesisResult := {
  Audio : string;
  Format : string;
  SampleRate : Z;
  CharacterCount : Z
}.

Section Batch.
(** [p.client.ToStream(ctx, text, opts, &buffer)]: the bytes written to
    the buffer and the character count, or the error. *)
Variable ToStream :
  string -> Omnivoice.SpeakOptions.t -> (string * Z) + string.

Definition Synthesize (text : string) (config : Omnivoice.SynthesisConfig.t)
  : SynthesisResult + string :=
  let opts := Omnivoice.ConfigToSpeakOptions config in
  match ToStream text opts with
  | inr e => inr ("deepgram TTS failed: " ++ e)
  | inl (buffer, characters) =>
    let outputFormat := Omnivoice.SynthesisConfig.OutputFormat config in
    let outputFormat :=
      if String.eqb outputFormat "" then "linear16" else outputFormat in
    let sampleRate := Omnivoice.SynthesisConfig.SampleRate config in
    let sampleRate := if sampleRate =? 0 then 24000 else sampleRate in
    inl {| Audio := buffer; Format := outputFormat;
           SampleRate := sampleRate; CharacterCount := characters |}
  end.

End Batch.

Definition ListVoices : list Omnivoice.TTSVoice.t :=
  map Omnivoice.VoiceToOmniVoice Omnivoice.DeepgramVoices.

(** [tts.ErrVoiceNotFound] *)
Inductive error := ErrVoiceNotFound.

(** The loop of [GetVoice] over a table of voices. *)
Fixpoint lookup (voiceID : string) (voices : list Omnivoice.Voice.t)
  : Omnivoice.TTSVoice.t + error :=
  match voices with
  | [] => inr ErrVoiceNotFound
  | v :: voices' =>
    if String.eqb (Omnivoice.Voice.ID v) voiceID
    then inl (Omnivoice.VoiceToOmniVoice v)
    else lookup voiceID voices'
  end.

Definition GetVoice (voiceID : string) : Omnivoice.TTSVoice.t + error :=
  lookup voiceID Omnivoice.DeepgramVoices.

(** A sequence of provider constructions in one process. *)
Inductive construction :=
| NewSTT (opts : list ProviderOption)
| NewTTS (opts : list ProviderOption).

Definition construct (p : Omnivoice.process) (c : construction)
  : Omnivoice.process :=
  match c with
  | NewSTT opts => snd (STTProvider.New opts p)
  | NewTTS opts => snd (New opts p)
  end.

Definition succeeds (c : construction) : bool :=
  match c with
  | NewSTT opts | NewTTS opts => negb (String.eqb (apply_options opts) "")
  end.

End TTSProvider.

(* ================================================================= *)
(** ** What the callbacks offer and what the workers are given *)

(** [l1] is [l2] with some items left out, the others in their order. *)
Inductive subseq {A : Type} : list A -> list A -> Prop :=
| subseq_nil : subseq [] []
| subseq_skip (x : A) (l1 l2 : list A) : subseq l1 l2 -> subseq l1 (x :: l2)
| subseq_keep (x : A) (l1 l2 : list A) :
    subseq l1 l2 -> subseq (x :: l1) (x :: l2).

Module Offers.

(** The chunk a method of [ttsCallbackHandler] passes to [sendChunk],
    if any. *)
Definition tts_chunk (cb : TTS.callback) : list TTS.StreamChunk :=
  match cb with
  | TTS.Flush => [TTS.finalChunk]
  | TTS.Error_ (Some description) =>
    [TTS.errorChunk ("deepgram TTS error: " ++ description)]
  | TTS.Binary data => [TTS.audioChunk data]
  | _ => []
  end.

(** The chunks the callbacks of a run pass to [sendChunk], in order. *)
Definition tts_offered (evs : list TTS.event) : list TTS.StreamChunk :=
  flat_map (fun ev => match ev with
                      | TTS.Callback cb _ => tts_chunk cb
                      | _ => []
                      end) evs.

(** No SDK call and no read of the run fails. *)
Definition calls_succeed (ev : TTS.event) : bool :=
  match ev with
  | TTS.Worker o =>
    match call_err o, read_err o with
    | None, ReadNil | None, ReadEOF => true
    | _, _ => false
    end
  | _ => true
  end.

(** Control points of the goroutine of [SynthesizeStream] once it has
    called [SpeakWithText]. *)
Definition stream_pc (p : TTS.pc) : bool :=
  match p with
  | TTS.SFlush | TTS.Wait | TTS.DeferFinish | TTS.DeferClose | TTS.Exit
  | TTS.Report _ TTS.DeferFinish => true
  | _ => false
  end.

(** Control points of the goroutine of [SynthesizeFromReader]. *)
Definition reader_pc (p : TTS.pc) : bool :=
  match p with
  | TTS.NotStarted | TTS.SSpeak _ | TTS.SFlush => false
  | _ => true
  end.

(** A goroutine that is not about to report an error. *)
Definition unreported (p : TTS.pc) : bool :=
  match p with TTS.Report _ _ => false | _ => true end.

(** A text passed on by the goroutine of [SynthesizeFromReader]: the
    result of [strings.TrimSpace], and not empty. *)
Definition trimmed `{Strings} (s : string) : Prop :=
  s <> "" /\ exists t, s = TrimSpace t.

(** The goroutine of [SynthesizeStream] after [n] of its steps: before
    the first, nothing has been passed on; after it, the text. *)
Definition stream_state (text : string) (n : nat) (st : TTS.state) : Prop :=
  (n = 0%nat /\ TTS.worker st = TTS.SSpeak text /\ TTS.spoken st = [])
  \/ ((0 < n)%nat /\ stream_pc (TTS.worker st) = true
      /\ TTS.spoken st = [text]).

Section STT.
Context {MessageResponse : Type}.
Variable MessageResponseToStreamEvent : MessageResponse -> STT.StreamEvent.

(** The event a method of [callbackHandler] sends, if any. *)
Definition stt_event (cb : @STT.callback MessageResponse)
  : list STT.StreamEvent :=
  match cb with
  | STT.Message (Some mr) => [MessageResponseToStreamEvent mr]
  | STT.SpeechStartedCb => [STT.speechStart]
  | STT.UtteranceEnd => [STT.speechEnd]
  | STT.Error_ (Some description) =>
    [STT.errorEvent ("deepgram error: " ++ description)]
  | _ => []
  end.

Definition stt_offered (evs : list (@STT.event MessageResponse))
  : list STT.StreamEvent :=
  flat_map (fun ev => match ev with
                      | STT.Callback cb _ => stt_event cb
                      | _ => []
                      end) evs.

(** Everything put on the event channel so far, in order. *)
Definition stt_produced (st : STT.state) : list STT.StreamEvent :=
  (STT.received st ++ Chan.buf (STT.eventCh st))%list.


Definition is_watcher (ev : @STT.event MessageResponse) : bool :=
  match ev with STT.Watcher _ => true | _ => false end.

(** Steps of the watcher goroutine in a run. *)
Definition watcher_steps (evs : list (@STT.event MessageResponse)) : nat :=
  List.length (filter is_watcher evs).

(** Steps the watcher still makes, once the context is cancelled, before
    it has returned. *)
Definition watcher_ahead (w : STT.watcher_pc) : nat :=
  match w with
  | STT.Watching => 2
  | STT.WatcherCloses => 1
  | STT.NoWatcher | STT.WatcherExit => 0
  end.

(** A started watcher that has returned has seen the writer closed. *)
Definition watcher_ok (st : STT.state) : Prop :=
  match STT.watcher st with
  | STT.NoWatcher => False
  | STT.WatcherExit => STT.closed st = true
  | _ => True
  end.

End STT.
End Offers.

(** A rune the decoder can yield: a Unicode scalar value read from a
    well-formed sequence, or [RuneError]. *)
Definition decodable (r : rune) : Prop :=
  exists c0 s1 w, Utf8.decoderune (String c0 s1) = (r, w).

(** The goroutine of [SynthesizeFromReader] and the text it reads. *)
Module Reader.
Section Reader.
Context `{UnicodeTables} `{Strings}.

(** What the goroutine passes on of a list of sentences: each one
    trimmed, the empty ones left out. *)
Definition speakable (l : list string) : list string :=
  filter TTS.nonempty (map TrimSpace l).

(** The text a step takes from the reader: the chunk that
    [bufReader.ReadString] returns without error, or at end of input. *)
Definition reads (st : TTS.state) (ev : TTS.event) : string :=
  match TTS.crashed st, ev, TTS.worker st with
  | None, TTS.Worker o, TTS.RRead _ =>
    match read_err o with ReadFailed _ => "" | _ => read_chunk o end
  | _, _, _ => ""
  end.

(** The text read in a run that starts in [st]. *)
Fixpoint text_read (st : TTS.state) (evs : list TTS.event) : string :=
  match evs with
  | [] => ""
  | ev :: evs' => reads st ev ++ text_read (TTS.step st ev) evs'
  end.

(** The reader delivers well-formed UTF-8. *)
Definition valid_read (ev : TTS.event) : bool :=
  match ev with
  | TTS.Worker o => Utf8.ValidString (read_chunk o)
  | _ => true
  end.

(** What the goroutine has passed on, and what it holds back, of the
    sentences of the text [W] read so far. *)
Definition reader_inv (W : string) (st : TTS.state) : Prop :=
  match TTS.worker st with
  | TTS.RSelect b | TTS.RRead b | TTS.REof b | TTS.RCancel b =>
    b = last (Segmenter.splitIntoSentences W) ""
    /\ TTS.spoken st
       = speakable (removelast (Segmenter.splitIntoSentences W))
  | TTS.RSend pending lastS _ =>
    exists sent,
      Segmenter.splitIntoSentences W = (sent ++ pending ++ [lastS])%list
      /\ TTS.spoken st = speakable sent
  | TTS.REofFlush | TTS.RCancelFlush | TTS.Wait | TTS.DeferFinish
  | TTS.DeferClose | TTS.Exit =>
    TTS.spoken st = speakable (Segmenter.splitIntoSentences W)
  | _ => False
  end.

End Reader.
End Reader.

(* ================================================================= *)
(** * Facts *)

(** ** UTF-8: decoding then encoding *)

Module Utf8Facts.
Import Utf8.

Lemma lor_disjoint_add (n X lo : Z) :
  0 <= n -> X mod 2 ^ n = 0 -> 0 <= lo < 2 ^ n -> Z.lor X lo = X + lo.
Proof.
  intros Hn HX Hlo.
  assert (Hz : Z.land X lo = 0).
  { apply Z.bits_inj'. intros k Hk.
    rewrite Z.land_spec, Z.bits_0.
    destruct (Z.lt_ge_cases k n) as [Hlt | Hge].
    - rewrite <- (Z.mod_pow2_bits_low X n k Hlt), HX, Z.bits_0. reflexivity.
    - rewrite <- (Z.mod_small lo (2 ^ n) Hlo).
      rewrite Z.mod_pow2_bits_high by lia. apply andb_false_r. }
  pose proof (Z.add_lor_land X lo) as E. rewrite Hz in E. lia.
Qed.

Lemma byteZ_range (c : ascii) : 0 <= byteZ c < 256.
Proof.
  unfold byteZ. pose proof (N_ascii_bounded c). lia.
Qed.

Lemma byte_of_byteZ (c : ascii) : byte_of (byteZ c) = c.
Proof.
  unfold byte_of. pose proof (byteZ_range c) as Hr.
  change 255 with (Z.ones 8). rewrite Z.land_ones by lia.
  rewrite Z.mod_small by (change (2 ^ 8) with 256; lia).
  unfold byteZ. rewrite N2Z.id. apply ascii_N_embedding.
Qed.

Lemma byte_of_eq (x : Z) (c : ascii) : x = byteZ c -> byte_of x = c.
Proof. intros ->. apply byte_of_byteZ. Qed.

(** Bit operations on the small constants of the codec, as arithmetic. *)
Ltac bits_to_arith :=
  repeat match goal with
  | |- context [Z.land ?a 63] =>
      change (Z.land a 63) with (Z.land a (Z.ones 6));
      rewrite (Z.land_ones a 6) by lia; change (2 ^ 6) with 64
  | |- context [Z.land ?a 31] =>
      change (Z.land a 31) with (Z.land a (Z.ones 5));
      rewrite (Z.land_ones a 5) by lia; change (2 ^ 5) with 32
  | |- context [Z.land ?a 15] =>
      change (Z.land a 15) with (Z.land a (Z.ones 4));
      rewrite (Z.land_ones a 4) by lia; change (2 ^ 4) with 16
  | |- context [Z.land ?a 7] =>
      change (Z.land a 7) with (Z.land a (Z.ones 3));
      rewrite (Z.land_ones a 3) by lia; change (2 ^ 3) with 8
  | |- context [Z.shiftl ?a 6] =>
      rewrite (Z.shiftl_mul_pow2 a 6) by lia; change (2 ^ 6) with 64
  | |- context [Z.shiftl ?a 12] =>
      rewrite (Z.shiftl_mul_pow2 a 12) by lia; change (2 ^ 12) with 4096
  | |- context [Z.shiftl ?a 18] =>
      rewrite (Z.shiftl_mul_pow2 a 18) by lia; change (2 ^ 18) with 262144
  | |- context [Z.shiftr ?a 6] =>
      rewrite (Z.shiftr_div_pow2 a 6) by lia; change (2 ^ 6) with 64
  | |- context [Z.shiftr ?a 12] =>
      rewrite (Z.shiftr_div_pow2 a 12) by lia; change (2 ^ 12) with 4096
  | |- context [Z.shiftr ?a 18] =>
      rewrite (Z.shiftr_div_pow2 a 18) by lia; change (2 ^ 18) with 262144
  end.

Ltac dm := Z.div_mod_to_equations; lia.

Lemma rune2_arith (b0 b1 : Z) :
  rune2 b0 b1 = (b0 mod 32) * 64 + b1 mod 64.
Proof.
  unfold rune2, mask2, maskx. bits_to_arith.
  apply (lor_disjoint_add 6); change (2 ^ 6) with 64; [lia | dm | dm].
Qed.

Lemma rune3_arith (b0 b1 b2 : Z) :
  rune3 b0 b1 b2 = (b0 mod 16) * 4096 + (b1 mod 64) * 64 + b2 mod 64.
Proof.
  unfold rune3, mask3, maskx. bits_to_arith.
  rewrite (lor_disjoint_add 12 (b0 mod 16 * 4096) (b1 mod 64 * 64));
    change (2 ^ 12) with 4096; [| lia | dm | dm].
  apply (lor_disjoint_add 6); change (2 ^ 6) with 64; [lia | dm | dm].
Qed.

Lemma rune4_arith (b0 b1 b2 b3 : Z) :
  rune4 b0 b1 b2 b3
  = (b0 mod 8) * 262144 + (b1 mod 64) * 4096 + (b2 mod 64) * 64 + b3 mod 64.
Proof.
  unfold rune4, mask4, maskx. bits_to_arith.
  rewrite (lor_disjoint_add 18 (b0 mod 8 * 262144) (b1 mod 64 * 4096));
    change (2 ^ 18) with 262144; [| lia | dm | dm].
  rewrite (lor_disjoint_add 12 _ (b2 mod 64 * 64));
    change (2 ^ 12) with 4096; [| lia | dm | dm].
  apply (lor_disjoint_add 6); change (2 ^ 6) with 64; [lia | dm | dm].
Qed.

Lemma lor_tx (x : Z) : 0 <= x < 64 -> Z.lor tx x = 128 + x.
Proof.
  intros Hx. apply (lor_disjoint_add 6); change (2 ^ 6) with 64;
    [lia | reflexivity | lia].
Qed.

Lemma lor_t2 (x : Z) : 0 <= x < 32 -> Z.lor t2 x = 192 + x.
Proof.
  intros Hx. apply (lor_disjoint_add 5); change (2 ^ 5) with 32;
    [lia | reflexivity | lia].
Qed.

Lemma lor_t3 (x : Z) : 0 <= x < 16 -> Z.lor t3 x = 224 + x.
Proof.
  intros Hx. apply (lor_disjoint_add 4); change (2 ^ 4) with 16;
    [lia | reflexivity | lia].
Qed.

Lemma lor_t4 (x : Z) : 0 <= x < 8 -> Z.lor t4 x = 240 + x.
Proof.
  intros Hx. apply (lor_disjoint_add 3); change (2 ^ 3) with 8;
    [lia | reflexivity | lia].
Qed.


Ltac small_mod r :=
  rewrite (Z.mod_small r 4294967296) by lia.

Ltac decide_tests :=
  repeat match goal with
  | |- context [?a <=? ?b] => destruct (Z.leb_spec a b); try lia
  | |- context [?a <? ?b] => destruct (Z.ltb_spec a b); try lia
  end; cbn [orb andb negb].

Lemma AppendRune_1 (b0 : Z) :
  0 <= b0 < 128 -> AppendRune b0 = str1 b0.
Proof.
  intros Hb. unfold AppendRune, rune1Max. small_mod b0.
  decide_tests. reflexivity.
Qed.

Lemma AppendRune_2 (b0 b1 : Z) :
  192 <= b0 < 224 -> 128 <= b1 <= 191 -> 127 < rune2 b0 b1 ->
  AppendRune (rune2 b0 b1) = str2 b0 b1.
Proof.
  intros H0 H1. rewrite rune2_arith. intros Hr.
  set (r := b0 mod 32 * 64 + b1 mod 64) in *.
  assert (Hb : 128 <= r <= 2047) by (subst r; dm).
  unfold AppendRune, rune1Max, rune2Max. small_mod r.
  decide_tests. unfold maskx. bits_to_arith.
  rewrite lor_t2 by (subst r; dm). rewrite lor_tx by dm.
  f_equal; [f_equal | f_equal; f_equal]; subst r; dm.
Qed.

Lemma AppendRune_3 (b0 b1 b2 : Z) :
  224 <= b0 < 240 -> 128 <= b1 <= 191 -> 128 <= b2 <= 191 ->
  2047 < rune3 b0 b1 b2 ->
  ~ (55296 <= rune3 b0 b1 b2 <= 57343) ->
  AppendRune (rune3 b0 b1 b2) = str3 b0 b1 b2.
Proof.
  intros H0 H1 H2. rewrite rune3_arith. intros Hr Hs.
  set (r := b0 mod 16 * 4096 + b1 mod 64 * 64 + b2 mod 64) in *.
  assert (Hb : 2048 <= r <= 65535) by (subst r; dm).
  unfold AppendRune, rune1Max, rune2Max, rune3Max, MaxRune,
    surrogateMin, surrogateMax.
  small_mod r. decide_tests.
  all: unfold encode3, maskx; bits_to_arith.
  all: rewrite lor_t3 by (subst r; dm); rewrite !lor_tx by dm.
  all: unfold str3, str2, str1.
  all: f_equal; [f_equal | f_equal; [f_equal | f_equal; f_equal]]; subst r; dm.
Qed.

Lemma AppendRune_4 (b0 b1 b2 b3 : Z) :
  240 <= b0 < 248 -> 128 <= b1 <= 191 -> 128 <= b2 <= 191 ->
  128 <= b3 <= 191 ->
  65535 < rune4 b0 b1 b2 b3 <= 1114111 ->
  AppendRune (rune4 b0 b1 b2 b3) = str4 b0 b1 b2 b3.
Proof.
  intros H0 H1 H2 H3. rewrite rune4_arith. intros Hr.
  set (r := b0 mod 8 * 262144 + b1 mod 64 * 4096 + b2 mod 64 * 64
            + b3 mod 64) in *.
  unfold AppendRune, rune1Max, rune2Max, rune3Max, MaxRune,
    surrogateMin, surrogateMax.
  small_mod r. decide_tests.
  unfold maskx. bits_to_arith.
  rewrite lor_t4 by (subst r; dm). rewrite !lor_tx by dm.
  unfold str4, str3, str2, str1.
  f_equal; [f_equal | f_equal; [f_equal | f_equal; [f_equal | f_equal; f_equal]]];
    subst r; dm.
Qed.


Ltac bool_hyps :=
  repeat match goal with
  | H : _ && _ = true |- _ => apply andb_prop in H; destruct H
  | H : (_ <=? _) = true |- _ => apply Z.leb_le in H
  | H : (_ <? _) = true |- _ => apply Z.ltb_lt in H
  | H : (_ <=? _) = false |- _ => apply Z.leb_gt in H
  | H : (_ <? _) = false |- _ => apply Z.ltb_ge in H
  | H : is_cont _ = true |- _ => unfold is_cont, locb, hicb in H
  end.

Lemma take_drop (w : nat) (s : string) : take w s ++ drop w s = s.
Proof.
  revert s. induction w as [| w IH]; intros [| c s]; simpl; try reflexivity.
  now rewrite IH.
Qed.

Lemma drop_length (w : nat) (s : string) :
  String.length (drop w s) = (String.length s - w)%nat.
Proof.
  revert s. induction w as [| w IH]; intros [| c s]; simpl; auto.
Qed.

Lemma decoderune_width (s : string) :
  (1 <= snd (decoderune s))%nat.
Proof.
  unfold decoderune.
  repeat match goal with
  | |- context [match ?x with _ => _ end] => destruct x
  end; simpl; lia.
Qed.

(** A decoding step that is not the one-byte fallback re-encodes to the
    bytes it consumed. *)
Lemma decoderune_AppendRune (c0 : ascii) (s1 : string) (r : rune) (w : nat) :
  decoderune (String c0 s1) = (r, w) ->
  (byteZ c0 <? RuneSelf) || negb (w =? 1)%nat = true ->
  AppendRune r = take w (String c0 s1).
Proof.
  unfold decoderune, RuneSelf, t2, t3, t4, t5, rune1Max, rune2Max, rune3Max,
    MaxRune, surrogateMin, surrogateMax.
  pose proof (byteZ_range c0) as R0.
  destruct (byteZ c0 <? 128) eqn:E1; intros Hd Hv.
  { inversion Hd; subst. bool_hyps. rewrite AppendRune_1 by lia.
    unfold str1. now rewrite byte_of_byteZ. }
  simpl in Hv.
  destruct ((192 <=? byteZ c0) && (byteZ c0 <? 224)) eqn:E2.
  { destruct s1 as [| c1 s2]; [inversion Hd; subst; discriminate |].
    destruct (is_cont (byteZ c1) && (127 <? rune2 (byteZ c0) (byteZ c1)))
      eqn:E; inversion Hd; subst; [| discriminate].
    bool_hyps. rewrite AppendRune_2 by lia.
    unfold str2, str1. now rewrite !byte_of_byteZ. }
  destruct ((224 <=? byteZ c0) && (byteZ c0 <? 240)) eqn:E3.
  { destruct s1 as [| c1 [| c2 s3]]; try (inversion Hd; subst; discriminate).
    match type of Hd with (if ?b then _ else _) = _ => destruct b eqn:E end;
      inversion Hd; subst; [| discriminate].
    apply andb_prop in E. destruct E as [E Es].
    apply negb_true_iff in Es.
    bool_hyps. rewrite AppendRune_3 by lia.
    unfold str3, str2, str1. now rewrite !byte_of_byteZ. }
  destruct ((240 <=? byteZ c0) && (byteZ c0 <? 248)) eqn:E4.
  { destruct s1 as [| c1 [| c2 [| c3 s4]]];
      try (inversion Hd; subst; discriminate).
    match type of Hd with (if ?b then _ else _) = _ => destruct b eqn:E end;
      inversion Hd; subst; [| discriminate].
    bool_hyps. rewrite AppendRune_4 by lia.
    unfold str4, str3, str2, str1. now rewrite !byte_of_byteZ. }
  inversion Hd; subst; discriminate.
Qed.

Lemma AppendRune_nonempty (r : rune) : AppendRune r <> EmptyString.
Proof.
  unfold AppendRune, encode3, str4, str3, str2, str1.
  repeat match goal with
  | |- context [if ?b then _ else _] => destruct b
  end; discriminate.
Qed.

Lemma runes_fuel_enough (fuel : nat) (s : string) :
  (String.length s <= fuel)%nat ->
  runes_fuel fuel s = stringtoslicerune s.
Proof.
  unfold stringtoslicerune.
  remember (String.length s) as n eqn:En.
  revert s En fuel.
  induction n as [n IH] using lt_wf_ind. intros s En fuel Hf.
  destruct s as [| c0 s1].
  - subst n. destruct fuel; reflexivity.
  - simpl in En. destruct n as [| n']; [discriminate |].
    destruct fuel as [| fuel']; [lia |].
    cbn [runes_fuel].
    destruct (decoderune (String c0 s1)) as [r w] eqn:Ed.
    pose proof (decoderune_width (String c0 s1)) as Hw. rewrite Ed in Hw.
    simpl in Hw. f_equal.
    pose proof (drop_length w (String c0 s1)) as Hl. simpl String.length in Hl.
    rewrite (IH (String.length (drop w (String c0 s1)))); try lia; auto.
    symmetry. apply (IH (String.length (drop w (String c0 s1)))); try lia; auto.
Qed.

(** One unfolding of [[]rune(s)]. *)
Lemma stringtoslicerune_cons (c0 : ascii) (s1 : string) :
  stringtoslicerune (String c0 s1)
  = fst (decoderune (String c0 s1))
    :: stringtoslicerune (drop (snd (decoderune (String c0 s1))) (String c0 s1)).
Proof.
  unfold stringtoslicerune at 1. cbn [String.length runes_fuel].
  destruct (decoderune (String c0 s1)) as [r w] eqn:Ed. cbn [fst snd].
  f_equal. apply runes_fuel_enough.
  pose proof (decoderune_width (String c0 s1)) as Hw. rewrite Ed in Hw.
  simpl in Hw. rewrite drop_length. cbn [String.length]. lia.
Qed.

Lemma valid_fuel_enough (fuel : nat) (s : string) :
  (String.length s <= fuel)%nat ->
  valid_fuel fuel s = ValidString s.
Proof.
  unfold ValidString.
  remember (String.length s) as n eqn:En.
  revert s En fuel.
  induction n as [n IH] using lt_wf_ind. intros s En fuel Hf.
  destruct s as [| c0 s1].
  - subst n. destruct fuel; reflexivity.
  - simpl in En. destruct n as [| n']; [discriminate |].
    destruct fuel as [| fuel']; [lia |].
    cbn [valid_fuel].
    destruct (decoderune (String c0 s1)) as [r w] eqn:Ed.
    pose proof (decoderune_width (String c0 s1)) as Hw. rewrite Ed in Hw.
    simpl in Hw. f_equal.
    pose proof (drop_length w (String c0 s1)) as Hl. simpl String.length in Hl.
    rewrite (IH (String.length (drop w (String c0 s1)))); try lia; auto.
    symmetry. apply (IH (String.length (drop w (String c0 s1)))); try lia; auto.
Qed.

(** Decoding a well-formed string and writing the runes back gives the
    string again. *)
Lemma encode_decode_valid (s : string) :
  ValidString s = true -> encode_runes (stringtoslicerune s) = s.
Proof.
  remember (String.length s) as n eqn:En.
  revert s En.
  induction n as [n IH] using lt_wf_ind. intros s En Hv.
  destruct s as [| c0 s1]; [reflexivity |].
  rewrite stringtoslicerune_cons.
  unfold ValidString in Hv. cbn [String.length valid_fuel] in Hv.
  destruct (decoderune (String c0 s1)) as [r w] eqn:Ed. cbn [fst snd].
  apply andb_prop in Hv. destruct Hv as [Hstep Hrest].
  pose proof (decoderune_width (String c0 s1)) as Hw. rewrite Ed in Hw.
  simpl in Hw.
  pose proof (drop_length w (String c0 s1)) as Hl. simpl String.length in Hl.
  rewrite valid_fuel_enough in Hrest by (simpl in En; lia).
  cbn [encode_runes].
  rewrite (IH (String.length (drop w (String c0 s1)))); auto;
    [| simpl in En; lia].
  rewrite (decoderune_AppendRune c0 s1 r w Ed Hstep).
  apply take_drop.
Qed.

Lemma stringtoslicerune_nil (s : string) :
  stringtoslicerune s = [] <-> s = EmptyString.
Proof.
  split; [| intros ->; reflexivity].
  destruct s as [| c0 s1]; [reflexivity |].
  rewrite stringtoslicerune_cons. discriminate.
Qed.

End Utf8Facts.

(** ** The segmenter *)

Module SegmenterFacts.
Import Utf8 Utf8Facts Unicode Segmenter.

Lemma append_nil_r (s : string) : s ++ "" = s.
Proof. induction s as [| c s IH]; simpl; [reflexivity | now rewrite IH]. Qed.

Lemma append_assoc (a b c : string) : (a ++ b) ++ c = a ++ (b ++ c).
Proof. induction a as [| x a IH]; simpl; [reflexivity | now rewrite IH]. Qed.

Lemma append_empty (a b : string) : a ++ b = "" -> a = "" /\ b = "".
Proof. destruct a; simpl; [auto | discriminate]. Qed.

Lemma join_app (l1 l2 : list string) : join (l1 ++ l2) = join l1 ++ join l2.
Proof.
  induction l1 as [| s l1 IH]; simpl; [reflexivity |].
  now rewrite IH, append_assoc.
Qed.

Lemma encode_runes_app (a b : list rune) :
  encode_runes (a ++ b) = encode_runes a ++ encode_runes b.
Proof.
  induction a as [| r a IH]; simpl; [reflexivity |].
  now rewrite IH, append_assoc.
Qed.

Lemma encode_runes_nil (rs : list rune) :
  encode_runes rs = "" <-> rs = [].
Proof.
  split; [| intros ->; reflexivity].
  destruct rs as [| r rs]; [reflexivity |]. simpl. intros E.
  apply append_empty in E. destruct E as [E _].
  now apply AppendRune_nonempty in E.
Qed.

Lemma length_pos_encode (rs : list rune) :
  (0 <? String.length (encode_runes rs))%nat
  = match rs with [] => false | _ => true end.
Proof.
  destruct rs as [| r rs]; [reflexivity |].
  destruct (encode_runes (r :: rs)) eqn:E; [| reflexivity].
  apply encode_runes_nil in E. discriminate.
Qed.

Section Split.
Context `{UnicodeTables}.

Lemma at_nth_error (runes : list rune) (i : nat) :
  (i < List.length runes)%nat -> nth_error runes i = Some (at_ runes i).
Proof. intros Hi. unfold at_. now apply nth_error_nth'. Qed.

Lemma followed_by_code (runes : list rune) (i : nat) :
  followed_by_space_or_end runes i
  = (List.length runes <=? i + 1)%nat || IsSpace (at_ runes (i + 1)).
Proof.
  unfold followed_by_space_or_end. replace (i + 1)%nat with (S i) by lia.
  destruct (Nat.leb_spec (List.length runes) (S i)) as [Hle | Hlt].
  - apply nth_error_None in Hle. now rewrite Hle.
  - now rewrite (at_nth_error runes (S i) Hlt).
Qed.

Lemma abbreviation_code (runes : list rune) (i : nat) :
  (i < List.length runes)%nat ->
  abbreviation_guard runes i
  = (0 <? i)%nat && (IsUpper (at_ runes (i - 1))
     && ((i <? 2)%nat || negb (IsLetter (at_ runes (i - 2))))).
Proof.
  intros Hi. unfold abbreviation_guard.
  destruct i as [| [| k]]; [reflexivity | |].
  - rewrite at_nth_error by lia. simpl. now rewrite andb_true_r.
  - rewrite (at_nth_error runes (S k)) by lia.
    rewrite (at_nth_error runes k) by lia.
    replace (S (S k) - 1)%nat with (S k) by lia.
    replace (S (S k) - 2)%nat with k by lia. reflexivity.
Qed.

Lemma decimal_code (runes : list rune) (i : nat) :
  (i < List.length runes)%nat ->
  decimal_guard runes i
  = (0 <? i)%nat && (IsDigit (at_ runes (i - 1))
     && (i + 1 <? List.length runes)%nat && IsDigit (at_ runes (i + 1))).
Proof.
  intros Hi. unfold decimal_guard.
  destruct i as [| j]; [reflexivity |].
  rewrite (at_nth_error runes j) by lia.
  replace (S j - 1)%nat with j by lia.
  replace (S j + 1)%nat with (S (S j)) by lia.
  destruct (Nat.ltb_spec (S (S j)) (List.length runes)) as [Hlt | Hge].
  - rewrite (at_nth_error runes (S (S j)) Hlt). simpl.
    now rewrite andb_true_r.
  - apply nth_error_None in Hge. rewrite Hge. simpl.
    now rewrite andb_false_r.
Qed.

(** The test of the loop is the boundary rule of the specification. *)
Lemma endsSentence_boundary (runes : list rune) (i : nat) :
  (i < List.length runes)%nat ->
  endsSentence runes i = boundary runes i.
Proof.
  intros Hi. unfold endsSentence, boundary, is_terminator.
  rewrite (at_nth_error runes i Hi), followed_by_code,
    abbreviation_code, decimal_code by assumption.
  destruct (at_ runes i =? dot), (at_ runes i =? bang),
    (at_ runes i =? question), (0 <? i)%nat,
    (IsUpper (at_ runes (i - 1))),
    ((i <? 2)%nat || negb (IsLetter (at_ runes (i - 2)))),
    (IsDigit (at_ runes (i - 1))), (i + 1 <? List.length runes)%nat,
    (IsDigit (at_ runes (i + 1))),
    ((List.length runes <=? i + 1)%nat || IsSpace (at_ runes (i + 1)));
    reflexivity.
Qed.

(** The loop, started at index [i] with [n] runes left, cuts the rest of
    the runes at the positions its test accepts. *)
Lemma split_loop_cut (runes : list rune) (n i : nat)
      (sentences : list string) (cur : list rune) :
  (i + n = List.length runes)%nat ->
  finish_ (split_loop runes n i sentences (encode_runes cur))
  = (sentences
     ++ map encode_runes
          (cut (map (endsSentence runes) (seq i n)) (skipn i runes) cur))%list.
Proof.
  revert i sentences cur.
  induction n as [| n IH]; intros i sentences cur Hlen.
  - simpl. unfold finish_. cbn [fst snd]. rewrite length_pos_encode.
    destruct cur; simpl; [now rewrite app_nil_r | reflexivity].
  - assert (Hi : (i < List.length runes)%nat) by lia.
    assert (Hs : skipn i runes = at_ runes i :: skipn (S i) runes).
    { unfold at_. clear - Hi. revert i Hi.
      induction runes as [| r rs IHr]; intros i Hi; [simpl in Hi; lia |].
      destruct i as [| i]; [reflexivity |]. simpl in Hi.
      change (skipn (S i) (r :: rs)) with (skipn i rs).
      rewrite (IHr i) by lia. reflexivity. }
    cbn [split_loop seq map]. rewrite Hs. cbn [cut].
    assert (He : encode_runes cur ++ AppendRune (at_ runes i)
                 = encode_runes (cur ++ [at_ runes i])).
    { rewrite encode_runes_app. simpl. now rewrite append_nil_r. }
    rewrite He.
    destruct (endsSentence runes i).
    + change EmptyString with (encode_runes []).
      rewrite IH by lia. cbn [map]. now rewrite <- app_assoc.
    + now rewrite IH by lia.
Qed.

(** [splitIntoSentences] cuts the runes of the text exactly at the
    boundaries of the specification. *)
Lemma splitIntoSentences_spec (text : string) :
  splitIntoSentences text = split_spec text.
Proof.
  unfold splitIntoSentences, split_spec, boundaries.
  set (runes := stringtoslicerune text).
  pose proof (split_loop_cut runes (List.length runes) 0 [] []
                (eq_refl _)) as E.
  unfold finish_ in E. cbn [encode_runes skipn app] in E.
  destruct (split_loop runes (List.length runes) 0 [] "") as [S c].
  cbn [fst snd] in E. rewrite E. f_equal. f_equal.
  apply map_ext_in. intros i Hi. apply in_seq in Hi.
  apply endsSentence_boundary. lia.
Qed.

Lemma cut_join (flags : list bool) (rs cur : list rune) :
  List.length flags = List.length rs ->
  join (map encode_runes (cut flags rs cur)) = encode_runes (cur ++ rs).
Proof.
  revert rs cur. induction flags as [| b flags IH]; intros rs cur Hl.
  - destruct rs; [| discriminate]. rewrite app_nil_r.
    destruct cur; simpl; [reflexivity | now rewrite append_nil_r].
  - destruct rs as [| r rs]; [discriminate |]. simpl in Hl.
    cbn [cut]. destruct b.
    + cbn [map join fold_right]. fold (join (map encode_runes (cut flags rs []))).
      rewrite IH by lia. cbn [app].
      rewrite <- encode_runes_app, <- app_assoc. reflexivity.
    + rewrite IH by lia. now rewrite <- app_assoc.
Qed.

(** Whatever the input, the pieces put together are the runes of the
    input written back. *)
Lemma join_split (text : string) :
  join (splitIntoSentences text)
  = encode_runes (stringtoslicerune text).
Proof.
  rewrite splitIntoSentences_spec. unfold split_spec.
  rewrite cut_join; [reflexivity |].
  unfold boundaries. now rewrite length_map, length_seq.
Qed.

Lemma cut_nil (flags : list bool) (rs cur : list rune) :
  List.length flags = List.length rs ->
  cut flags rs cur = [] <-> (cur ++ rs)%list = [].
Proof.
  revert rs cur. induction flags as [| b flags IH]; intros rs cur Hl.
  - destruct rs; [| discriminate]. rewrite app_nil_r.
    destruct cur; simpl; split; auto; discriminate.
  - destruct rs as [| r rs]; [discriminate |]. simpl in Hl.
    cbn [cut]. destruct b.
    + split; [discriminate |]. intros E. now destruct cur.
    + rewrite IH by lia. rewrite <- app_assoc. reflexivity.
Qed.

Lemma split_nil (text : string) :
  splitIntoSentences text = [] <-> text = "".
Proof.
  rewrite splitIntoSentences_spec. unfold split_spec.
  rewrite <- stringtoslicerune_nil.
  set (runes := stringtoslicerune text).
  split.
  - intros E. apply map_eq_nil in E.
    apply cut_nil in E; [exact E |].
    unfold boundaries. now rewrite length_map, length_seq.
  - intros ->. reflexivity.
Qed.

(** With no flag raised before the last position, nothing is cut off. *)
Lemma cut_single (flags : list bool) (rs cur : list rune) :
  List.length flags = List.length rs ->
  (forall k, (S k < List.length flags)%nat -> nth k flags false = false) ->
  (cur ++ rs)%list <> [] ->
  cut flags rs cur = [(cur ++ rs)%list].
Proof.
  revert rs cur. induction flags as [| b flags IH]; intros rs cur Hl Hf Hne.
  - destruct rs; [| discriminate]. rewrite app_nil_r in *.
    destruct cur; [congruence | reflexivity].
  - destruct rs as [| r rs]; [discriminate |]. simpl in Hl.
    cbn [cut]. destruct b.
    + destruct flags as [| b' flags].
      * destruct rs; [| discriminate]. reflexivity.
      * specialize (Hf 0%nat). simpl in Hf.
        assert (true = false) by (apply Hf; lia). discriminate.
    + rewrite IH; try lia.
      * now rewrite <- app_assoc.
      * intros k Hk. apply (Hf (S k)). simpl. lia.
      * rewrite <- app_assoc. now destruct cur.
Qed.

(** The table of [TestSplitIntoSentences] (provider_test.go), run on the
    model. *)
Lemma TestSplitIntoSentences :
  splitIntoSentences "Hello world." = ["Hello world."]
  /\ splitIntoSentences "Hello world. How are you?"
     = ["Hello world."; " How are you?"]
  /\ splitIntoSentences "Hello! How are you?" = ["Hello!"; " How are you?"]
  /\ splitIntoSentences "Hello world" = ["Hello world"]
  /\ splitIntoSentences "Dr. Smith is here." = ["Dr."; " Smith is here."]
  /\ splitIntoSentences "The price is 3.14 dollars."
     = ["The price is 3.14 dollars."]
  /\ splitIntoSentences "First sentence. Second sentence. Third sentence."
     = ["First sentence."; " Second sentence."; " Third sentence."]
  /\ splitIntoSentences "Complete sentence. Incomplete"
     = ["Complete sentence."; " Incomplete"]
  /\ splitIntoSentences "" = []
  /\ splitIntoSentences "   " = ["   "].
Proof. repeat split; vm_compute; reflexivity. Qed.

End Split.
End SegmenterFacts.

(** ** The TTS bridge *)

Module TTSFacts.
Import TTS TTSInv.

(** What [sendChunk] can do when the flag mirrors the channel: nothing,
    or append the chunk to a buffer that had room. *)
Lemma sendChunk_cases (pick : bool) (chunk : StreamChunk) (st : state) :
  Chan.closed (chunkCh st) = closed st ->
  sendChunk pick chunk st = st
  \/ (closed st = false
      /\ (List.length (Chan.buf (chunkCh st)) < Chan.cap (chunkCh st))%nat
      /\ negb (ctx_done st && pick) = true
      /\ sendChunk pick chunk st
         = with_chunkCh st
             {| Chan.buf := (Chan.buf (chunkCh st) ++ [chunk])%list;
                Chan.cap := Chan.cap (chunkCh st);
                Chan.closed := false |}).
Proof.
  intros Hflag. unfold sendChunk, Chan.select_sends, Chan.send_ready, Chan.send.
  rewrite Hflag.
  destruct (closed st) eqn:Hc; [now left |]. cbn [orb].
  destruct (Nat.ltb_spec (List.length (Chan.buf (chunkCh st)))
              (Chan.cap (chunkCh st))) as [Hlt | Hge]; [| now left].
  destruct (negb (ctx_done st && pick)) eqn:Hp; [| now left].
  right. cbn [andb]. auto.
Qed.

(** A full buffer, or a closed handler, makes [sendChunk] a no-op. *)
Lemma sendChunk_full (pick : bool) (chunk : StreamChunk) (st : state) :
  Chan.closed (chunkCh st) = closed st ->
  (Chan.cap (chunkCh st) <= List.length (Chan.buf (chunkCh st)))%nat ->
  sendChunk pick chunk st = st.
Proof.
  intros Hflag Hfull.
  destruct (sendChunk_cases pick chunk st Hflag) as [E | (_ & Hlt & _)];
    [exact E | lia].
Qed.

(** With room, an open handler and a live context the chunk goes in. *)
Lemma sendChunk_room (pick : bool) (chunk : StreamChunk) (st : state) :
  Chan.closed (chunkCh st) = false -> closed st = false ->
  ctx_done st = false ->
  (List.length (Chan.buf (chunkCh st)) < Chan.cap (chunkCh st))%nat ->
  sendChunk pick chunk st
  = with_chunkCh st
      {| Chan.buf := (Chan.buf (chunkCh st) ++ [chunk])%list;
         Chan.cap := Chan.cap (chunkCh st);
         Chan.closed := false |}.
Proof.
  intros Hch Hc Hctx Hlt.
  unfold sendChunk, Chan.select_sends, Chan.send_ready, Chan.send.
  rewrite Hc, Hch, Hctx. cbn [orb andb negb].
  apply Nat.ltb_lt in Hlt. now rewrite Hlt.
Qed.

Lemma sendChunk_inv (pick : bool) (chunk : StreamChunk) (st : state) :
  Inv st -> Inv (sendChunk pick chunk st).
Proof.
  intros I.
  destruct (sendChunk_cases pick chunk st (inv_flag st I))
    as [E | (Hc & Hlt & _ & E)]; rewrite E; [exact I |].
  destruct I. constructor; cbn; auto.
  - rewrite length_app. cbn. lia.
  - intros Hs. destruct (inv_drained0 Hs) as [Hcl _]. congruence.
Qed.

Lemma sendChunk_worker (pick : bool) (chunk : StreamChunk) (st : state) :
  worker (sendChunk pick chunk st) = worker st.
Proof.
  unfold sendChunk.
  repeat match goal with
  | |- context [if ?b then _ else _] => destruct b
  | |- context [match ?x with inl _ => _ | inr _ => _ end] => destruct x
  end; reflexivity.
Qed.

Section Workers.
Context `{UnicodeTables} `{Strings}.

Ltac inv_fields I :=
  destruct I as [Irun Iflag Icap Iroom Iexit Icloses Ifin Iflush Istart Idrain].

Lemma with_worker_inv (st : state) (p : pc) :
  Inv st -> exited (worker st) = false -> exited p = false ->
  finished p = finished (worker st) ->
  (flushes_ahead p <= flushes_ahead (worker st))%nat ->
  started p = true ->
  Inv (with_worker st p).
Proof.
  intros I He Hp Hf Hfl Hs. inv_fields I.
  constructor; cbn; auto; try congruence.
  - rewrite Hp. now rewrite He in Icloses.
  - now rewrite Hf.
  - lia.
Qed.

Lemma speak_inv (st : state) (text : string) : Inv st -> Inv (speak st text).
Proof. intros I. inv_fields I. constructor; cbn; auto. Qed.

Lemma worker_step_inv (o : oracle) (st : state) :
  Inv st -> Inv (worker_step o st).
Proof.
  intros I. unfold worker_step.
  destruct (worker st) as
      [ | text | | buf | buf | pending lastS eof | buf | | buf | | | msg next
        | | | ] eqn:Hw; try exact I.
  - (* SSpeak *)
    pose proof (speak_inv st text I) as I'.
    destruct (call_err o); apply with_worker_inv; cbn; auto;
      try (rewrite Hw; cbn; auto; lia).
  - (* SFlush *)
    inv_fields I. rewrite Hw in *. cbn in *.
    destruct (call_err o); constructor; cbn; auto; lia.
  - (* RSelect *)
    destruct (ctx_done st); apply with_worker_inv; auto;
      rewrite Hw; cbn; auto.
  - (* RRead *)
    assert (Ha : forall b e, Inv (with_worker st (after_chunk b e))).
    { intros b e. unfold after_chunk.
      destruct e; apply with_worker_inv; auto; rewrite Hw; cbn; auto. }
    destruct (read_err o); try apply with_worker_inv;
      repeat match goal with
      | |- context [if ?b then _ else _] => destruct b
      end; auto; try apply with_worker_inv; auto; rewrite Hw; cbn; auto.
  - (* RSend *)
    pose proof speak_inv as Hsp.
    destruct pending as [| sentence rest].
    + unfold after_chunk.
      destruct eof; apply with_worker_inv; auto; rewrite Hw; cbn; auto.
    + destruct (nonempty (TrimSpace sentence)); [destruct (call_err o) |];
        apply with_worker_inv; auto; cbn; try rewrite Hw; cbn; auto.
  - (* REof *)
    pose proof speak_inv as Hsp.
    destruct (nonempty (TrimSpace buf)); [destruct (call_err o) |];
      apply with_worker_inv; auto; cbn; try rewrite Hw; cbn; auto.
  - (* REofFlush *)
    inv_fields I. rewrite Hw in *. cbn in *.
    destruct (call_err o); constructor; cbn; auto; lia.
  - (* RCancel *)
    pose proof speak_inv as Hsp.
    destruct ((0 <? String.length buf)%nat && nonempty (TrimSpace buf));
      [destruct (call_err o) |];
      apply with_worker_inv; auto; cbn; try rewrite Hw; cbn; auto.
  - (* RCancelFlush *)
    inv_fields I. rewrite Hw in *. cbn in *.
    destruct (call_err o); constructor; cbn; auto; lia.
  - (* Wait *)
    destruct (ctx_done st); [| exact I].
    apply with_worker_inv; auto; rewrite Hw; cbn; auto.
  - (* Report *)
    pose proof (sendChunk_inv (pick_done o) (errorChunk msg) st I) as I'.
    pose proof (sendChunk_worker (pick_done o) (errorChunk msg) st) as Ew.
    pose proof (inv_started st I) as Hs. rewrite Hw in Hs. cbn in Hs.
    apply with_worker_inv; auto; rewrite ?Ew, ?Hw; cbn; auto;
      destruct next; try discriminate; cbn; auto.
  - (* DeferFinish *)
    inv_fields I. rewrite Hw in *. cbn in *.
    constructor; cbn; auto; lia.
  - (* DeferClose *)
    inv_fields I. rewrite Hw in *. cbn in *.
    unfold guardedClose, Chan.close. rewrite Iexit, Iflag, Iexit.
    constructor; cbn; auto; try lia.
    intros Hs. destruct (Idrain Hs) as [E _]. congruence.
Qed.

Lemma receive_inv (st : state) : Inv st -> Inv (receive st).
Proof.
  intros I. unfold receive, Chan.recv.
  destruct (Chan.buf (chunkCh st)) as [| x rest] eqn:Hb.
  - destruct (Chan.closed (chunkCh st)) eqn:Hc; [| exact I].
    inv_fields I. constructor; cbn; auto.
    intros _. split; congruence.
  - inv_fields I. constructor; cbn; auto.
    + rewrite Hb in Iroom. cbn in Iroom. lia.
    + intros Hs. destruct (Idrain Hs) as [_ E]. congruence.
Qed.

Lemma tts_step_inv (st : state) (ev : event) : Inv st -> Inv (step st ev).
Proof.
  intros I. unfold step. rewrite (inv_running st I).
  destruct ev as [cb pick | o | |].
  - destruct cb as [| | | | | | [d |] | raw | data]; cbn;
      auto using sendChunk_inv.
  - now apply worker_step_inv.
  - inv_fields I. constructor; cbn; auto.
  - now apply receive_inv.
Qed.

Lemma tts_run_inv (evs : list event) (st : state) : Inv st -> Inv (run st evs).
Proof.
  revert st. induction evs as [| ev evs IH]; intros st I; [exact I |].
  apply IH. now apply tts_step_inv.
Qed.

Lemma tts_start_inv (c : call) : Inv (fst (start connected c)).
Proof.
  cbn. constructor; cbn; auto; try lia; try discriminate;
    destruct c; reflexivity.
Qed.

Lemma tts_run_app (st : state) (evs1 evs2 : list event) :
  run st (evs1 ++ evs2) = run (run st evs1) evs2.
Proof. apply fold_left_app. Qed.

(** A streaming call that got its connection never panics. *)
Lemma tts_never_panics (c : call) (evs : list event) :
  crashed (run (fst (start connected c)) evs) = None.
Proof. apply inv_running, tts_run_inv, tts_start_inv. Qed.


(** *** What reaches the channel *)

Lemma sendChunk_produced (pick : bool) (chunk : StreamChunk) (st : state) :
  Chan.closed (chunkCh st) = closed st ->
  produced (sendChunk pick chunk st) = produced st
  \/ produced (sendChunk pick chunk st) = (produced st ++ [chunk])%list.
Proof.
  intros Hflag.
  destruct (sendChunk_cases pick chunk st Hflag) as [E | (_ & _ & _ & E)];
    rewrite E; [now left | right].
  unfold produced. cbn. now rewrite app_assoc.
Qed.

(** One step of the goroutine puts nothing on the channel, or one error
    chunk. *)
Lemma worker_step_produced (o : oracle) (st : state) :
  Inv st ->
  produced (worker_step o st) = produced st
  \/ exists msg,
       produced (worker_step o st) = (produced st ++ [errorChunk msg])%list.
Proof.
  intros I. unfold worker_step.
  destruct (worker st) as
      [ | text | | buf | buf | pending lastS eof | buf | | buf | | | msg next
        | | | ] eqn:Hw;
    try (left; reflexivity);
    try (left;
         repeat match goal with
         | |- context [match ?x with _ => _ end] => destruct x
         end; reflexivity).
  - (* Report *)
    destruct (sendChunk_produced (pick_done o) (errorChunk msg) st
                (inv_flag st I)) as [E | E].
    + left. exact E.
    + right. exists msg. exact E.
  - (* DeferClose *)
    left. unfold guardedClose, Chan.close.
    repeat match goal with
    | |- context [if ?b then _ else _] => destruct b
    end; reflexivity.
Qed.

Lemma receive_produced (st : state) : produced (receive st) = produced st.
Proof.
  unfold receive, Chan.recv, produced.
  destruct (Chan.buf (chunkCh st)) as [| x rest] eqn:Hb.
  - destruct (Chan.closed (chunkCh st)); cbn; now rewrite ?Hb.
  - cbn. now rewrite <- app_assoc.
Qed.

Lemma non_errors_app (l1 l2 : list StreamChunk) :
  non_errors (l1 ++ l2) = (non_errors l1 ++ non_errors l2)%list.
Proof. apply filter_app. Qed.

Lemma finals_app (l1 l2 : list StreamChunk) :
  finals (l1 ++ l2) = (finals l1 + finals l2)%nat.
Proof. unfold finals. now rewrite filter_app, length_app. Qed.

(** Apart from the provider's callbacks, nothing but error chunks is
    put on the channel. *)
Lemma step_quiet (st : state) (ev : event) :
  Inv st -> is_callback ev = false ->
  non_errors (produced (step st ev)) = non_errors (produced st).
Proof.
  intros I Hq. unfold step. rewrite (inv_running st I).
  destruct ev as [cb pick | o | |]; [discriminate | | reflexivity |].
  - destruct (worker_step_produced o st I) as [E | [msg E]]; rewrite E;
      [reflexivity |].
    rewrite non_errors_app. cbn. now rewrite app_nil_r.
  - now rewrite receive_produced.
Qed.

Lemma run_quiet (evs : list event) (st : state) :
  Inv st -> forallb (fun ev => negb (is_callback ev)) evs = true ->
  non_errors (produced (run st evs)) = non_errors (produced st).
Proof.
  revert st. induction evs as [| ev evs IH]; intros st I Hq; [reflexivity |].
  cbn in Hq. apply andb_prop in Hq. destruct Hq as [Hev Hq].
  apply negb_true_iff in Hev. cbn [run fold_left].
  change (fold_left step evs (step st ev)) with (run (step st ev) evs).
  rewrite IH; auto using tts_step_inv, step_quiet.
Qed.

(** A step produces at most one final-marker, and only when it is the
    [Flush] callback. *)
Lemma step_finals (st : state) (ev : event) :
  Inv st ->
  (finals (produced (step st ev))
   <= finals (produced st) + if is_flush_ack ev then 1 else 0)%nat.
Proof.
  intros I. unfold step. rewrite (inv_running st I).
  destruct ev as [cb pick | o | |].
  - destruct cb as [| | | | | | [d |] | raw | data]; cbn [handle is_flush_ack];
      try lia;
      match goal with
      | |- context [sendChunk ?p ?c st] =>
        destruct (sendChunk_produced p c st (inv_flag st I)) as [E | E];
          rewrite E; rewrite ?finals_app; cbn [finals filter IsFinal
            finalChunk errorChunk audioChunk List.length]; lia
      end.
  - cbn [is_flush_ack].
    destruct (worker_step_produced o st I) as [E | [msg E]]; rewrite E;
      rewrite ?finals_app; cbn [finals filter IsFinal
            finalChunk errorChunk audioChunk List.length]; lia.
  - replace (produced (cancel st)) with (produced st) by reflexivity.
    cbn [is_flush_ack]. lia.
  - rewrite receive_produced. cbn [is_flush_ack]. lia.
Qed.

Lemma run_finals (evs : list event) (st : state) :
  Inv st ->
  (finals (produced (run st evs)) <= finals (produced st) + flush_acks evs)%nat.
Proof.
  revert st. induction evs as [| ev evs IH]; intros st I.
  - cbn. unfold flush_acks. cbn. lia.
  - cbn [run fold_left].
    change (fold_left step evs (step st ev)) with (run (step st ev) evs).
    pose proof (IH (step st ev) (tts_step_inv st ev I)) as H1.
    pose proof (step_finals st ev I) as H2.
    unfold flush_acks in *. cbn [filter].
    destruct (is_flush_ack ev); cbn [List.length]; lia.
Qed.

(** *** A burst of callbacks *)



(** *** Progress after cancellation *)

Lemma sendChunk_ctx (pick : bool) (chunk : StreamChunk) (st : state) :
  ctx_done (sendChunk pick chunk st) = ctx_done st.
Proof.
  unfold sendChunk.
  repeat match goal with
  | |- context [if ?b then _ else _] => destruct b
  | |- context [match ?x with inl _ => _ | inr _ => _ end] => destruct x
  end; reflexivity.
Qed.

Lemma step_ctx (st : state) (ev : event) :
  ctx_done st = true -> ctx_done (step st ev) = true.
Proof.
  intros Hc. unfold step. destruct (crashed st); [exact Hc |].
  destruct ev as [cb pick | o | |].
  - destruct cb as [| | | | | | [d |] | raw | data]; cbn;
      rewrite ?sendChunk_ctx; exact Hc.
  - unfold worker_step, guardedClose.
    repeat match goal with
    | |- context [match ?x with _ => _ end] => destruct x eqn:?
    end; cbn; rewrite ?sendChunk_ctx; auto; congruence.
  - reflexivity.
  - unfold receive.
    repeat match goal with
    | |- context [match ?x with _ => _ end] => destruct x
    end; cbn; auto.
Qed.

Lemma step_worker_other (st : state) (ev : event) :
  is_worker ev = false -> worker (step st ev) = worker st.
Proof.
  intros Hw. unfold step. destruct (crashed st); [reflexivity |].
  destruct ev as [cb pick | o | |]; [| discriminate | reflexivity |].
  - destruct cb as [| | | | | | [d |] | raw | data]; cbn;
      rewrite ?sendChunk_worker; reflexivity.
  - unfold receive.
    repeat match goal with
    | |- context [match ?x with _ => _ end] => destruct x
    end; reflexivity.
Qed.

(** With the context cancelled, every step of the goroutine brings it
    closer to its end, and it does not go back to reading. *)
Lemma worker_step_progress (o : oracle) (st : state) :
  Inv st -> ctx_done st = true ->
  reading (worker st) = false -> exited (worker st) = false ->
  reading (worker (worker_step o st)) = false
  /\ (steps_to_exit (worker (worker_step o st))
      < steps_to_exit (worker st))%nat.
Proof.
  intros I Hctx Hr He. pose proof (inv_started st I) as Hs.
  unfold worker_step. rewrite Hctx.
  destruct (worker st) as
      [ | text | | buf | buf | pending lastS eof | buf | | buf | | | msg next
        | | | ] eqn:Hw; try discriminate;
    repeat match goal with
    | |- context [match ?x with _ => _ end] => destruct x
    end; cbn [with_worker worker reading steps_to_exit after_chunk
              List.length];
    rewrite ?sendChunk_worker, ?Hw; cbn; try (split; [reflexivity | lia]);
    try discriminate.
  - destruct eof; cbn; split; auto; lia.
  - cbn in Hs. destruct next; try discriminate; cbn; split; auto; lia.
Qed.

Lemma exit_stable (st : state) (ev : event) :
  worker st = Exit -> worker (step st ev) = Exit.
Proof.
  intros Hw. destruct (is_worker ev) eqn:E.
  - destruct ev; try discriminate. unfold step.
    destruct (crashed st); [exact Hw |].
    unfold worker_step. now rewrite Hw.
  - now rewrite step_worker_other.
Qed.

Lemma tts_reaches_exit (post : list event) (st : state) :
  Inv st -> ctx_done st = true -> reading (worker st) = false ->
  (steps_to_exit (worker st) <= worker_steps post)%nat ->
  worker (run st post) = Exit.
Proof.
  revert st. induction post as [| ev post IH]; intros st I Hctx Hr Hn.
  - cbn in Hn. pose proof (inv_started st I) as Hs. cbn [run fold_left].
    destruct (worker st); cbn in *; try discriminate; try lia; auto.
  - cbn [run fold_left].
    change (fold_left step post (step st ev)) with (run (step st ev) post).
    destruct (exited (worker st)) eqn:He.
    { assert (Hw : worker st = Exit) by (destruct (worker st); now try discriminate).
      apply IH; auto using tts_step_inv, step_ctx.
      - now rewrite (exit_stable st ev Hw).
      - rewrite (exit_stable st ev Hw). cbn. lia. }
    unfold worker_steps in Hn. cbn [filter] in Hn.
    destruct (is_worker ev) eqn:Ew.
    + destruct ev as [| o | |]; try discriminate. cbn [List.length] in Hn.
      assert (Es : step st (Worker o) = worker_step o st).
      { unfold step. now rewrite (inv_running st I). }
      destruct (worker_step_progress o st I Hctx Hr He) as [Hr' Hlt].
      apply IH; auto using tts_step_inv, step_ctx.
      * now rewrite Es.
      * rewrite Es. unfold worker_steps. lia.
    + apply IH; auto using tts_step_inv, step_ctx.
      * now rewrite step_worker_other.
      * rewrite step_worker_other by assumption. exact Hn.
Qed.

(** *** After a failed connection *)

Lemma tts_step_unused (st : state) (ev : event) :
  Unused st -> Unused (step st ev).
Proof.
  intros [Uc Ub Uw Ur]. unfold step.
  destruct (crashed st); [now constructor |].
  assert (Hs : forall pick c, Unused (sendChunk pick c st)).
  { intros pick c. unfold sendChunk, Chan.select_sends, Chan.send_ready,
      Chan.send. rewrite Uc. cbn [orb andb].
    destruct (closed st); [now constructor |].
    destruct (negb (ctx_done st && pick)); now constructor. }
  destruct ev as [cb pick | o | |].
  - destruct cb as [| | | | | | [d |] | raw | data]; cbn; auto;
      now constructor.
  - unfold worker_step. rewrite Uw. now constructor.
  - now constructor.
  - unfold receive, Chan.recv. rewrite Ub, Uc. now constructor.
Qed.

Lemma tts_run_unused (evs : list event) (st : state) :
  Unused st -> Unused (run st evs).
Proof.
  revert st. induction evs as [| ev evs IH]; intros st U; [exact U |].
  apply IH. now apply tts_step_unused.
Qed.

Lemma tts_start_unused (env : connect_env) (c : call) :
  connection_fails env = true -> Unused (fst (start env c)).
Proof.
  unfold connection_fails, start.
  destruct (new_client_err env); [intros _; now constructor |].
  intros ->. now constructor.
Qed.

End Workers.
End TTSFacts.

(** ** The STT bridge *)

Module STTFacts.
Import STT STTInv.
Section Bridge.
Context {MessageResponse : Type}.
Variable conv : MessageResponse -> StreamEvent.

Ltac inv_fields I :=
  destruct I as [Iflag Idone Icap Iroom Icloses Istops Icalled Ipanic].

Lemma send_event_cases (pick : bool) (ev : StreamEvent) (st : state) :
  send_event pick ev st = st
  \/ (Chan.closed (eventCh st) = true
      /\ send_event pick ev st = with_crash st SendOnClosedChannel)
  \/ (Chan.closed (eventCh st) = false
      /\ (List.length (Chan.buf (eventCh st)) < Chan.cap (eventCh st))%nat
      /\ send_event pick ev st
         = with_eventCh st
             {| Chan.buf := (Chan.buf (eventCh st) ++ [ev])%list;
                Chan.cap := Chan.cap (eventCh st);
                Chan.closed := false |}).
Proof.
  unfold send_event, Chan.select_sends, Chan.send_ready, Chan.send.
  destruct (negb (ctx_done st && pick)); [| rewrite andb_false_r; now left].
  rewrite andb_true_r.
  destruct (Chan.closed (eventCh st)) eqn:Hc; cbn [orb]; [right; left; auto |].
  destruct (Nat.ltb_spec (List.length (Chan.buf (eventCh st)))
              (Chan.cap (eventCh st))) as [Hlt | Hge]; [| now left].
  right. right. auto.
Qed.



Lemma send_event_inv (pick : bool) (ev : StreamEvent) (st : state) :
  Inv st -> Inv (send_event pick ev st).
Proof.
  intros I.
  destruct (send_event_cases pick ev st)
    as [E | [[Hc E] | (Hc & Hlt & E)]]; rewrite E; [exact I | |].
  - inv_fields I. constructor; cbn; auto. discriminate.
  - inv_fields I. constructor; cbn; auto; try congruence.
    rewrite length_app. cbn. lia.
Qed.

Lemma Close_inv (st : state) : Inv st -> Inv (Close_ st).
Proof.
  intros I. inv_fields I. unfold Close_, Chan.close. cbn.
  rewrite Idone, Iflag.
  destruct (closed st) eqn:Hc.
  - symmetry in Icalled. apply Nat.ltb_lt in Icalled.
    constructor; cbn; auto; lia.
  - symmetry in Icalled. apply Nat.ltb_ge in Icalled.
    constructor; cbn; auto; try lia; discriminate.
Qed.

Lemma Close_closed (st : state) : closed (Close_ st) = true.
Proof.
  unfold Close_. cbn.
  destruct (closed st) eqn:Hc; [reflexivity |].
  destruct (Chan.close (done st)); [destruct (Chan.close (eventCh st)) |];
    reflexivity.
Qed.

Lemma stt_step_inv (st : state) (ev : @event MessageResponse) : Inv st -> Inv (step conv st ev).
Proof.
  intros I. unfold STT.step.
  destruct (crashed st) eqn:Hcr; [exact I |].
  destruct ev as [p | res | | | pick | cb pick |].
  - inv_fields I. unfold write_begin.
    destruct (closed st); constructor; cbn; auto.
  - inv_fields I. unfold write_forward.
    destruct (in_flight st); constructor; cbn; auto.
  - now apply Close_inv.
  - inv_fields I. constructor; cbn; auto.
  - unfold watcher_step.
    destruct (watcher st); try exact I.
    + destruct (ctx_done st && negb (Chan.closed (done st) && pick));
        [| destruct (Chan.closed (done st))]; try exact I;
        inv_fields I; constructor; cbn; auto.
    + pose proof (Close_inv st I) as I'.
      destruct I' as [Iflag Idone Icap Iroom Icloses Istops Icalled Ipanic].
      constructor; cbn; auto.
  - destruct cb as [| [mr |] | | | | | [d |] | raw]; cbn;
      auto using send_event_inv.
  - unfold receive, Chan.recv.
    destruct (Chan.buf (eventCh st)) as [| x rest] eqn:Hb.
    + destruct (Chan.closed (eventCh st)) eqn:Hcl; [| exact I].
      inv_fields I. constructor; cbn; auto.
    + inv_fields I. rewrite Hb in Iroom. cbn in Iroom.
      constructor; cbn; auto. lia.
Qed.

Lemma stt_run_inv (evs : list (@event MessageResponse)) (st : state) : Inv st -> Inv (run conv st evs).
Proof.
  revert st. induction evs as [| ev evs IH]; intros st I; [exact I |].
  apply IH. now apply stt_step_inv.
Qed.

Lemma stt_start_inv : Inv (fst (TranscribeStream connected)).
Proof. cbn. constructor; cbn; auto; try lia; discriminate. Qed.

(** Once set, [closed] stays set. *)
Lemma step_closed (st : state) (ev : @event MessageResponse) :
  closed st = true -> closed (step conv st ev) = true.
Proof.
  intros Hc. unfold STT.step.
  destruct (crashed st); [exact Hc |].
  destruct ev as [p | res | | | pick | cb pick |]; cbn.
  - unfold write_begin. now rewrite Hc.
  - unfold write_forward. now destruct (in_flight st).
  - apply Close_closed.
  - exact Hc.
  - unfold watcher_step.
    destruct (watcher st); auto.
    + destruct (ctx_done st && negb (Chan.closed (done st) && pick));
        [| destruct (Chan.closed (done st))]; auto.
    + cbn. apply Close_closed.
  - destruct cb as [| [mr |] | | | | | [d |] | raw]; cbn; auto;
      unfold send_event;
      repeat match goal with
      | |- context [if ?b then _ else _] => destruct b
      | |- context [match ?x with inl _ => _ | inr _ => _ end] => destruct x
      end; auto.
  - unfold receive, Chan.recv.
    destruct (Chan.buf (eventCh st));
      [destruct (Chan.closed (eventCh st)) |]; auto.
Qed.

Lemma run_closed (evs : list (@event MessageResponse)) (st : state) :
  closed st = true -> closed (run conv st evs) = true.
Proof.
  revert st. induction evs as [| ev evs IH]; intros st Hc; [exact Hc |].
  apply IH. now apply step_closed.
Qed.

Lemma stt_run_app (st : state) (evs1 evs2 : list (@event MessageResponse)) :
  run conv st (evs1 ++ evs2) = run conv (run conv st evs1) evs2.
Proof. apply fold_left_app. Qed.


(** After a failed connection nothing ever reaches the consumer. *)
Lemma stt_step_unused (st : state) (ev : @event MessageResponse) :
  Unused st -> Unused (step conv st ev).
Proof.
  intros [Uc Ub Ur]. unfold STT.step.
  destruct (crashed st); [now constructor |].
  assert (Hs : forall pick e, Unused (send_event pick e st)).
  { intros pick e. unfold send_event, Chan.select_sends, Chan.send_ready,
      Chan.send. rewrite Uc. cbn [orb andb].
    destruct (negb (ctx_done st && pick)); now constructor. }
  assert (HC : Unused (Close_ st)).
  { unfold Close_, Chan.close. cbn. rewrite Uc.
    destruct (closed st); [now constructor |].
    destruct (Chan.closed (done st)); now constructor. }
  destruct ev as [p | res | | | pick | cb pick |].
  - unfold write_begin. destruct (closed st); now constructor.
  - unfold write_forward. destruct (in_flight st); now constructor.
  - exact HC.
  - now constructor.
  - unfold watcher_step.
    destruct (watcher st); try now constructor.
    + destruct (ctx_done st && negb (Chan.closed (done st) && pick));
        [| destruct (Chan.closed (done st))]; now constructor.
    + destruct HC as [C1 C2 C3]. now constructor.
  - destruct cb as [| [mr |] | | | | | [d |] | raw]; cbn; auto;
      now constructor.
  - unfold receive, Chan.recv. rewrite Ub, Uc. now constructor.
Qed.

Lemma stt_run_unused (evs : list (@event MessageResponse)) (st : state) :
  Unused st -> Unused (run conv st evs).
Proof.
  revert st. induction evs as [| ev evs IH]; intros st U; [exact U |].
  apply IH. now apply stt_step_unused.
Qed.

Lemma stt_start_unused (env : connect_env) :
  connection_fails env = true -> Unused (fst (TranscribeStream env)).
Proof.
  unfold connection_fails, TranscribeStream.
  destruct (new_client_err env); [intros _; now constructor |].
  intros ->. now constructor.
Qed.

End Bridge.
End STTFacts.

(** ** Package omnivoice *)

Module OmnivoiceFacts.
Import Omnivoice.

(** Decide every comparison of [s] with a literal in the goal. *)
Ltac switch_on s :=
  unfold eqs;
  repeat match goal with
  | |- context [String.eqb s ?c] =>
    destruct (String.eqb_spec s c) as [? | ?];
      [subst s; vm_compute; auto 20 | cbn [orb andb negb]]
  end.

Ltac no_match :=
  unfold eqs;
  repeat match goal with
  | H : ?s <> ?c |- context [String.eqb ?s ?c] =>
    rewrite (proj2 (String.eqb_neq s c) H)
  end; cbn [orb andb negb].

Lemma mapTTSEncoding_cases (format : string) :
  In (mapTTSEncoding format) ttsEncodings
  \/ (mapTTSEncoding format = format /\ format <> ""
      /\ ~ In format ["pcm"; "pcm_s16le"; "wav"; "ulaw"; "g711u";
                      "pcm_mulaw"; "g711a"; "pcm_alaw"]).
Proof.
  unfold mapTTSEncoding, ttsEncodings. switch_on format.
  right. repeat split; auto. cbn. intuition congruence.
Qed.

Lemma mapTTSEncoding_fixes_names (name : string) :
  In name ttsEncodings -> mapTTSEncoding name = name.
Proof.
  unfold ttsEncodings. cbn.
  intuition (subst; reflexivity).
Qed.

Lemma mapTTSEncoding_idem (format : string) :
  mapTTSEncoding (mapTTSEncoding format) = mapTTSEncoding format.
Proof.
  destruct (mapTTSEncoding_cases format) as [Hin | (E & _)].
  - now apply mapTTSEncoding_fixes_names.
  - now rewrite !E.
Qed.

Lemma mapTTSEncoding_nonempty (format : string) :
  mapTTSEncoding format <> "".
Proof.
  destruct (mapTTSEncoding_cases format) as [Hin | (E & Hne & _)].
  - intros E. rewrite E in Hin. cbn in Hin. intuition discriminate.
  - now rewrite E.
Qed.

Lemma mapEncoding_cases (encoding : string) :
  In (mapEncoding encoding) sttEncodings
  \/ (mapEncoding encoding = encoding /\ encoding <> "").
Proof.
  unfold mapEncoding, sttEncodings. switch_on encoding.
  right. split; auto.
Qed.

Lemma mapEncoding_fixes_names (name : string) :
  In name sttEncodings -> mapEncoding name = name.
Proof.
  unfold sttEncodings. cbn.
  intuition (subst; reflexivity).
Qed.

Lemma mapEncoding_idem (encoding : string) :
  mapEncoding (mapEncoding encoding) = mapEncoding encoding.
Proof.
  destruct (mapEncoding_cases encoding) as [Hin | (E & _)].
  - now apply mapEncoding_fixes_names.
  - now rewrite !E.
Qed.

Lemma mapEncoding_nonempty (encoding : string) :
  mapEncoding encoding <> "".
Proof.
  destruct (mapEncoding_cases encoding) as [Hin | (E & Hne)].
  - intros E. rewrite E in Hin. cbn in Hin. intuition discriminate.
  - now rewrite E.
Qed.

Lemma encodings_agree (name : string) :
  name <> "wav" -> mapEncoding name = mapTTSEncoding name.
Proof.
  intros Hw. unfold mapEncoding, mapTTSEncoding. switch_on name.
  all: congruence.
Qed.

Lemma pick_model_nonempty (config : SynthesisConfig.t) :
  pick_model config <> "".
Proof.
  unfold pick_model, eqs.
  destruct (String.eqb_spec (SynthesisConfig.Model config) "") as [E | N];
    cbn [andb].
  - destruct (String.eqb_spec (SynthesisConfig.VoiceID config) "")
      as [E' | N']; cbn [negb].
    + rewrite E. cbn. discriminate.
    + rewrite (proj2 (String.eqb_neq _ _) N'). exact N'.
  - rewrite (proj2 (String.eqb_neq _ _) N). exact N.
Qed.

Lemma pick_model_cases (config : SynthesisConfig.t) :
  (SynthesisConfig.Model config <> "" ->
   pick_model config = SynthesisConfig.Model config)
  /\ (SynthesisConfig.Model config = "" ->
      SynthesisConfig.VoiceID config <> "" ->
      pick_model config = SynthesisConfig.VoiceID config)
  /\ (SynthesisConfig.Model config = "" ->
      SynthesisConfig.VoiceID config = "" ->
      pick_model config = DefaultTTSModel).
Proof.
  unfold pick_model, eqs. repeat split.
  - intros N. rewrite (proj2 (String.eqb_neq _ _) N). cbn.
    now rewrite (proj2 (String.eqb_neq _ _) N).
  - intros E N. rewrite E, (proj2 (String.eqb_neq _ _) N). cbn.
    now rewrite (proj2 (String.eqb_neq _ _) N).
  - intros E E'. rewrite E, E'. reflexivity.
Qed.

(** *** [itoa] *)

Lemma digit_byte_of (d : Z) : 0 <= d <= 9 -> digit (byte_of (48 + d)) = d.
Proof.
  intros Hd. unfold digit, byte_of, byteZ.
  change 255 with (Z.ones 8). rewrite Z.land_ones by lia.
  rewrite Z.mod_small by (change (2 ^ 8) with 256; lia).
  rewrite N_ascii_embedding by lia. lia.
Qed.

Lemma is_digit_byte_of (d : Z) :
  0 <= d <= 9 -> is_digit (byte_of (48 + d)) = true.
Proof.
  intros Hd. pose proof (digit_byte_of d Hd) as E.
  unfold is_digit. unfold digit in E. lia.
Qed.

Lemma digits_value_acc (s : string) (acc : Z) :
  digits_value acc s
  = acc * 10 ^ Z.of_nat (String.length s) + digits_value 0 s.
Proof.
  revert acc. induction s as [| c s IH]; intros acc.
  - cbn. lia.
  - cbn [digits_value String.length]. rewrite IH, (IH (0 * 10 + digit c)).
    rewrite Nat2Z.inj_succ, Z.pow_succ_r by lia. lia.
Qed.

Lemma store_length (n : nat) (c : ascii) (b : list ascii) :
  List.length (store n c b) = List.length b.
Proof.
  revert n. induction b as [| x b IH]; intros [| n]; cbn; auto.
Qed.

Lemma skipn_store (n : nat) (c : ascii) (b : list ascii) :
  (n < List.length b)%nat ->
  skipn n (store n c b) = c :: skipn (S n) b.
Proof.
  revert n. induction b as [| x b IH]; intros [| n] Hn; cbn in *;
    try lia; auto.
  apply IH. lia.
Qed.

Lemma length_string_of_list (l : list ascii) :
  String.length (string_of_list_ascii l) = List.length l.
Proof. induction l as [| c l IH]; cbn; auto. Qed.

(** The loop never leaves the array while the number has at most [n]
    digits, and what it leaves from the final index on reads as the
    number followed by what was there. *)
Lemma itoa_loop_spec (n : nat) (i : Z) (b : list ascii) :
  0 <= i < 10 ^ Z.of_nat n -> List.length b = 20%nat -> (n <= 20)%nat ->
  exists n' b',
    itoa_loop n i b = Some (n', b')
    /\ (n' <= n)%nat /\ List.length b' = 20%nat
    /\ (0 < i -> (n' < n)%nat
                /\ exists c rest, skipn n' b' = c :: rest
                                  /\ is_digit c = true)
    /\ tail_value n' b'
       = i * 10 ^ Z.of_nat (20 - n) + tail_value n b.
Proof.
  revert i b. induction n as [| n IH]; intros i b Hi Hb Hn.
  - cbn in Hi. assert (i = 0) by lia. subst i. cbn.
    exists 0%nat, b. repeat split; auto; lia.
  - cbn [itoa_loop]. destruct (Z.ltb_spec 0 i) as [Hpos | Hz].
    + assert (Hd : 0 <= Z.rem i 10 <= 9).
      { pose proof (Z.rem_bound_pos i 10). lia. }
      assert (Hq : 0 <= Z.quot i 10 < 10 ^ Z.of_nat n).
      { rewrite Nat2Z.inj_succ, Z.pow_succ_r in Hi by lia.
        split; [apply Z.quot_pos; lia |].
        apply Z.quot_lt_upper_bound; lia. }
      set (b1 := store n (byte_of (48 + Z.rem i 10)) b).
      assert (Hb1 : List.length b1 = 20%nat)
        by (unfold b1; now rewrite store_length).
      destruct (IH (Z.quot i 10) b1 Hq Hb1 ltac:(lia))
        as (n' & b' & E & Hle & Hlen & Hhead & Hval).
      exists n', b'. rewrite E. repeat split; auto; try lia.
      * destruct (Z.ltb_spec 0 (Z.quot i 10)) as [Hq' | Hq'].
        -- destruct (Hhead Hq') as (_ & c & rest & Es & Hc).
           exists c, rest. auto.
        -- assert (Hq0 : Z.quot i 10 = 0) by lia.
           assert (E0 : itoa_loop n 0 b1 = Some (n, b1))
             by (destruct n; reflexivity).
           rewrite Hq0, E0 in E. inversion E; subst n' b'.
           exists (byte_of (48 + Z.rem i 10)), (skipn (S n) b).
           split; [apply skipn_store; lia |].
           now apply is_digit_byte_of.
      * rewrite Hval. unfold tail_value, b1.
        rewrite skipn_store by lia. cbn [string_of_list_ascii digits_value].
        rewrite digits_value_acc, length_string_of_list, length_skipn, Hb.
        rewrite digit_byte_of by assumption.
        replace (Z.of_nat (20 - n)) with (Z.succ (Z.of_nat (20 - S n)))
          by lia.
        rewrite Z.pow_succ_r by lia.
        pose proof (Z.quot_rem' i 10). lia.
    + exists (S n), b. repeat split; auto; lia.
Qed.

Lemma wrap_small (z : Z) : minInt <= z <= maxInt -> wrap z = z.
Proof.
  unfold wrap, minInt, maxInt. intros Hz.
  rewrite Z.mod_small; lia.
Qed.

Lemma wrap_neg_minInt : wrap (- minInt) = minInt.
Proof. reflexivity. Qed.

Lemma itoa_step (fuel : nat) (i : Z) :
  itoa (S fuel) i
  = if i =? 0 then Some "0"
    else if i <? 0 then
      match itoa fuel (wrap (- i)) with
      | Some s => Some ("-" ++ s)
      | None => None
      end
    else
      match itoa_loop 20 i (repeat zero 20) with
      | Some (n, b) => Some (string_of_list_ascii (skipn n b))
      | None => None
      end.
Proof. reflexivity. Qed.

Lemma itoa_positive (fuel : nat) (i : Z) :
  0 < i <= maxInt ->
  exists c s, itoa (S fuel) i = Some (String c s)
              /\ is_digit c = true
              /\ digits_value 0 (String c s) = i.
Proof.
  intros Hi. rewrite itoa_step.
  destruct (Z.eqb_spec i 0); [lia |].
  destruct (Z.ltb_spec i 0); [lia |].
  destruct (itoa_loop_spec 20 i (repeat zero 20))
    as (n' & b' & E & _ & _ & Hhead & Hval).
  - unfold maxInt in Hi. cbn. lia.
  - apply repeat_length.
  - lia.
  - rewrite E. destruct (Hhead ltac:(lia)) as (_ & c & rest & Es & Hc).
    exists c, (string_of_list_ascii rest). rewrite Es. cbn.
    repeat split; auto.
    unfold tail_value in Hval. rewrite Es in Hval. cbn in Hval.
    rewrite Hval. cbn. lia.
Qed.

Lemma atoi_digits (c : ascii) (s : string) :
  is_digit c = true -> atoi (String c s) = digits_value 0 (String c s).
Proof.
  intros Hc. unfold atoi.
  destruct c as [[] [] [] [] [] [] [] []]; try reflexivity.
  vm_compute in Hc. discriminate.
Qed.

(** [itoa] writes every [int] but the smallest as its decimal numeral. *)
Lemma itoa_atoi (fuel : nat) (i : Z) :
  minInt < i <= maxInt ->
  exists s, itoa (S (S fuel)) i = Some s /\ atoi s = i.
Proof.
  intros Hi.
  destruct (Z.lt_trichotomy i 0) as [Hneg | [-> | Hpos]].
  - rewrite itoa_step. destruct (Z.eqb_spec i 0); [lia |].
    destruct (Z.ltb_spec i 0); [| lia].
    rewrite wrap_small by (unfold minInt, maxInt in *; lia).
    destruct (itoa_positive fuel (- i)) as (c & s & E & Hc & Hv).
    { unfold minInt, maxInt in *. lia. }
    rewrite E. exists ("-" ++ String c s). split; [reflexivity |].
    cbn [append atoi]. change (digits_value 0 (String c s) = - i) in Hv.
    cbn. cbn in Hv. lia.
  - exists "0". split; reflexivity.
  - destruct (itoa_positive (S fuel) i) as (c & s & E & Hc & Hv); [lia |].
    exists (String c s). split; [exact E |].
    now rewrite atoi_digits.
Qed.

(** On the smallest [int] the recursion never ends. *)
Lemma itoa_minInt (fuel : nat) : itoa fuel minInt = None.
Proof.
  induction fuel as [| fuel IH]; [reflexivity |].
  rewrite itoa_step. change (minInt =? 0) with false.
  change (minInt <? 0) with true. cbn iota.
  now rewrite wrap_neg_minInt, IH.
Qed.

(** *** Voices *)

Lemma lookup_found (voiceID : string) (voices : list Voice.t)
      (v : TTSVoice.t) :
  TTSProvider.lookup voiceID voices = inl v ->
  TTSVoice.ID v = voiceID /\ In v (map VoiceToOmniVoice voices).
Proof.
  induction voices as [| x voices IH]; cbn; [discriminate |].
  destruct (String.eqb_spec (Voice.ID x) voiceID) as [E | N].
  - intros Hv. inversion Hv; subst. cbn. auto.
  - intros Hv. destruct (IH Hv). auto.
Qed.

Lemma lookup_missing (voiceID : string) (voices : list Voice.t) :
  (exists e, TTSProvider.lookup voiceID voices = inr e)
  <-> ~ In voiceID (map Voice.ID voices).
Proof.
  induction voices as [| x voices IH]; cbn.
  - split; [tauto | intros _; now exists TTSProvider.ErrVoiceNotFound].
  - destruct (String.eqb_spec (Voice.ID x) voiceID) as [E | N].
    + split; [intros [e He]; discriminate | tauto].
    + rewrite IH. tauto.
Qed.

(** *** [InitSDK] *)

Lemma InitSDK_once (p : process) :
  sdkInitOnce (InitSDK p) = true
  /\ client_inits (InitSDK p)
     = (if sdkInitOnce p then client_inits p else S (client_inits p)).
Proof. unfold InitSDK. destruct (sdkInitOnce p) eqn:E; cbn; auto. Qed.

Lemma construct_inits (cs : list TTSProvider.construction) (p : process) :
  client_inits p = (if sdkInitOnce p then 1 else 0)%nat ->
  let q := fold_left TTSProvider.construct cs p in
  client_inits q = (if sdkInitOnce q then 1 else 0)%nat
  /\ sdkInitOnce q = sdkInitOnce p || existsb TTSProvider.succeeds cs.
Proof.
  revert p. induction cs as [| c cs IH]; intros p Hp; cbn [fold_left existsb].
  - cbn. rewrite orb_false_r. auto.
  - assert (Hc : TTSProvider.construct p c
                 = if TTSProvider.succeeds c then InitSDK p else p).
    { destruct c as [opts | opts]; cbn;
        unfold STTProvider.New, TTSProvider.New;
        destruct (String.eqb (apply_options opts) ""); reflexivity. }
    destruct (IH (TTSProvider.construct p c)) as [H1 H2].
    + rewrite Hc. destruct (TTSProvider.succeeds c); [| exact Hp].
      unfold InitSDK. destruct (sdkInitOnce p) eqn:E; cbn;
        rewrite ?E in *; cbn in *; congruence.
    + cbn zeta. split; [exact H1 |]. rewrite H2, Hc.
      destruct (TTSProvider.succeeds c); cbn.
      * unfold InitSDK. destruct (sdkInitOnce p) eqn:E; cbn;
          now rewrite ?E, ?orb_true_r.
      * reflexivity.
Qed.

Lemma apply_options_last (opts : list ProviderOption) :
  apply_options opts
  = match rev opts with
    | WithAPIKey k :: _ => k
    | [] => ""
    end.
Proof.
  unfold apply_options. rewrite <- fold_left_rev_right.
  destruct (rev opts) as [| [k] r]; reflexivity.
Qed.

End OmnivoiceFacts.

Module MessageFacts.
Import Omnivoice OmnivoiceFacts.
Section Messages.
Context {float64 : Type}.
Variable seconds : float64 -> Z.



End Messages.
End MessageFacts.

(** ** Delivery: what reaches the consumer, the provider and the session *)

Module SubseqFacts.

Lemma subseq_nil_l {A : Type} (l : list A) : subseq [] l.
Proof. induction l; now constructor. Qed.

Lemma subseq_refl {A : Type} (l : list A) : subseq l l.
Proof. induction l; now constructor. Qed.

Lemma subseq_app {A : Type} (a b c d : list A) :
  subseq a b -> subseq c d -> subseq (a ++ c) (b ++ d).
Proof.
  intros Hab Hcd. induction Hab; cbn; [exact Hcd | |]; now constructor.
Qed.

Lemma subseq_app_l {A : Type} (a b l : list A) :
  subseq (a ++ b) l -> subseq a l.
Proof.
  intros H. remember (a ++ b)%list as ab eqn:E. revert a E.
  induction H as [| x l1 l2 H IH | x l1 l2 H IH]; intros a E.
  - destruct a; [constructor | discriminate].
  - apply subseq_skip. now apply IH.
  - destruct a as [| y a]; [apply subseq_nil_l |].
    cbn in E. inversion E; subst. apply subseq_keep. now apply IH.
Qed.

Lemma subseq_length {A : Type} (a b : list A) :
  subseq a b -> (List.length a <= List.length b)%nat.
Proof. induction 1; cbn; lia. Qed.

Lemma subseq_In {A : Type} (a b : list A) (x : A) :
  subseq a b -> In x a -> In x b.
Proof.
  induction 1; cbn; auto.
  intros [-> | Hin]; auto.
Qed.

End SubseqFacts.

Module TTSDelivery.
Import TTS TTSInv TTSFacts Offers SubseqFacts.
Section Workers.
Context `{UnicodeTables} `{Strings}.

Lemma tts_offered_app (evs1 evs2 : list event) :
  tts_offered (evs1 ++ evs2) = (tts_offered evs1 ++ tts_offered evs2)%list.
Proof. apply flat_map_app. Qed.

(** A method of the handler is one [sendChunk] of its chunk, or
    nothing. *)
Lemma handle_chunk (cb : callback) (pick : bool) (st : state) :
  handle cb pick st
  = fold_left (fun s c => sendChunk pick c s) (tts_chunk cb) st.
Proof. destruct cb as [| | | | | | [d |] | raw | data]; reflexivity. Qed.

(** One step adds to the channel nothing, an error chunk of the
    goroutine, or the chunk of the callback. *)
Lemma tts_step_offered (st : state) (ev : event) :
  Inv st ->
  exists d,
    produced (step st ev) = (produced st ++ d)%list
    /\ subseq (non_errors d) (non_errors (tts_offered [ev])).
Proof.
  intros I. unfold step. rewrite (inv_running st I).
  destruct ev as [cb pick | o | |].
  - rewrite handle_chunk. unfold tts_offered. cbn [flat_map].
    rewrite app_nil_r.
    destruct (tts_chunk cb) as [| c [| c' l]] eqn:Ec.
    + exists []. cbn. rewrite app_nil_r. split; [reflexivity | constructor].
    + cbn [fold_left].
      destruct (sendChunk_produced pick c st (inv_flag st I)) as [E | E].
      * exists []. rewrite E, app_nil_r. split; [reflexivity |].
        apply subseq_nil_l.
      * exists [c]. split; [exact E | apply subseq_refl].
    + destruct cb as [| | | | | | [d |] | raw | data]; discriminate.
  - destruct (worker_step_produced o st I) as [E | [msg E]].
    + exists []. rewrite E, app_nil_r. split; [reflexivity | constructor].
    + exists [errorChunk msg]. split; [exact E | constructor].
  - exists []. cbn. rewrite app_nil_r. split; [reflexivity | constructor].
  - exists []. rewrite receive_produced, app_nil_r.
    split; [reflexivity | constructor].
Qed.

Lemma tts_run_offered (evs : list event) (st : state) :
  Inv st ->
  exists d,
    produced (run st evs) = (produced st ++ d)%list
    /\ subseq (non_errors d) (non_errors (tts_offered evs)).
Proof.
  revert st. induction evs as [| ev evs IH]; intros st I.
  - exists []. cbn. rewrite app_nil_r. split; [reflexivity | constructor].
  - cbn [run fold_left].
    change (fold_left step evs (step st ev)) with (run (step st ev) evs).
    destruct (tts_step_offered st ev I) as (d1 & E1 & S1).
    destruct (IH (step st ev) (tts_step_inv st ev I)) as (d2 & E2 & S2).
    exists (d1 ++ d2)%list. rewrite E2, E1, <- app_assoc.
    split; [reflexivity |].
    change (ev :: evs) with ([ev] ++ evs)%list.
    rewrite tts_offered_app, !non_errors_app. now apply subseq_app.
Qed.

(** *** What the goroutines pass to the provider *)

Lemma sendChunk_calls (pick : bool) (chunk : StreamChunk) (st : state) :
  spoken (sendChunk pick chunk st) = spoken st
  /\ flushes (sendChunk pick chunk st) = flushes st
  /\ finishes (sendChunk pick chunk st) = finishes st
  /\ closes (sendChunk pick chunk st) = closes st
  /\ saw_close (sendChunk pick chunk st) = saw_close st.
Proof.
  unfold sendChunk.
  repeat match goal with
  | |- context [if ?b then _ else _] => destruct b
  | |- context [match ?x with inl _ => _ | inr _ => _ end] => destruct x
  end; repeat split.
Qed.

Lemma handle_calls (cb : callback) (pick : bool) (st : state) :
  spoken (handle cb pick st) = spoken st
  /\ flushes (handle cb pick st) = flushes st
  /\ worker (handle cb pick st) = worker st
  /\ saw_close (handle cb pick st) = saw_close st.
Proof.
  destruct cb as [| | | | | | [d |] | raw | data]; cbn [handle];
    repeat split; try apply sendChunk_calls; apply sendChunk_worker.
Qed.

Lemma receive_calls (st : state) :
  spoken (receive st) = spoken st
  /\ flushes (receive st) = flushes st
  /\ worker (receive st) = worker st
  /\ finishes (receive st) = finishes st.
Proof.
  unfold receive.
  repeat match goal with
  | |- context [match ?x with _ => _ end] => destruct x
  end; repeat split.
Qed.

Lemma nonempty_trimmed (t : string) :
  nonempty (TrimSpace t) = true -> trimmed (TrimSpace t).
Proof.
  unfold nonempty. intros Hn. split; [| now exists t].
  intros E. rewrite E in Hn. discriminate.
Qed.

Lemma reader_worker_step (o : oracle) (st : state) :
  Inv st -> reader_pc (worker st) = true -> Forall trimmed (spoken st) ->
  reader_pc (worker (worker_step o st)) = true
  /\ Forall trimmed (spoken (worker_step o st)).
Proof.
  intros I Hr Hs. pose proof (inv_started st I) as Hst.
  assert (Hsp : forall t p, nonempty (TrimSpace t) = true ->
                            Forall trimmed
                              (spoken (with_worker (speak st (TrimSpace t)) p))).
  { intros t p Hn. cbn. apply Forall_app. split; [exact Hs |].
    constructor; [now apply nonempty_trimmed | constructor]. }
  unfold worker_step.
  destruct (worker st) as
      [ | text | | buf | buf | pending lastS eof | buf | | buf | | | msg next
        | | | ] eqn:Hw; try discriminate.
  - destruct (ctx_done st); cbn; auto.
  - unfold after_chunk.
    destruct (read_err o);
      repeat match goal with
      | |- context [if ?b then _ else _] => destruct b
      end; cbn; auto.
  - destruct pending as [| sentence rest].
    + unfold after_chunk. destruct eof; cbn; auto.
    + destruct (nonempty (TrimSpace sentence)) eqn:Hn;
        [destruct (call_err o) |]; (split; [reflexivity |]); auto.
  - destruct (nonempty (TrimSpace buf)) eqn:Hn;
      [destruct (call_err o) |]; (split; [reflexivity |]); auto.
  - destruct (call_err o); cbn; auto.
  - destruct ((0 <? String.length buf)%nat) ; cbn [andb];
      [destruct (nonempty (TrimSpace buf)) eqn:Hn;
       [destruct (call_err o) |] |]; (split; [reflexivity |]); auto.
  - destruct (call_err o); cbn; auto.
  - destruct (ctx_done st); cbn; rewrite ?Hw; auto.
  - cbn. destruct (sendChunk_calls (pick_done o) (errorChunk msg) st)
      as (E & _). rewrite E. split; [| exact Hs].
    cbn in Hst. destruct next; try discriminate; reflexivity.
  - cbn. auto.
  - cbn. split; [reflexivity |].
    unfold guardedClose.
    repeat match goal with
    | |- context [match ?x with _ => _ end] => destruct x
    end; exact Hs.
  - rewrite Hw. auto.
Qed.

Lemma reader_step (st : state) (ev : event) :
  Inv st -> reader_pc (worker st) = true -> Forall trimmed (spoken st) ->
  reader_pc (worker (step st ev)) = true
  /\ Forall trimmed (spoken (step st ev)).
Proof.
  intros I Hr Hs. unfold step. rewrite (inv_running st I).
  destruct ev as [cb pick | o | |].
  - destruct (handle_calls cb pick st) as (E1 & _ & E2 & _).
    now rewrite E1, E2.
  - now apply reader_worker_step.
  - auto.
  - destruct (receive_calls st) as (E1 & _ & E2 & _). now rewrite E1, E2.
Qed.

Lemma reader_run (evs : list event) (st : state) :
  Inv st -> reader_pc (worker st) = true -> Forall trimmed (spoken st) ->
  reader_pc (worker (run st evs)) = true
  /\ Forall trimmed (spoken (run st evs)).
Proof.
  revert st. induction evs as [| ev evs IH]; intros st I Hr Hs;
    [now split |].
  cbn [run fold_left].
  destruct (reader_step st ev I Hr Hs) as [Hr' Hs'].
  apply IH; auto using tts_step_inv.
Qed.

Lemma stream_step (text : string) (n : nat) (st : state) (ev : event) :
  Inv st -> stream_state text n st ->
  stream_state text (n + if is_worker ev then 1 else 0) (step st ev).
Proof.
  intros I Hs. unfold step. rewrite (inv_running st I).
  assert (Hsame : forall st', worker st' = worker st ->
                              spoken st' = spoken st ->
                              stream_state text (n + 0) st').
  { intros st' Ew Es. rewrite Nat.add_0_r. unfold stream_state.
    now rewrite Ew, Es. }
  destruct ev as [cb pick | o | |]; cbn [is_worker].
  - destruct (handle_calls cb pick st) as (E1 & _ & E2 & _). auto.
  - right. split; [lia |]. unfold worker_step.
    destruct Hs as [(_ & Hw & Hsp) | (_ & Hw & Hsp)].
    + rewrite Hw. destruct (call_err o); cbn; rewrite Hsp; auto.
    + destruct (worker st) as
          [ | t | | buf | buf | pending lastS eof | buf | | buf | | | msg next
            | | | ] eqn:Ew; try discriminate.
      * destruct (call_err o); cbn; auto.
      * destruct (ctx_done st); cbn; rewrite ?Ew; auto.
      * destruct next; try discriminate. cbn.
        destruct (sendChunk_calls (pick_done o) (errorChunk msg) st)
          as (E & _). rewrite E. auto.
      * cbn. auto.
      * cbn. split; [reflexivity |]. rewrite <- Hsp. unfold guardedClose.
        repeat match goal with
        | |- context [match ?x with _ => _ end] => destruct x
        end; reflexivity.
      * rewrite Ew. auto.
  - auto.
  - destruct (receive_calls st) as (E1 & _ & E2 & _). auto.
Qed.

Lemma stream_run (text : string) (evs : list event) (n : nat) (st : state) :
  Inv st -> stream_state text n st ->
  stream_state text (n + worker_steps evs) (run st evs).
Proof.
  revert n st. induction evs as [| ev evs IH]; intros n st I Hs.
  - cbn. now rewrite Nat.add_0_r.
  - cbn [run fold_left].
    change (fold_left step evs (step st ev)) with (run (step st ev) evs).
    pose proof (IH _ _ (tts_step_inv st ev I) (stream_step text n st ev I Hs))
      as Hr.
    unfold worker_steps in *. cbn [filter].
    destruct (is_worker ev); cbn [List.length];
      rewrite ?Nat.add_0_r in Hr; [| exact Hr].
    now replace (n + S (List.length (filter is_worker evs)))%nat
      with (n + 1 + List.length (filter is_worker evs))%nat by lia.
Qed.

(** *** A run without failing calls *)

Lemma worker_step_silent (o : oracle) (st : state) :
  unreported (worker st) = true ->
  produced (worker_step o st) = produced st.
Proof.
  intros Hu. unfold worker_step, guardedClose, Chan.close.
  destruct (worker st); try discriminate;
    try (destruct (closed st), (Chan.closed (chunkCh st)); reflexivity);
    repeat match goal with
    | |- context [match ?x with _ => _ end] => destruct x
    end; reflexivity.
Qed.

Lemma error_free_step (st : state) (ev : event) :
  Inv st -> calls_succeed ev = true ->
  unreported (worker st) = true ->
  (flushes st + flushes_ahead (worker st) = 1)%nat ->
  unreported (worker (step st ev)) = true
  /\ (flushes (step st ev) + flushes_ahead (worker (step st ev)) = 1)%nat
  /\ exists d, produced (step st ev) = (produced st ++ d)%list
               /\ subseq d (tts_offered [ev]).
Proof.
  intros I Hok Hu Hf. unfold step. rewrite (inv_running st I).
  destruct ev as [cb pick | o | |].
  - destruct (handle_calls cb pick st) as (_ & E1 & E2 & _).
    rewrite E1, E2. split; [exact Hu | split; [exact Hf |]].
    rewrite handle_chunk. unfold tts_offered. cbn [flat_map].
    rewrite app_nil_r.
    destruct (tts_chunk cb) as [| c [| c' l]] eqn:Ec.
    + exists []. cbn. rewrite app_nil_r. split; [reflexivity | constructor].
    + cbn [fold_left].
      destruct (sendChunk_produced pick c st (inv_flag st I)) as [E | E].
      * exists []. rewrite E, app_nil_r. split; [reflexivity |].
        apply subseq_nil_l.
      * exists [c]. split; [exact E | apply subseq_refl].
    + destruct cb as [| | | | | | [d |] | raw | data]; discriminate.
  - cbn in Hok.
    destruct (call_err o) eqn:Ec; [discriminate |].
    assert (Hr : read_err o = ReadNil \/ read_err o = ReadEOF)
      by (destruct (read_err o); auto; discriminate).
    split; [| split].
    + unfold worker_step, after_chunk. rewrite Ec.
      destruct (worker st) as
          [ | t | | buf | buf | pending lastS eof | buf | | buf | | | msg next
            | | | ] eqn:Ew; try discriminate; rewrite ?Ew; auto;
        destruct Hr as [Hr | Hr]; rewrite ?Hr;
        repeat match goal with
        | |- context [if ?b then _ else _] => destruct b
        | |- context [match ?x with _ => _ end] => destruct x
        end; cbn; rewrite ?Ew; reflexivity.
    + unfold worker_step, after_chunk, guardedClose, Chan.close. rewrite Ec.
      destruct (worker st) as
          [ | t | | buf | buf | pending lastS eof | buf | | buf | | | msg next
            | | | ] eqn:Ew; try discriminate; rewrite ?Ew;
        cbn [flushes_ahead] in Hf;
        destruct Hr as [Hr | Hr]; rewrite ?Hr;
        repeat match goal with
        | |- context [if ?b then _ else _] => destruct b
        | |- context [match ?x with _ => _ end] => destruct x
        end; cbn; rewrite ?Ew; cbn; lia.
    + exists []. rewrite worker_step_silent by assumption.
      rewrite app_nil_r. split; [reflexivity | constructor].
  - split; [exact Hu | split; [exact Hf |]].
    exists []. cbn. rewrite app_nil_r. split; [reflexivity | constructor].
  - destruct (receive_calls st) as (_ & E1 & E2 & _).
    rewrite E1, E2. split; [exact Hu | split; [exact Hf |]].
    exists []. rewrite receive_produced, app_nil_r.
    split; [reflexivity | constructor].
Qed.

Lemma error_free_run (evs : list event) (st : state) :
  Inv st -> forallb calls_succeed evs = true ->
  unreported (worker st) = true ->
  (flushes st + flushes_ahead (worker st) = 1)%nat ->
  unreported (worker (run st evs)) = true
  /\ (flushes (run st evs) + flushes_ahead (worker (run st evs)) = 1)%nat
  /\ exists d, produced (run st evs) = (produced st ++ d)%list
               /\ subseq d (tts_offered evs).
Proof.
  revert st. induction evs as [| ev evs IH]; intros st I Hok Hu Hf.
  - split; [exact Hu | split; [exact Hf |]].
    exists []. cbn. rewrite app_nil_r. split; [reflexivity | constructor].
  - cbn [run fold_left forallb] in *.
    apply andb_prop in Hok. destruct Hok as [Hev Hok].
    change (fold_left step evs (step st ev)) with (run (step st ev) evs).
    destruct (error_free_step st ev I Hev Hu Hf) as (Hu1 & Hf1 & d1 & E1 & S1).
    destruct (IH _ (tts_step_inv st ev I) Hok Hu1 Hf1)
      as (Hu2 & Hf2 & d2 & E2 & S2).
    split; [exact Hu2 | split; [exact Hf2 |]].
    exists (d1 ++ d2)%list. rewrite E2, E1, <- app_assoc.
    split; [reflexivity |].
    change (ev :: evs) with ([ev] ++ evs)%list.
    rewrite tts_offered_app. now apply subseq_app.
Qed.

(** *** After the deferred function has run *)

Lemma sendChunk_closed (pick : bool) (chunk : StreamChunk) (st : state) :
  closed st = true -> sendChunk pick chunk st = st.
Proof. intros Hc. unfold sendChunk. now rewrite Hc. Qed.

Lemma handle_closed (cb : callback) (pick : bool) (st : state) :
  closed st = true -> handle cb pick st = st.
Proof.
  intros Hc.
  destruct cb as [| | | | | | [d |] | raw | data]; cbn [handle];
    auto using sendChunk_closed.
Qed.

Lemma exit_step (st : state) (ev : event) :
  Inv st -> worker st = Exit ->
  produced (step st ev) = produced st
  /\ spoken (step st ev) = spoken st
  /\ flushes (step st ev) = flushes st
  /\ finishes (step st ev) = finishes st
  /\ closes (step st ev) = closes st.
Proof.
  intros I Hw. unfold step. rewrite (inv_running st I).
  assert (Hc : closed st = true)
    by (rewrite (inv_exit st I), Hw; reflexivity).
  destruct ev as [cb pick | o | |].
  - rewrite handle_closed by assumption. repeat split.
  - unfold worker_step. rewrite Hw. repeat split.
  - repeat split.
  - rewrite receive_produced. unfold receive.
    repeat match goal with
    | |- context [match ?x with _ => _ end] => destruct x
    end; repeat split.
Qed.

Lemma exit_run (post : list event) (st : state) :
  Inv st -> worker st = Exit ->
  produced (run st post) = produced st
  /\ spoken (run st post) = spoken st
  /\ flushes (run st post) = flushes st
  /\ finishes (run st post) = finishes st
  /\ closes (run st post) = closes st.
Proof.
  revert st. induction post as [| ev post IH]; intros st I Hw;
    [repeat split |].
  cbn [run fold_left].
  change (fold_left step post (step st ev)) with (run (step st ev) post).
  destruct (exit_step st ev I Hw) as (E1 & E2 & E3 & E4 & E5).
  destruct (IH _ (tts_step_inv st ev I) (exit_stable st ev Hw))
    as (F1 & F2 & F3 & F4 & F5).
  repeat split; congruence.
Qed.

Lemma saw_close_step (st : state) (ev : event) :
  saw_close st = true -> saw_close (step st ev) = true.
Proof.
  intros Hs. unfold step. destruct (crashed st); [exact Hs |].
  destruct ev as [cb pick | o | |].
  - destruct (handle_calls cb pick st) as (_ & _ & _ & E). now rewrite E.
  - unfold worker_step, guardedClose.
    repeat match goal with
    | |- context [match ?x with _ => _ end] => destruct x
    end; cbn; auto;
      destruct (sendChunk_calls (pick_done o) (errorChunk msg) st)
        as (_ & _ & _ & _ & E); now rewrite E.
  - exact Hs.
  - unfold receive.
    repeat match goal with
    | |- context [match ?x with _ => _ end] => destruct x
    end; auto.
Qed.

Lemma saw_close_run (post : list event) (st : state) :
  saw_close st = true -> saw_close (run st post) = true.
Proof.
  revert st. induction post as [| ev post IH]; intros st Hs; [exact Hs |].
  apply IH. now apply saw_close_step.
Qed.

End Workers.
End TTSDelivery.

Module STTDelivery.
Import STT STTInv STTFacts Offers SubseqFacts.
Section Bridge.
Context {MessageResponse : Type}.
Variable conv : MessageResponse -> StreamEvent.

Lemma stt_offered_app (evs1 evs2 : list (@event MessageResponse)) :
  stt_offered conv (evs1 ++ evs2)
  = (stt_offered conv evs1 ++ stt_offered conv evs2)%list.
Proof. apply flat_map_app. Qed.


(** A method of the handler is one send of its event, or nothing. *)
Lemma handle_event (cb : callback) (pick : bool) (st : state) :
  handle conv cb pick st
  = fold_left (fun s e => send_event pick e s) (stt_event conv cb) st.
Proof. destruct cb as [| [mr |] | | | | | [d |] | raw]; reflexivity. Qed.

Lemma send_event_produced (pick : bool) (ev : StreamEvent) (st : state) :
  stt_produced (send_event pick ev st) = stt_produced st
  \/ stt_produced (send_event pick ev st) = (stt_produced st ++ [ev])%list.
Proof.
  destruct (send_event_cases pick ev st) as [E | [[_ E] | (_ & _ & E)]];
    rewrite E; [now left | now left | right].
  unfold stt_produced. cbn. now rewrite app_assoc.
Qed.

Lemma send_event_fields (pick : bool) (ev : StreamEvent) (st : state) :
  closed (send_event pick ev st) = closed st
  /\ ctx_done (send_event pick ev st) = ctx_done st
  /\ watcher (send_event pick ev st) = watcher st
  /\ close_calls (send_event pick ev st) = close_calls st
  /\ session (send_event pick ev st) = session st
  /\ in_flight (send_event pick ev st) = in_flight st.
Proof.
  destruct (send_event_cases pick ev st) as [E | [[_ E] | (_ & _ & E)]];
    rewrite E; repeat split.
Qed.

Lemma handle_fields (cb : callback) (pick : bool) (st : state) :
  closed (handle conv cb pick st) = closed st
  /\ ctx_done (handle conv cb pick st) = ctx_done st
  /\ watcher (handle conv cb pick st) = watcher st
  /\ close_calls (handle conv cb pick st) = close_calls st
  /\ session (handle conv cb pick st) = session st
  /\ in_flight (handle conv cb pick st) = in_flight st.
Proof.
  destruct cb as [| [mr |] | | | | | [d |] | raw]; cbn [handle];
    try apply send_event_fields; repeat split.
Qed.

Lemma Close_fields (st : state) :
  stt_produced (Close_ st) = stt_produced st
  /\ ctx_done (Close_ st) = ctx_done st
  /\ watcher (Close_ st) = watcher st
  /\ close_calls (Close_ st) = S (close_calls st)
  /\ session (Close_ st) = session st
  /\ in_flight (Close_ st) = in_flight st.
Proof.
  unfold Close_, Chan.close, stt_produced. cbn.
  destruct (closed st), (Chan.closed (done st)),
    (Chan.closed (eventCh st)); repeat split.
Qed.

Lemma receive_stt_produced (st : state) :
  stt_produced (receive st) = stt_produced st.
Proof.
  unfold receive, Chan.recv, stt_produced.
  destruct (Chan.buf (eventCh st)) as [| x rest] eqn:Hb.
  - destruct (Chan.closed (eventCh st)); cbn; now rewrite ?Hb.
  - cbn. now rewrite <- app_assoc.
Qed.

Lemma receive_fields (st : state) :
  closed (receive st) = closed st
  /\ ctx_done (receive st) = ctx_done st
  /\ watcher (receive st) = watcher st
  /\ close_calls (receive st) = close_calls st
  /\ session (receive st) = session st
  /\ in_flight (receive st) = in_flight st
  /\ crashed (receive st) = crashed st.
Proof.
  unfold receive, Chan.recv.
  destruct (Chan.buf (eventCh st));
    [destruct (Chan.closed (eventCh st)) |]; repeat split.
Qed.

Lemma watcher_step_produced (pick : bool) (st : state) :
  stt_produced (watcher_step pick st) = stt_produced st.
Proof.
  unfold watcher_step.
  destruct (watcher st); try reflexivity.
  - destruct (ctx_done st && negb (Chan.closed (done st) && pick));
      [| destruct (Chan.closed (done st))]; reflexivity.
  - destruct (Close_fields st) as (E & _). exact E.
Qed.

(** One step adds to the channel nothing, or the event of the
    callback. *)
Lemma stt_step_offered (st : state) (ev : @event MessageResponse) :
  exists d,
    stt_produced (step conv st ev) = (stt_produced st ++ d)%list
    /\ subseq d (stt_offered conv [ev]).
Proof.
  unfold STT.step.
  assert (Hnone : forall st' l, stt_produced st' = stt_produced st ->
              exists d, stt_produced st' = (stt_produced st ++ d)%list
                        /\ subseq d l).
  { intros st' l E. exists []. rewrite E, app_nil_r.
    split; [reflexivity | apply subseq_nil_l]. }
  destruct (crashed st); [now apply Hnone |].
  destruct ev as [p | res | | | pick | cb pick |].
  - apply Hnone. unfold write_begin. now destruct (closed st).
  - apply Hnone. unfold write_forward. now destruct (in_flight st).
  - apply Hnone. apply Close_fields.
  - now apply Hnone.
  - apply Hnone. apply watcher_step_produced.
  - rewrite handle_event. unfold stt_offered. cbn [flat_map].
    rewrite app_nil_r.
    destruct (stt_event conv cb) as [| e [| e' l]] eqn:Ec.
    + now apply Hnone.
    + cbn [fold_left].
      destruct (send_event_produced pick e st) as [E | E].
      * now apply Hnone.
      * exists [e]. split; [exact E | apply subseq_refl].
    + destruct cb as [| [mr |] | | | | | [d |] | raw]; discriminate.
  - apply Hnone. apply receive_stt_produced.
Qed.

Lemma stt_run_offered (evs : list (@event MessageResponse)) (st : state) :
  exists d,
    stt_produced (run conv st evs) = (stt_produced st ++ d)%list
    /\ subseq d (stt_offered conv evs).
Proof.
  revert st. induction evs as [| ev evs IH]; intros st.
  - exists []. cbn. rewrite app_nil_r. split; [reflexivity | constructor].
  - cbn [STT.run fold_left].
    change (fold_left (step conv) evs (step conv st ev))
      with (run conv (step conv st ev) evs).
    destruct (stt_step_offered st ev) as (d1 & E1 & S1).
    destruct (IH (step conv st ev)) as (d2 & E2 & S2).
    exists (d1 ++ d2)%list. rewrite E2, E1, <- app_assoc.
    split; [reflexivity |].
    change (ev :: evs) with ([ev] ++ evs)%list.
    rewrite stt_offered_app. now apply subseq_app.
Qed.

(** *** Panics *)

(** The program panics only with the writer closed. *)
Lemma crash_step (st : state) (ev : @event MessageResponse) :
  Inv st ->
  (crashed st = None \/ closed st = true) ->
  crashed (step conv st ev) = None \/ closed (step conv st ev) = true.
Proof.
  intros I Hq. unfold STT.step.
  destruct (crashed st) eqn:Hcr;
    [destruct Hq as [Hq | Hq]; [discriminate | now right] |].
  destruct ev as [p | res | | | pick | cb pick |].
  - left. unfold write_begin. now destruct (closed st).
  - left. unfold write_forward. now destruct (in_flight st).
  - right. apply Close_closed.
  - now left.
  - unfold watcher_step.
    destruct (watcher st); auto.
    + destruct (ctx_done st && negb (Chan.closed (done st) && pick));
        [| destruct (Chan.closed (done st))]; auto.
    + right. apply Close_closed.
  - rewrite handle_event.
    destruct (stt_event conv cb) as [| e [| e' l]] eqn:Ec; cbn [fold_left].
    + now left.
    + destruct (send_event_cases pick e st)
        as [E | [[Hc E] | (_ & _ & E)]]; rewrite E; cbn; auto.
      right. now rewrite <- (inv_flag st I).
    + destruct cb as [| [mr |] | | | | | [d |] | raw]; discriminate.
  - left. destruct (receive_fields st) as (_ & _ & _ & _ & _ & _ & E).
    now rewrite E.
Qed.

Lemma crash_run (evs : list (@event MessageResponse)) (st : state) :
  Inv st ->
  (crashed st = None \/ closed st = true) ->
  crashed (run conv st evs) = None \/ closed (run conv st evs) = true.
Proof.
  revert st. induction evs as [| ev evs IH]; intros st I Hq; [exact Hq |].
  cbn [STT.run fold_left]. apply IH; [now apply stt_step_inv |].
  now apply crash_step.
Qed.

(** *** The writer and the session *)





(** *** The watcher *)

Lemma ctx_done_step (st : state) (ev : @event MessageResponse) :
  ctx_done st = true -> ctx_done (step conv st ev) = true.
Proof.
  intros Hc. unfold STT.step. destruct (crashed st); [exact Hc |].
  destruct ev as [p | res | | | pick | cb pick |].
  - unfold write_begin. now destruct (closed st).
  - unfold write_forward. now destruct (in_flight st).
  - destruct (Close_fields st) as (_ & E & _). now rewrite E.
  - reflexivity.
  - unfold watcher_step.
    destruct (watcher st); auto.
    + rewrite Hc.
      destruct (true && negb (Chan.closed (done st) && pick));
        [| destruct (Chan.closed (done st))]; auto.
    + cbn. destruct (Close_fields st) as (_ & E & _). now rewrite E.
  - destruct (handle_fields cb pick st) as (_ & E & _). now rewrite E.
  - destruct (receive_fields st) as (_ & E & _). now rewrite E.
Qed.

Lemma watcher_ok_step (st : state) (ev : @event MessageResponse) :
  Inv st -> watcher_ok st -> watcher_ok (step conv st ev).
Proof.
  intros I Hw. unfold watcher_ok.
  destruct (is_watcher ev) eqn:Ee.
  - destruct ev as [| | | | pick | |]; try discriminate.
    unfold STT.step. destruct (crashed st); [exact Hw |].
    unfold watcher_step. unfold watcher_ok in Hw.
    destruct (watcher st) eqn:Ew; try (rewrite Ew; exact Hw).
    + destruct (ctx_done st && negb (Chan.closed (done st) && pick));
        [cbn; exact Logic.I |].
      destruct (Chan.closed (done st)) eqn:Ed; cbn; rewrite ?Ew; auto.
      now rewrite <- (inv_done st I).
    + cbn. apply Close_closed.
  - assert (Ew : watcher (step conv st ev) = watcher st).
    { unfold STT.step. destruct (crashed st); [reflexivity |].
      destruct ev as [p | res | | | pick | cb pick |]; try discriminate.
      - unfold write_begin. now destruct (closed st).
      - unfold write_forward. now destruct (in_flight st).
      - apply Close_fields.
      - reflexivity.
      - apply handle_fields.
      - apply receive_fields. }
    rewrite Ew. unfold watcher_ok in Hw.
    destruct (watcher st); auto.
    now apply step_closed.
Qed.

Lemma watcher_ok_run (evs : list (@event MessageResponse)) (st : state) :
  Inv st -> watcher_ok st -> watcher_ok (run conv st evs).
Proof.
  revert st. induction evs as [| ev evs IH]; intros st I Hw; [exact Hw |].
  cbn [STT.run fold_left]. apply IH; [now apply stt_step_inv |].
  now apply watcher_ok_step.
Qed.

(** With the context cancelled, the watcher closes the writer within two
    of its steps. *)
Lemma watcher_closes (post : list (@event MessageResponse)) (st : state) :
  Inv st -> (crashed st = None \/ closed st = true) -> watcher_ok st ->
  ctx_done st = true ->
  (watcher_ahead (watcher st) <= watcher_steps post)%nat ->
  closed (run conv st post) = true.
Proof.
  revert st. induction post as [| ev post IH]; intros st I Hq Hw Hctx Hn.
  - cbn in Hn. unfold watcher_ok in Hw. cbn.
    destruct (watcher st); cbn in Hn; try lia; tauto.
  - cbn [STT.run fold_left].
    change (fold_left (step conv) post (step conv st ev))
      with (run conv (step conv st ev) post).
    destruct (closed st) eqn:Hc.
    { apply run_closed. now apply step_closed. }
    assert (Hcr : crashed st = None) by (destruct Hq; congruence).
    unfold watcher_steps in Hn. cbn [filter] in Hn.
    destruct (is_watcher ev) eqn:Ee.
    + destruct ev as [| | | | pick | |]; try discriminate.
      cbn [List.length] in Hn.
      assert (Es : step conv st (Watcher pick) = watcher_step pick st).
      { unfold STT.step. now rewrite Hcr. }
      unfold watcher_ok in Hw.
      destruct (watcher st) eqn:Ew; try tauto; try congruence.
      * assert (Ed : Chan.closed (done st) = false)
          by (rewrite (inv_done st I); exact Hc).
        assert (E1 : watcher_step pick st = with_watcher st WatcherCloses).
        { unfold watcher_step. now rewrite Ew, Hctx, Ed. }
        assert (I1 : Inv (with_watcher st WatcherCloses))
          by (rewrite <- E1, <- Es; now apply stt_step_inv).
        rewrite Es, E1. apply IH; auto.
        cbn in *. unfold watcher_steps. lia.
      * apply run_closed. rewrite Es. unfold watcher_step. rewrite Ew.
        cbn. apply Close_closed.
    + assert (Ew : watcher (step conv st ev) = watcher st).
      { unfold STT.step. rewrite Hcr.
        destruct ev as [p | res | | | pick | cb pick |]; try discriminate.
        - unfold write_begin. now destruct (closed st).
        - unfold write_forward. now destruct (in_flight st).
        - apply Close_fields.
        - reflexivity.
        - apply handle_fields.
        - apply receive_fields. }
      apply IH; auto using stt_step_inv, crash_step, watcher_ok_step,
                  ctx_done_step.
      rewrite Ew. exact Hn.
Qed.

End Bridge.
End STTDelivery.

(** ** The pieces the segmenter returns *)

Module ShapeFacts.
Import Utf8 Utf8Facts Unicode Segmenter SegmenterFacts.

(** *** Writing runes back and reading them again *)

(** A decoding step that is not the one-byte fallback looks at the bytes
    it consumes and at nothing else. *)
Lemma decoderune_prefix (c0 : ascii) (s1 : string) (r : rune) (w : nat)
      (rest : string) :
  decoderune (String c0 s1) = (r, w) ->
  (byteZ c0 <? RuneSelf) || negb (w =? 1)%nat = true ->
  decoderune (take w (String c0 s1) ++ rest) = (r, w)
  /\ String.length (take w (String c0 s1)) = w.
Proof.
  unfold decoderune, RuneSelf, t2, t3, t4, t5.
  destruct (byteZ c0 <? 128) eqn:E1; intros Hd Hv.
  { inversion Hd; subst. cbn [take append]. rewrite E1. now split. }
  cbn [orb] in Hv.
  destruct ((192 <=? byteZ c0) && (byteZ c0 <? 224)) eqn:E2.
  { destruct s1 as [| c1 s2]; [inversion Hd; subst; discriminate |].
    match type of Hd with (if ?b then _ else _) = _ => destruct b eqn:E end;
      inversion Hd; subst; [| discriminate].
    cbn [take append]. rewrite E1, E2, E. now split. }
  destruct ((224 <=? byteZ c0) && (byteZ c0 <? 240)) eqn:E3.
  { destruct s1 as [| c1 [| c2 s3]]; try (inversion Hd; subst; discriminate).
    match type of Hd with (if ?b then _ else _) = _ => destruct b eqn:E end;
      inversion Hd; subst; [| discriminate].
    cbn [take append]. rewrite E1, E2, E3, E. now split. }
  destruct ((240 <=? byteZ c0) && (byteZ c0 <? 248)) eqn:E4.
  { destruct s1 as [| c1 [| c2 [| c3 s4]]];
      try (inversion Hd; subst; discriminate).
    match type of Hd with (if ?b then _ else _) = _ => destruct b eqn:E end;
      inversion Hd; subst; [| discriminate].
    cbn [take append]. rewrite E1, E2, E3, E4, E. now split. }
  inversion Hd; subst; discriminate.
Qed.

(** The one-byte fallback yields [RuneError]. *)
Lemma decoderune_fallback (c0 : ascii) (s1 : string) (r : rune) (w : nat) :
  decoderune (String c0 s1) = (r, w) ->
  (byteZ c0 <? RuneSelf) || negb (w =? 1)%nat = false ->
  r = RuneError.
Proof.
  unfold decoderune. intros Hd Hv.
  apply orb_false_elim in Hv. destruct Hv as [E1 Hw].
  rewrite E1 in Hd.
  repeat match type of Hd with
  | (if ?b then _ else _) = _ => destruct b
  | match ?x with _ => _ end = _ => destruct x
  end; inversion Hd; subst; try reflexivity; discriminate.
Qed.

Lemma drop_app_length (a b : string) : drop (String.length a) (a ++ b) = b.
Proof. induction a as [| c a IH]; [now destruct b | exact IH]. Qed.

Lemma length_append (a b : string) :
  String.length (a ++ b) = (String.length a + String.length b)%nat.
Proof. induction a as [| c a IH]; cbn; [reflexivity | now rewrite IH]. Qed.

(** What a decoding step yields is written back as bytes that decode to
    it again, in one well-formed step. *)
Lemma reencode_step (c0 : ascii) (s1 : string) (r : rune) (w : nat) :
  decoderune (String c0 s1) = (r, w) ->
  exists a t,
    AppendRune r = String a t
    /\ forall rest,
         decoderune (String a (t ++ rest)) = (r, S (String.length t))
         /\ (byteZ a <? RuneSelf) || negb (S (String.length t) =? 1)%nat
            = true.
Proof.
  intros Hd.
  destruct ((byteZ c0 <? RuneSelf) || negb (w =? 1)%nat) eqn:Hv.
  - pose proof (decoderune_AppendRune c0 s1 r w Hd Hv) as HA.
    pose proof (decoderune_width (String c0 s1)) as Hw. rewrite Hd in Hw.
    cbn [snd] in Hw.
    destruct w as [| w']; [lia |].
    exists c0, (take w' s1). split; [exact HA |].
    intros rest.
    destruct (decoderune_prefix c0 s1 r (S w') rest Hd Hv) as [E El].
    cbn [take append String.length] in E, El.
    injection El as El. rewrite El. split; [exact E | exact Hv].
  - rewrite (decoderune_fallback c0 s1 r w Hd Hv).
    exists (ascii_of_nat 239),
      (String (ascii_of_nat 191) (String (ascii_of_nat 189) EmptyString)).
    split; [reflexivity |]. intros rest. split; reflexivity.
Qed.

(** The runes of a text, written back, are well-formed UTF-8 and decode
    to the same runes. *)
Lemma reencode (s : string) :
  stringtoslicerune (encode_runes (stringtoslicerune s))
  = stringtoslicerune s
  /\ ValidString (encode_runes (stringtoslicerune s)) = true.
Proof.
  remember (String.length s) as n eqn:En.
  revert s En.
  induction n as [n IH] using lt_wf_ind. intros s En.
  destruct s as [| c0 s1]; [now split |].
  rewrite stringtoslicerune_cons.
  destruct (decoderune (String c0 s1)) as [r w] eqn:Ed. cbn [fst snd].
  pose proof (decoderune_width (String c0 s1)) as Hw. rewrite Ed in Hw.
  cbn [snd] in Hw.
  pose proof (drop_length w (String c0 s1)) as Hl.
  cbn [String.length] in Hl.
  destruct (IH (String.length (drop w (String c0 s1)))
               ltac:(cbn [String.length] in En; lia)
               (drop w (String c0 s1)) eq_refl) as [IH1 IH2].
  set (E := encode_runes (stringtoslicerune (drop w (String c0 s1)))) in *.
  cbn [encode_runes]. fold E.
  destruct (reencode_step c0 s1 r w Ed) as (a & t & HA & Hdec).
  destruct (Hdec E) as [Hd Hv].
  rewrite HA. cbn [append].
  assert (Hdrop : drop (S (String.length t)) (String a (t ++ E)) = E)
    by (cbn [drop]; apply drop_app_length).
  split.
  - rewrite stringtoslicerune_cons, Hd. cbn [fst snd].
    now rewrite Hdrop, IH1.
  - unfold ValidString. cbn [String.length valid_fuel].
    rewrite Hd, Hv, Hdrop. cbn [andb].
    rewrite valid_fuel_enough; [exact IH2 |].
    rewrite length_append. lia.
Qed.

(** *** Cutting *)

Lemma removelast_map {A B : Type} (f : A -> B) (l : list A) :
  removelast (map f l) = map f (removelast l).
Proof.
  induction l as [| x l IH]; [reflexivity |].
  destruct l as [| y l]; [reflexivity |].
  change (f x :: removelast (map f (y :: l))
          = f x :: map f (removelast (y :: l))).
  now rewrite IH.
Qed.

Lemma tl_map {A B : Type} (f : A -> B) (l : list A) :
  tl (map f l) = map f (tl l).
Proof. now destruct l. Qed.

(** No piece is empty. *)
Lemma cut_nonempty (flags : list bool) (rs cur : list rune) :
  Forall (fun p => p <> []) (cut flags rs cur).
Proof.
  assert (Hend : forall c : list rune,
             Forall (fun p : list rune => p <> [])
                    match c with [] => [] | _ => [c] end).
  { intros c. destruct c; repeat constructor. discriminate. }
  revert rs cur. induction flags as [| b flags IH]; intros rs cur;
    [destruct rs; apply Hend |].
  destruct rs as [| r rs]; [apply Hend |].
  cbn [cut]. destruct b; [| apply IH].
  constructor; [now destruct cur | apply IH].
Qed.

(** Every piece but the last ends with a flagged item. *)
Lemma cut_flagged (flags : list bool) (rs cur piece : list rune) :
  In piece (removelast (cut flags rs cur)) ->
  exists p r, piece = (p ++ [r])%list /\ In (true, r) (combine flags rs).
Proof.
  assert (Hend : forall c : list rune,
             ~ In piece (removelast match c with [] => [] | _ => [c] end))
    by (intros c; destruct c; cbn; tauto).
  revert rs cur.
  induction flags as [| b flags IH]; intros rs cur;
    [destruct rs; intros Hin; now apply Hend in Hin |].
  destruct rs as [| r rs]; [intros Hin; now apply Hend in Hin |].
  cbn [cut combine]. destruct b.
  - cbn [removelast].
    destruct (cut flags rs []) as [| x l] eqn:Ec; [intros [] |].
    rewrite <- Ec. intros [<- | Hin].
    + exists cur, r. split; [reflexivity | now left].
    + destruct (IH rs [] Hin) as (p & r' & E & Hr).
      exists p, r'. split; [exact E | now right].
  - intros Hin.
    destruct (IH rs (cur ++ [r])%list Hin) as (p & r' & E & Hr).
    exists p, r'. split; [exact E | now right].
Qed.

(** When every flagged item that is not the last is followed by an item
    with property [P], every piece starts with such an item, provided
    the first one does. *)
Lemma cut_starts (P : rune -> bool) (flags : list bool) (rs cur : list rune) :
  (forall k, nth k flags false = true -> (S k < List.length rs)%nat ->
             P (nth (S k) rs 0) = true) ->
  match (cur ++ rs)%list with r :: _ => P r = true | [] => True end ->
  Forall (fun p => match p with r :: _ => P r = true | [] => False end)
         (cut flags rs cur).
Proof.
  revert rs cur. induction flags as [| b flags IH]; intros rs cur Hadj Hhd.
  - destruct rs; cbn [cut]; destruct cur; repeat constructor; exact Hhd.
  - destruct rs as [| r rs].
    + cbn [cut]. destruct cur; repeat constructor.
      now rewrite app_nil_r in Hhd.
    + assert (Hadj' : forall k, nth k flags false = true ->
                                (S k < List.length rs)%nat ->
                                P (nth (S k) rs 0) = true).
      { intros k Hk Hl. apply (Hadj (S k)); [exact Hk | cbn; lia]. }
      cbn [cut]. destruct b.
      * constructor; [now destruct cur |].
        apply IH; [exact Hadj' |]. cbn [app].
        destruct rs as [| r' rs]; [exact Logic.I |].
        apply (Hadj 0%nat); [reflexivity | cbn; lia].
      * apply IH; [exact Hadj' |]. now rewrite <- app_assoc.
Qed.

Lemma cut_tail_starts (P : rune -> bool) (flags : list bool)
      (rs cur : list rune) :
  (forall k, nth k flags false = true -> (S k < List.length rs)%nat ->
             P (nth (S k) rs 0) = true) ->
  Forall (fun p => match p with r :: _ => P r = true | [] => False end)
         (tl (cut flags rs cur)).
Proof.
  revert rs cur. induction flags as [| b flags IH]; intros rs cur Hadj.
  - destruct rs; cbn [cut]; destruct cur; constructor.
  - destruct rs as [| r rs]; [cbn [cut]; destruct cur; constructor |].
    assert (Hadj' : forall k, nth k flags false = true ->
                              (S k < List.length rs)%nat ->
                              P (nth (S k) rs 0) = true).
    { intros k Hk Hl. apply (Hadj (S k)); [exact Hk | cbn; lia]. }
    cbn [cut]. destruct b.
    + cbn [tl]. apply cut_starts; [exact Hadj' |]. cbn [app].
      destruct rs as [| r' rs]; [exact Logic.I |].
      apply (Hadj 0%nat); [reflexivity | cbn; lia].
    + now apply IH.
Qed.

Section Split.
Context `{UnicodeTables}.

Lemma boundaries_nth (runes : list rune) (k : nat) :
  (k < List.length runes)%nat ->
  nth k (boundaries runes) false = boundary runes k.
Proof.
  intros Hk. unfold boundaries.
  rewrite (nth_indep _ false (boundary runes 0%nat))
    by now rewrite length_map, length_seq.
  now rewrite map_nth, seq_nth.
Qed.

Lemma boundaries_length (runes : list rune) :
  List.length (boundaries runes) = List.length runes.
Proof. unfold boundaries. now rewrite length_map, length_seq. Qed.

(** A flagged rune is '.', '!' or '?'. *)
Lemma flagged_terminator (runes : list rune) (r : rune) :
  In (true, r) (combine (boundaries runes) runes) ->
  is_terminator r = true.
Proof.
  intros Hin. apply (In_nth _ _ (false, 0)) in Hin.
  destruct Hin as (k & Hk & E).
  rewrite length_combine, boundaries_length, Nat.min_id in Hk.
  rewrite combine_nth in E by apply boundaries_length.
  injection E as Eb Er. subst r.
  rewrite boundaries_nth in Eb by assumption.
  unfold boundary in Eb.
  rewrite (nth_error_nth' runes 0 Hk) in Eb.
  apply andb_prop in Eb. destruct Eb as [Eb _].
  apply andb_prop in Eb. now destruct Eb.
Qed.

(** A boundary that is not at the end is followed by white space. *)
Lemma boundary_then_space (runes : list rune) (k : nat) :
  nth k (boundaries runes) false = true ->
  (S k < List.length runes)%nat ->
  IsSpace (nth (S k) runes 0) = true.
Proof.
  intros Eb Hk. rewrite boundaries_nth in Eb by lia.
  unfold boundary in Eb.
  rewrite (nth_error_nth' runes 0 (Nat.lt_succ_l _ _ Hk)) in Eb.
  apply andb_prop in Eb. destruct Eb as [Eb _].
  apply andb_prop in Eb. destruct Eb as [_ Ef].
  unfold followed_by_space_or_end in Ef.
  now rewrite (nth_error_nth' runes 0 Hk) in Ef.
Qed.

Lemma terminator_bytes (r : rune) :
  is_terminator r = true ->
  AppendRune r = "." \/ AppendRune r = "!" \/ AppendRune r = "?".
Proof.
  unfold is_terminator, dot, bang, question. intros Ht.
  apply orb_prop in Ht. destruct Ht as [Ht | Ht];
    [apply orb_prop in Ht; destruct Ht as [Ht | Ht] |];
    apply Z.eqb_eq in Ht; subst; auto.
Qed.

(** The pieces depend on the runes of the text only. *)
Lemma split_runes (text text' : string) :
  stringtoslicerune text = stringtoslicerune text' ->
  splitIntoSentences text = splitIntoSentences text'.
Proof.
  intros E. rewrite !splitIntoSentences_spec. unfold split_spec.
  now rewrite E.
Qed.

End Split.
End ShapeFacts.

(** ** Splitting a text that grows *)

Module ResumeFacts.
Import Utf8 Utf8Facts Unicode Segmenter SegmenterFacts ShapeFacts.

Lemma runes_decodable (s : string) : Forall decodable (stringtoslicerune s).
Proof.
  remember (String.length s) as n eqn:En.
  revert s En.
  induction n as [n IH] using lt_wf_ind. intros s En.
  destruct s as [| c0 s1]; [constructor |].
  rewrite stringtoslicerune_cons.
  pose proof (decoderune_width (String c0 s1)) as Hw.
  pose proof (drop_length (snd (decoderune (String c0 s1))) (String c0 s1))
    as Hl.
  cbn [String.length] in Hl, En.
  constructor.
  - exists c0, s1, (snd (decoderune (String c0 s1))).
    now destruct (decoderune (String c0 s1)).
  - apply (IH (String.length
                 (drop (snd (decoderune (String c0 s1))) (String c0 s1))));
      [lia | reflexivity].
Qed.

(** Runes the decoder yields, written back in front of any bytes, are
    read again as they were. *)
Lemma decode_encode_app (rs : list rune) (more : string) :
  Forall decodable rs ->
  stringtoslicerune (encode_runes rs ++ more)
  = (rs ++ stringtoslicerune more)%list.
Proof.
  induction 1 as [| r rs (c0 & s1 & w & Ed) Hrs IH]; [reflexivity |].
  cbn [encode_runes]. rewrite append_assoc.
  destruct (reencode_step c0 s1 r w Ed) as (a & t & HA & Hdec).
  destruct (Hdec (encode_runes rs ++ more)) as [Hd _].
  rewrite HA. cbn [append].
  rewrite stringtoslicerune_cons, Hd. cbn [fst snd drop app].
  now rewrite drop_app_length, IH.
Qed.

(** *** Cutting a longer list *)

Lemma cut_concat (flags : list bool) (rs cur : list rune) :
  List.length flags = List.length rs ->
  List.concat (cut flags rs cur) = (cur ++ rs)%list.
Proof.
  revert rs cur. induction flags as [| b flags IH]; intros rs cur Hl.
  - destruct rs; [| discriminate]. rewrite app_nil_r.
    destruct cur; cbn; [reflexivity | now rewrite app_nil_r].
  - destruct rs as [| r rs]; [discriminate |]. cbn in Hl.
    cbn [cut]. destruct b.
    + cbn [List.concat]. rewrite IH by lia. cbn [app].
      now rewrite <- app_assoc.
    + rewrite IH by lia. now rewrite <- app_assoc.
Qed.

Lemma cut_ext (f h : nat -> bool) (X : list rune) :
  forall (o o' : nat) (cur : list rune),
    (forall j, (j < List.length X)%nat -> f (o + j)%nat = h (o' + j)%nat) ->
    cut (map f (seq o (List.length X))) X cur
    = cut (map h (seq o' (List.length X))) X cur.
Proof.
  induction X as [| x X IH]; intros o o' cur Hfh; [reflexivity |].
  cbn [List.length seq map cut].
  pose proof (Hfh 0%nat ltac:(cbn; lia)) as H0.
  rewrite !Nat.add_0_r in H0. rewrite H0.
  assert (Hn : forall j, (j < List.length X)%nat ->
                         f (S o + j)%nat = h (S o' + j)%nat).
  { intros j Hj. specialize (Hfh (S j) ltac:(cbn; lia)).
    now rewrite !Nat.add_succ_r in Hfh. }
  destruct (h o'); now rewrite (IH (S o) (S o')).
Qed.

(** Runes collected without a flag can as well be cut anew. *)
Lemma cut_acc (f : nat -> bool) (B : list rune) (n : nat) (cur : list rune) :
  forall (j : nat) (acc : list rune),
    (forall k, (k < List.length cur)%nat -> f (j + k)%nat = false) ->
    cut (map f (seq j (List.length cur + n))) (cur ++ B) acc
    = cut (map f (seq (j + List.length cur) n)) B (acc ++ cur).
Proof.
  induction cur as [| c cur IH]; intros j acc Hf.
  - cbn [List.length Nat.add app]. now rewrite Nat.add_0_r, app_nil_r.
  - cbn [List.length Nat.add seq map app cut].
    pose proof (Hf 0%nat ltac:(cbn; lia)) as H0.
    rewrite Nat.add_0_r in H0. rewrite H0.
    rewrite (IH (S j) (acc ++ [c])%list).
    + rewrite <- app_assoc. cbn [app].
      now replace (S j + List.length cur)%nat
        with (j + S (List.length cur))%nat by lia.
    + intros k Hk. specialize (Hf (S k) ltac:(cbn; lia)).
      now rewrite Nat.add_succ_r in Hf.
Qed.

Lemma removelast_cons {A : Type} (x : A) (l : list A) :
  l <> [] -> removelast (x :: l) = x :: removelast l.
Proof. now destruct l. Qed.

Lemma last_cons {A : Type} (x d : A) (l : list A) :
  l <> [] -> last (x :: l) d = last l d.
Proof. now destruct l. Qed.

Lemma last_map {A B : Type} (f : A -> B) (l : list A) (d : A) :
  last (map f l) (f d) = f (last l d).
Proof.
  induction l as [| x l IH]; [reflexivity |].
  destruct l as [| y l]; [reflexivity |]. exact IH.
Qed.

(** Cutting [A ++ B] with flags that agree with those of [A] before the
    last position of [A]: the pieces of [A] but the last, and then the
    last piece of [A] with [B], cut anew. *)
Lemma cut_resume (f g : nat -> bool) (B : list rune) (A : list rune) :
  forall (i : nat) (cur : list rune),
    (List.length cur <= i)%nat ->
    (forall k, (k < List.length cur)%nat ->
               f (i - List.length cur + k)%nat = false) ->
    (forall k, (S k < List.length A)%nat -> f (i + k)%nat = g (i + k)%nat) ->
    (cur ++ A)%list <> [] ->
    cut (map f (seq i (List.length A + List.length B))) (A ++ B) cur
    = (removelast (cut (map g (seq i (List.length A))) A cur)
       ++ cut (map f
                 (seq (i + List.length A
                       - List.length
                           (last (cut (map g (seq i (List.length A))) A cur)
                                 []))
                      (List.length
                         (last (cut (map g (seq i (List.length A))) A cur)
                               [])
                       + List.length B)))
              (last (cut (map g (seq i (List.length A))) A cur) [] ++ B)
              [])%list.
Proof.
  induction A as [| a A IH]; intros i cur Hle Hcur Hfg Hne.
  - rewrite app_nil_r in Hne.
    assert (EC : cut (map g (seq i (List.length (@nil rune)))) [] cur
                 = [cur]) by (destruct cur; [contradiction | reflexivity]).
    rewrite EC. cbn [removelast last app List.length Nat.add].
    rewrite Nat.add_0_r.
    rewrite (cut_acc f B (List.length B) cur (i - List.length cur) [])
      by exact Hcur.
    cbn [app].
    now replace (i - List.length cur + List.length cur)%nat with i by lia.
  - destruct A as [| a' A].
    + (* the last position of [A] *)
      assert (EC : cut (map g (seq i (List.length [a]))) [a] cur
                   = [(cur ++ [a])%list]).
      { cbn [List.length seq map cut].
        destruct (g i); [reflexivity |].
        destruct (cur ++ [a])%list eqn:E; [| reflexivity].
        symmetry in E. now apply app_cons_not_nil in E. }
      rewrite EC. cbn [removelast last app].
      rewrite length_app. cbn [List.length].
      replace (i + 1 - (List.length cur + 1))%nat
        with (i - List.length cur)%nat by lia.
      rewrite <- app_assoc. cbn [app].
      replace (List.length cur + 1 + List.length B)%nat
        with (List.length cur + (1 + List.length B))%nat by lia.
      rewrite (cut_acc f (a :: B) (1 + List.length B) cur
                       (i - List.length cur) []) by exact Hcur.
      cbn [app].
      now replace (i - List.length cur + List.length cur)%nat
        with i by lia.
    + (* before the last position *)
      pose proof (Hfg 0%nat ltac:(cbn; lia)) as H0.
      rewrite Nat.add_0_r in H0.
      assert (Hfg' : forall k, (S k < List.length (a' :: A))%nat ->
                               f (S i + k)%nat = g (S i + k)%nat).
      { intros k Hk. specialize (Hfg (S k) ltac:(cbn in *; lia)).
        now rewrite !Nat.add_succ_r in Hfg. }
      set (A' := a' :: A) in *.
      change (List.length (a :: A')) with (S (List.length A')).
      cbn [Nat.add seq map app cut]. rewrite H0.
      replace (i + S (List.length A'))%nat
        with (S i + List.length A')%nat by lia.
      destruct (g i) eqn:Eg.
      * assert (Hc : cut (map g (seq (S i) (List.length A'))) A' [] <> []).
        { intros E. apply cut_nil in E;
            [discriminate | now rewrite length_map, length_seq]. }
        rewrite (removelast_cons _ _ Hc), (last_cons _ _ _ Hc).
        cbn [app]. f_equal.
        apply IH; auto; [cbn; lia | cbn; intros; lia | discriminate].
      * apply IH; auto.
        -- rewrite length_app. cbn. lia.
        -- intros k Hk. rewrite length_app in *. cbn [List.length] in *.
           destruct (Nat.eq_dec k (List.length cur)) as [-> | Hk'].
           ++ replace (S i - (List.length cur + 1) + List.length cur)%nat
                with i by lia.
              now rewrite H0.
           ++ replace (S i - (List.length cur + 1) + k)%nat
                with (i - List.length cur + k)%nat by lia.
              apply Hcur. lia.
        -- intros E. apply app_eq_nil in E. destruct E as [E _].
           symmetry in E. now apply app_cons_not_nil in E.
Qed.

Section Split.
Context `{UnicodeTables}.

Lemma space_not_terminator (r : rune) :
  IsSpace r = true -> is_terminator r = false.
Proof.
  unfold is_terminator, dot, bang, question. intros Hs.
  destruct (r =? 46) eqn:E1; [apply Z.eqb_eq in E1; subst; discriminate |].
  destruct (r =? 33) eqn:E2; [apply Z.eqb_eq in E2; subst; discriminate |].
  destruct (r =? 63) eqn:E3; [apply Z.eqb_eq in E3; subst; discriminate |].
  reflexivity.
Qed.

Lemma space_not_upper (r : rune) :
  (forall x, White_Space x = true -> Upper x = false) ->
  IsSpace r = true -> IsUpper r = false.
Proof.
  intros Ht. unfold IsSpace, IsUpper.
  destruct (latin1 r); [| apply Ht].
  intros Hs.
  repeat (apply orb_prop in Hs; destruct Hs as [Hs | Hs]);
    apply Z.eqb_eq in Hs; subst; reflexivity.
Qed.

(** The rule at a position looks at the runes up to the next one. *)
Lemma boundary_window (X Y : list rune) (k : nat) :
  (forall m, (m <= S k)%nat -> nth_error X m = nth_error Y m) ->
  boundary X k = boundary Y k.
Proof.
  intros Hw. unfold boundary, followed_by_space_or_end,
               abbreviation_guard, decimal_guard.
  rewrite (Hw k) by lia. rewrite (Hw (S k)) by lia.
  destruct k as [| j]; [reflexivity |].
  rewrite (Hw j) by lia.
  destruct j as [| j']; [reflexivity |].
  now rewrite (Hw j') by lia.
Qed.

Lemma boundary_prefix (R M : list rune) (k : nat) :
  (S k < List.length R)%nat ->
  boundary (R ++ M) k = boundary R k.
Proof.
  intros Hk. apply boundary_window. intros m Hm.
  apply nth_error_app1. lia.
Qed.

Lemma nth_error_shift (P X : list rune) (m : nat) :
  nth_error (P ++ X) (List.length P + m) = nth_error X m.
Proof.
  rewrite nth_error_app2 by lia. f_equal. lia.
Qed.

(** Behind white space that is not an uppercase letter, the rule does not
    look at what came before. *)
Lemma boundary_shift (P X : list rune) (j : nat) :
  (P = [] \/ exists s X', X = s :: X' /\ IsSpace s = true
                          /\ IsUpper s = false) ->
  boundary (P ++ X) (List.length P + j) = boundary X j.
Proof.
  intros [-> | (s & X' & EX & Hs & Hu)]; [reflexivity |].
  unfold boundary, followed_by_space_or_end.
  rewrite nth_error_shift.
  replace (S (List.length P + j)) with (List.length P + S j)%nat by lia.
  rewrite nth_error_shift.
  destruct (nth_error X j) as [r |] eqn:Er; [| reflexivity].
  destruct j as [| j].
  - rewrite EX in Er. cbn in Er. inversion Er; subst r.
    now rewrite (space_not_terminator s Hs).
  - f_equal. f_equal. f_equal. f_equal.
    + unfold abbreviation_guard.
      replace (List.length P + S j)%nat with (S (List.length P + j)) by lia.
      rewrite nth_error_shift.
      destruct (nth_error X j) as [p |] eqn:Ep; [| reflexivity].
      destruct j as [| j'].
      * rewrite EX in Ep. cbn in Ep. inversion Ep; subst p.
        now rewrite Hu.
      * replace (List.length P + S j')%nat
          with (S (List.length P + j')) by lia.
        now rewrite nth_error_shift.
    + unfold decimal_guard.
      replace (List.length P + S j)%nat with (S (List.length P + j)) by lia.
      rewrite nth_error_shift.
      replace (S (S (List.length P + j)))
        with (List.length P + S (S j))%nat by lia.
      now rewrite nth_error_shift.
Qed.

(** The pieces of [R ++ M]: those of [R] but the last, and then the last
    piece of [R] with [M], cut anew. *)
Lemma cut_append (R M : list rune) :
  (forall x, White_Space x = true -> Upper x = false) ->
  cut (boundaries (R ++ M)) (R ++ M) []
  = (removelast (cut (boundaries R) R [])
     ++ cut (boundaries (last (cut (boundaries R) R []) [] ++ M))
            (last (cut (boundaries R) R []) [] ++ M) [])%list.
Proof.
  intros Ht.
  destruct R as [| r0 R0]; [reflexivity |].
  set (R := r0 :: R0) in *.
  set (C := cut (boundaries R) R []).
  set (L := last C []).
  assert (HC : C <> []).
  { intros E. apply cut_nil in E; [discriminate | apply boundaries_length]. }
  assert (Econ : List.concat C = R)
    by (apply (cut_concat (boundaries R) R []), boundaries_length).
  assert (Esplit : C = (removelast C ++ [L])%list)
    by (now apply app_removelast_last).
  set (P := List.concat (removelast C)).
  assert (ER : R = (P ++ L)%list).
  { rewrite <- Econ. rewrite Esplit at 1.
    rewrite concat_app. cbn [List.concat]. now rewrite app_nil_r. }
  assert (HL : (List.length P + List.length L = List.length R)%nat)
    by (rewrite <- length_app; now rewrite <- ER).
  pose proof (cut_resume (boundary (R ++ M)) (boundary R) M R 0 []
                (Nat.le_0_l _)) as Hres.
  unfold boundaries at 1. rewrite length_app.
  rewrite Hres; clear Hres.
  - fold (boundaries R). fold C. fold L. f_equal.
    replace (0 + List.length R - List.length L)%nat
      with (List.length P) by lia.
    unfold boundaries. rewrite <- !length_app.
    apply cut_ext. intros j Hj. cbn [Nat.add].
    rewrite ER, <- app_assoc. apply boundary_shift.
    destruct (removelast C) as [| p ps] eqn:Erl; [now left |].
    right.
    assert (Hin : In L (tl C)).
    { rewrite Esplit. cbn [app tl]. apply in_or_app. right. now left. }
    pose proof (cut_tail_starts IsSpace (boundaries R) R []
                  (boundary_then_space R)) as Hall.
    rewrite Forall_forall in Hall. specialize (Hall L Hin).
    destruct L as [| s L']; [contradiction |].
    exists s, (L' ++ M)%list. split; [reflexivity |].
    split; [exact Hall | now apply space_not_upper].
  - cbn. intros; lia.
  - intros k Hk. cbn [Nat.add]. now apply boundary_prefix.
  - discriminate.
Qed.


(** Splitting a well-formed text with more bytes behind it. *)
Lemma split_grow (text more : string) :
  ValidString text = true ->
  (forall r, White_Space r = true -> Upper r = false) ->
  splitIntoSentences (text ++ more)
  = (removelast (splitIntoSentences text)
     ++ splitIntoSentences (last (splitIntoSentences text) "" ++ more))%list.
Proof.
  intros Hv Ht.
  set (R := stringtoslicerune text).
  set (M := stringtoslicerune more).
  set (C := cut (boundaries R) R []).
  assert (E1 : stringtoslicerune (text ++ more) = (R ++ M)%list).
  { pose proof (decode_encode_app
                  R more (runes_decodable text)) as E.
    unfold R in E at 1.
    now rewrite (encode_decode_valid text Hv) in E. }
  assert (Es : splitIntoSentences text = map encode_runes C)
    by apply splitIntoSentences_spec.
  assert (El : last (splitIntoSentences text) ""
               = encode_runes (last C [])).
  { rewrite Es. change "" with (encode_runes []).
    apply last_map. }
  assert (Hdec : Forall decodable (last C [])).
  { destruct C as [| c0 C0] eqn:EC; [constructor |].
    rewrite <- EC in *.
    assert (Hin : In (last C []) C).
    { rewrite (app_removelast_last (l := C) []) at 2
        by (rewrite EC; discriminate).
      apply in_or_app. right. now left. }
    pose proof (cut_concat
                  (boundaries R) R []
                  (boundaries_length R)) as Econ.
    fold C in Econ. cbn [app] in Econ.
    pose proof (runes_decodable text) as HR. fold R in HR.
    rewrite Forall_forall in *. intros x Hx. apply HR.
    rewrite <- Econ. apply in_concat. exists (last C []). now split. }
  assert (E2 : stringtoslicerune (encode_runes (last C []) ++ more)
               = (last C [] ++ M)%list)
    by (now apply decode_encode_app).
  rewrite El, Es.
  rewrite (splitIntoSentences_spec (text ++ more)).
  rewrite (splitIntoSentences_spec
             (encode_runes (last C []) ++ more)).
  unfold split_spec. rewrite E1, E2.
  rewrite (cut_append R M Ht). fold C.
  now rewrite map_app, removelast_map.
Qed.

End Split.
End ResumeFacts.

(** ** The reader goroutine and the sentences of its text *)

Module ReaderFacts.
Import Utf8 Utf8Facts Segmenter SegmenterFacts ShapeFacts ResumeFacts.
Import TTS TTSInv TTSFacts TTSDelivery Offers Reader.

(** Runes the decoder yields are written back as well-formed UTF-8. *)
Lemma encode_valid (rs : list rune) :
  Forall decodable rs -> ValidString (encode_runes rs) = true.
Proof.
  induction 1 as [| r rs (c0 & s1 & w & Ed) Hrs IH]; [reflexivity |].
  cbn [encode_runes].
  destruct (reencode_step c0 s1 r w Ed) as (a & t & HA & Hdec).
  destruct (Hdec (encode_runes rs)) as [Hd Hv].
  rewrite HA. cbn [append].
  unfold ValidString. cbn [String.length valid_fuel].
  rewrite Hd, Hv. cbn [andb drop]. rewrite drop_app_length.
  rewrite valid_fuel_enough; [exact IH |].
  rewrite length_append. lia.
Qed.

Lemma valid_app (a b : string) :
  ValidString a = true -> ValidString b = true ->
  ValidString (a ++ b) = true.
Proof.
  intros Ha Hb.
  rewrite <- (encode_decode_valid a Ha), <- (encode_decode_valid b Hb).
  rewrite <- encode_runes_app. apply encode_valid.
  apply Forall_app. split; apply runes_decodable.
Qed.

Section Reader.
Context `{UnicodeTables} `{Strings}.

(** The last element is well-formed, whatever the text. *)
Lemma last_piece_valid (text : string) :
  ValidString (last (splitIntoSentences text) "") = true.
Proof.
  rewrite splitIntoSentences_spec. unfold split_spec.
  set (R := stringtoslicerune text).
  set (C := cut (boundaries R) R []).
  change "" with (encode_runes []). rewrite last_map.
  apply encode_valid.
  destruct C as [| c0 C0] eqn:EC; [constructor |].
  rewrite <- EC in *.
  assert (Hin : In (last C []) C).
  { rewrite (app_removelast_last (l := C) []) at 2
      by (rewrite EC; discriminate).
    apply in_or_app. right. now left. }
  pose proof (cut_concat (boundaries R) R [] (boundaries_length R)) as Econ.
  fold C in Econ. cbn [app] in Econ.
  pose proof (runes_decodable text) as HR. fold R in HR.
  rewrite Forall_forall in *. intros x Hx. apply HR.
  rewrite <- Econ. apply in_concat. exists (last C []). now split.
Qed.

Lemma speakable_app (l1 l2 : list string) :
  speakable (l1 ++ l2) = (speakable l1 ++ speakable l2)%list.
Proof. unfold speakable. now rewrite map_app, filter_app. Qed.

Lemma speakable_one (s : string) :
  speakable [s] = if nonempty (TrimSpace s) then [TrimSpace s] else [].
Proof. reflexivity. Qed.

Lemma speakable_last (l : list string) :
  TrimSpace "" = "" ->
  speakable l
  = (speakable (removelast l)
     ++ if nonempty (TrimSpace (last l ""))
        then [TrimSpace (last l "")] else [])%list.
Proof.
  intros Ht. destruct l as [| x l'].
  - cbn [last removelast]. now rewrite Ht.
  - rewrite (app_removelast_last (l := x :: l') "") at 1 by discriminate.
    now rewrite speakable_app, speakable_one.
Qed.

(** One read: the sentences of the text with the chunk behind it. *)
Lemma read_chunk_split (W b c : string) :
  (forall r, White_Space r = true -> Upper r = false) ->
  ValidString W = true -> ValidString c = true -> c <> "" ->
  b = last (splitIntoSentences W) "" ->
  splitIntoSentences (W ++ c)
  = (removelast (splitIntoSentences W) ++ splitIntoSentences (b ++ c))%list
  /\ splitIntoSentences (b ++ c) <> []
  /\ ((List.length (splitIntoSentences (b ++ c)) <= 1)%nat ->
      splitIntoSentences (b ++ c) = [b ++ c]).
Proof.
  intros Ht HW Hc Hne ->. split; [now apply split_grow | split].
  - intros E. apply split_nil in E. apply append_empty in E.
    now destruct E.
  - intros Hlen.
    assert (Hv : ValidString (last (splitIntoSentences W) "" ++ c) = true)
      by (apply valid_app; [apply last_piece_valid | exact Hc]).
    pose proof (join_split (last (splitIntoSentences W) "" ++ c)) as Ej.
    rewrite (encode_decode_valid _ Hv) in Ej.
    destruct (splitIntoSentences (last (splitIntoSentences W) "" ++ c))
      as [| x [| y l]] eqn:Es.
    + apply split_nil in Es. apply append_empty in Es. now destruct Es.
    + cbn in Ej. rewrite append_nil_r in Ej. now subst.
    + cbn in Hlen. lia.
Qed.

Lemma reader_inv_same (W : string) (st st' : state) :
  worker st' = worker st -> spoken st' = spoken st ->
  reader_inv W st -> reader_inv W st'.
Proof. unfold reader_inv. now intros -> ->. Qed.

Lemma guardedClose_spoken (st : state) :
  spoken (guardedClose st) = spoken st.
Proof.
  unfold guardedClose, Chan.close.
  destruct (closed st), (Chan.closed (chunkCh st)); reflexivity.
Qed.

Lemma reader_inv_step (W : string) (st : state) (ev : event) :
  TrimSpace "" = "" ->
  (forall r, White_Space r = true -> Upper r = false) ->
  Inv st -> ValidString W = true -> reader_inv W st ->
  calls_succeed ev = true -> valid_read ev = true ->
  reader_inv (W ++ reads st ev) (step st ev)
  /\ ValidString (W ++ reads st ev) = true.
Proof.
  intros Hts Ht I HW HJ Hok Hvr.
  unfold step, reads. rewrite (inv_running st I).
  destruct ev as [cb pick | o | |].
  - rewrite append_nil_r. split; [| exact HW].
    destruct (handle_calls cb pick st) as (E1 & _ & E2 & _).
    now apply (reader_inv_same W st).
  - cbn in Hok, Hvr.
    destruct (call_err o) eqn:Ec; [discriminate |].
    assert (Hr : read_err o = ReadNil \/ read_err o = ReadEOF)
      by (destruct (read_err o); auto; discriminate).
    unfold reader_inv in HJ.
    destruct (worker st) as
        [ | t | | b | b | pending lastS eof | b | | b | | | msg next
          | | | ] eqn:Ew; try contradiction;
      try (rewrite append_nil_r; split; [| exact HW]);
      unfold worker_step; rewrite Ew, ?Ec.
    + (* RSelect *)
      destruct (ctx_done st); unfold reader_inv; cbn; exact HJ.
    + (* RRead *)
      destruct HJ as [Eb Es].
      assert (Ere : match read_err o with
                    | ReadFailed _ => ""
                    | _ => read_chunk o
                    end = read_chunk o)
        by (destruct Hr as [-> | ->]; reflexivity).
      rewrite Ere.
      assert (Hafter : forall text e W',
                 text = last (splitIntoSentences W') "" ->
                 spoken st = speakable (removelast (splitIntoSentences W')) ->
                 reader_inv W' (with_worker st (after_chunk text e))).
      { intros text e W' E1 E2. unfold after_chunk, reader_inv.
        destruct e; cbn; auto. }
      destruct (read_chunk o) as [| ch rest] eqn:Eck.
      * rewrite append_nil_r. split; [| exact HW].
        destruct Hr as [-> | ->]; cbn [String.length Nat.ltb Nat.leb];
          now apply Hafter.
      * rewrite <- Eck in *.
        assert (Hne : read_chunk o <> "") by (rewrite Eck; discriminate).
        assert (Hpos : (0 <? String.length (read_chunk o))%nat = true)
          by (rewrite Eck; reflexivity).
        destruct (read_chunk_split W b (read_chunk o) Ht HW Hvr Hne Eb)
          as (Esp & Hnn & Hone).
        split; [| now apply valid_app].
        assert (Hgoal :
                  reader_inv (W ++ read_chunk o)
                    (if (1 <? List.length
                                (splitIntoSentences (b ++ read_chunk o)))%nat
                     then with_worker st
                            (RSend
                               (removelast
                                  (splitIntoSentences (b ++ read_chunk o)))
                               (last
                                  (splitIntoSentences (b ++ read_chunk o))
                                  "")
                               (match read_err o with
                                | ReadEOF => true
                                | _ => false
                                end))
                     else with_worker st
                            (after_chunk (b ++ read_chunk o)
                               (match read_err o with
                                | ReadEOF => true
                                | _ => false
                                end)))).
        { destruct (Nat.ltb_spec 1
                      (List.length
                         (splitIntoSentences (b ++ read_chunk o))))
            as [Hlt | Hge].
          - unfold reader_inv. cbn [worker with_worker spoken].
            exists (removelast (splitIntoSentences W)).
            split; [| exact Es].
            rewrite Esp. f_equal.
            now apply app_removelast_last.
          - apply Hafter.
            + rewrite Esp, (Hone Hge). now rewrite last_last.
            + rewrite Esp, (Hone Hge). now rewrite removelast_last. }
        destruct Hr as [Hr | Hr]; rewrite Hr in *; rewrite Hpos;
          exact Hgoal.
    + (* RSend *)
      destruct HJ as (sent & Esp & Es).
      destruct pending as [| sentence rest].
      * unfold after_chunk, reader_inv.
        cbn [app] in Esp.
        destruct eof; cbn [worker with_worker spoken];
          rewrite Esp, last_last, removelast_last; auto.
      * unfold reader_inv.
        destruct (nonempty (TrimSpace sentence)) eqn:Hn;
          cbn [worker with_worker speak spoken];
          exists (sent ++ [sentence])%list;
          rewrite speakable_app, speakable_one, Hn, Esp, Es,
            <- app_assoc, ?app_nil_r; auto.
    + (* REof *)
      destruct HJ as [Eb Es]. unfold reader_inv.
      rewrite (speakable_last (splitIntoSentences W) Hts), <- Eb, <- Es.
      destruct (nonempty (TrimSpace b));
        cbn [worker with_worker speak spoken]; now rewrite ?app_nil_r.
    + (* REofFlush *)
      unfold reader_inv. cbn. exact HJ.
    + (* RCancel *)
      destruct HJ as [Eb Es]. unfold reader_inv.
      rewrite (speakable_last (splitIntoSentences W) Hts), <- Eb, <- Es.
      assert (Ec' : (0 <? String.length b)%nat && nonempty (TrimSpace b)
                    = nonempty (TrimSpace b)).
      { destruct b; [| reflexivity]. cbn. now rewrite Hts. }
      rewrite Ec'.
      destruct (nonempty (TrimSpace b));
        cbn [worker with_worker speak spoken]; now rewrite ?app_nil_r.
    + (* RCancelFlush *)
      unfold reader_inv. cbn. exact HJ.
    + (* Wait *)
      destruct (ctx_done st); unfold reader_inv; cbn; rewrite ?Ew; exact HJ.
    + (* DeferFinish *)
      unfold reader_inv. cbn. exact HJ.
    + (* DeferClose *)
      unfold reader_inv. cbn [worker with_worker spoken].
      now rewrite guardedClose_spoken.
    + (* Exit *)
      unfold reader_inv. rewrite Ew. exact HJ.
  - rewrite append_nil_r. split; [| exact HW].
    now apply (reader_inv_same W st).
  - rewrite append_nil_r. split; [| exact HW].
    destruct (receive_calls st) as (E1 & _ & E2 & _).
    now apply (reader_inv_same W st).
Qed.

Lemma reader_inv_run (evs : list event) (W : string) (st : state) :
  TrimSpace "" = "" ->
  (forall r, White_Space r = true -> Upper r = false) ->
  Inv st -> ValidString W = true -> reader_inv W st ->
  forallb calls_succeed evs = true -> forallb valid_read evs = true ->
  reader_inv (W ++ text_read st evs) (run st evs)
  /\ ValidString (W ++ text_read st evs) = true.
Proof.
  intros Hts Ht. revert W st.
  induction evs as [| ev evs IH]; intros W st I HW HJ Hok Hvr.
  - cbn. now rewrite append_nil_r.
  - cbn [forallb] in Hok, Hvr.
    apply andb_prop in Hok. destruct Hok as [Hok1 Hok].
    apply andb_prop in Hvr. destruct Hvr as [Hvr1 Hvr].
    cbn [run fold_left text_read].
    change (fold_left step evs (step st ev)) with (run (step st ev) evs).
    destruct (reader_inv_step W st ev Hts Ht I HW HJ Hok1 Hvr1)
      as [HJ1 HW1].
    rewrite <- append_assoc.
    apply IH; auto using tts_step_inv.
Qed.

(** What has been passed on is the beginning of what is to be passed
    on. *)
Lemma reader_inv_prefix (W : string) (st : state) :
  TrimSpace "" = "" ->
  reader_inv W st ->
  exists rest,
    speakable (splitIntoSentences W) = (spoken st ++ rest)%list.
Proof.
  intros Hts HJ. unfold reader_inv in HJ.
  destruct (worker st); try contradiction;
    try (exists []; now rewrite app_nil_r);
    try (destruct HJ as [Eb Es];
         rewrite (speakable_last (splitIntoSentences W) Hts), <- Es;
         eexists; reflexivity).
  destruct HJ as (sent & Esp & Es).
  rewrite Esp, speakable_app, <- Es. eexists; reflexivity.
Qed.

End Reader.
End ReaderFacts.

(* ================================================================= *)
(** * The segmenter: main results *)

Section SegmenterResults.
Import Utf8 Utf8Facts Unicode Segmenter SegmenterFacts.

Lemma no_boundary_flags `{UnicodeTables} (text : string) (n : nat) :
  forallb (fun i => negb (boundary (stringtoslicerune text) i)) (seq 0 n)
  = true ->
  forall k, (k < n)%nat ->
  nth k (boundaries (stringtoslicerune text)) false = false.
Proof.
  intros Hf k Hk. rewrite forallb_forall in Hf.
  specialize (Hf k). rewrite in_seq in Hf.
  assert (Hb : boundary (stringtoslicerune text) k = false).
  { apply negb_true_iff. apply Hf. lia. }
  unfold boundaries.
  destruct (Nat.lt_ge_cases k (List.length (stringtoslicerune text)))
    as [Hlt | Hge].
  - rewrite (nth_indep _ false (boundary (stringtoslicerune text) 0%nat))
      by now rewrite length_map, length_seq.
    rewrite map_nth, seq_nth by assumption. exact Hb.
  - apply nth_overflow. now rewrite length_map, length_seq.
Qed.

(** A text with no boundary before its last position comes back as one
    piece: its runes written back. *)
Lemma split_single `{UnicodeTables} (text : string) :
  text <> "" ->
  forallb (fun i => negb (boundary (stringtoslicerune text) i))
          (seq 0 (List.length (stringtoslicerune text) - 1)) = true ->
  splitIntoSentences text = [encode_runes (stringtoslicerune text)].
Proof.
  intros Hne Hf. rewrite splitIntoSentences_spec. unfold split_spec.
  rewrite cut_single.
  - reflexivity.
  - unfold boundaries. now rewrite length_map, length_seq.
  - intros k Hk. apply (no_boundary_flags text _ Hf).
    unfold boundaries in Hk. rewrite length_map, length_seq in Hk. lia.
  - cbn [app]. intros E. apply stringtoslicerune_nil in E. contradiction.
Qed.

End SegmenterResults.

(** C5, as stated, fails on ill-formed input: the one-byte text 0xFF has no
    boundary, and yet what comes back is not the input but the three-byte
    encoding of U+FFFD. *)
Lemma split_boundaries_counterexample :
  (forall T : UnicodeTables,
      Segmenter.no_boundary Segmenter.xFF = true
      /\ Segmenter.splitIntoSentences Segmenter.xFF = [Segmenter.xEFBFBD])
  /\ ~ (forall (T : UnicodeTables) (text : string),
          Segmenter.no_boundary text = true -> text <> "" ->
          Segmenter.splitIntoSentences text = [text]).
Proof.
  split; [intros T; split; reflexivity |].
  intros Hall.
  specialize (Hall latin1_only Segmenter.xFF eq_refl).
  assert (Hne : Segmenter.xFF <> "") by discriminate.
  specialize (Hall Hne). vm_compute in Hall. discriminate.
Qed.

(** C5 (amended): [splitIntoSentences] cuts the rune sequence of the text
    exactly after the positions where a '.', '!' or '?' is followed by
    whitespace or end of input, a '.' being no boundary under the
    abbreviation guard or the decimal guard, and returns what follows the
    last boundary as the last element; for well-formed UTF-8 a text without
    boundary comes back whole; and the decimal example holds. *)
Theorem split_boundaries (T : UnicodeTables) (text : string) :
  Segmenter.splitIntoSentences text
  = map Utf8.encode_runes
        (Segmenter.cut (Segmenter.boundaries (Utf8.stringtoslicerune text))
                       (Utf8.stringtoslicerune text) [])
  /\ (Utf8.ValidString text = true ->
      Segmenter.no_boundary text = true -> text <> "" ->
      Segmenter.splitIntoSentences text = [text])
  /\ Segmenter.splitIntoSentences "The price is 3.14 dollars."
     = ["The price is 3.14 dollars."].
Proof.
  split; [apply SegmenterFacts.splitIntoSentences_spec | split].
  - intros Hv Hb Hne. rewrite split_single; auto.
    + now rewrite Utf8Facts.encode_decode_valid.
    + unfold Segmenter.no_boundary in Hb. rewrite forallb_forall in *.
      intros i Hi. apply Hb. rewrite in_seq in *. lia.
  - vm_compute. reflexivity.
Qed.

Lemma split_boundaries_witness :
  Utf8.ValidString "Hello world" = true
  /\ Segmenter.no_boundary (H := latin1_only) "Hello world" = true
  /\ Segmenter.splitIntoSentences (H := latin1_only) "Hello world"
     = ["Hello world"].
Proof.
  split; [reflexivity | split; [reflexivity |]].
  apply (proj1 (proj2 (split_boundaries latin1_only "Hello world")));
    [reflexivity | reflexivity | discriminate].
Defined.

(** C6, as stated, fails on ill-formed input: the bytes 0xFF '!' end in
    sentence-final punctuation and hold no earlier boundary, but the single
    element returned is EF BF BD '!', not the input. *)
Lemma single_sentence_counterexample :
  (forall T : UnicodeTables,
      Segmenter.complete_sentence (Segmenter.xFF ++ "!") = true
      /\ Segmenter.splitIntoSentences (Segmenter.xFF ++ "!")
         = [Segmenter.xEFBFBD ++ "!"])
  /\ ~ (forall (T : UnicodeTables) (text : string),
          Segmenter.complete_sentence text = true ->
          Segmenter.splitIntoSentences text = [text]).
Proof.
  split; [intros T; split; reflexivity |].
  intros Hall.
  specialize (Hall latin1_only (Segmenter.xFF ++ "!") eq_refl).
  vm_compute in Hall. discriminate.
Qed.

(** C6 (amended): for every well-formed UTF-8 string that is a single
    complete sentence, [splitIntoSentences] returns exactly one element,
    equal to the input. *)
Theorem single_sentence (T : UnicodeTables) (text : string) :
  Utf8.ValidString text = true ->
  Segmenter.complete_sentence text = true ->
  Segmenter.splitIntoSentences text = [text].
Proof.
  intros Hv Hc. unfold Segmenter.complete_sentence in Hc.
  apply andb_prop in Hc. destruct Hc as [Hlast Hf].
  rewrite split_single; auto.
  - now rewrite Utf8Facts.encode_decode_valid.
  - intros ->. discriminate.
Qed.

Lemma single_sentence_witness :
  Utf8.ValidString "Hello world." = true
  /\ Segmenter.complete_sentence (H := latin1_only) "Hello world." = true
  /\ Segmenter.splitIntoSentences (H := latin1_only) "Hello world."
     = ["Hello world."].
Proof.
  split; [reflexivity | split; [reflexivity |]].
  apply (single_sentence latin1_only "Hello world."); reflexivity.
Defined.

(** C7: "Dr. Smith is here." is split after "Dr.": the letter before the
    dot is lowercase, so the abbreviation guard does not apply. *)
Theorem split_abbreviation (T : UnicodeTables) :
  Segmenter.splitIntoSentences "Dr. Smith is here."
  = ["Dr."; " Smith is here."]
  /\ Unicode.IsUpper 114 = false
  /\ Segmenter.abbreviation_guard
       (Utf8.stringtoslicerune "Dr. Smith is here.") 2 = false
  /\ Segmenter.boundary (Utf8.stringtoslicerune "Dr. Smith is here.") 2 = true.
Proof.
  repeat split; vm_compute; reflexivity.
Qed.

(** C10, as stated, fails on ill-formed input: the one-byte text 0xFF comes
    back as the single piece EF BF BD, so the pieces do not put together to
    the text. *)
Lemma split_join_counterexample :
  (forall T : UnicodeTables,
      Segmenter.join (Segmenter.splitIntoSentences Segmenter.xFF)
      = Segmenter.xEFBFBD)
  /\ ~ (forall (T : UnicodeTables) (text : string),
          Segmenter.join (Segmenter.splitIntoSentences text) = text).
Proof.
  split; [intros T; reflexivity |].
  intros Hall. specialize (Hall latin1_only Segmenter.xFF).
  vm_compute in Hall. discriminate.
Qed.

(** C10 (amended): the elements returned, put together in order, are the
    runes of the input written back, which is the input itself when it is
    well-formed UTF-8; the result is empty exactly when the input is. *)
Theorem split_join (T : UnicodeTables) (text : string) :
  Segmenter.join (Segmenter.splitIntoSentences text)
  = Utf8.encode_runes (Utf8.stringtoslicerune text)
  /\ (Utf8.ValidString text = true ->
      Segmenter.join (Segmenter.splitIntoSentences text) = text)
  /\ (Segmenter.splitIntoSentences text = [] <-> text = "").
Proof.
  split; [apply SegmenterFacts.join_split | split].
  - intros Hv. rewrite SegmenterFacts.join_split.
    now apply Utf8Facts.encode_decode_valid.
  - apply SegmenterFacts.split_nil.
Qed.

Lemma split_join_witness :
  Utf8.ValidString "Wait... what? OK. 3.5" = true
  /\ Segmenter.join
       (Segmenter.splitIntoSentences (H := latin1_only) "Wait... what? OK. 3.5")
     = "Wait... what? OK. 3.5".
Proof.
  split; [reflexivity |].
  apply (proj1 (proj2 (split_join latin1_only "Wait... what? OK. 3.5")));
    reflexivity.
Defined.

(* ================================================================= *)
(** * The streaming bridges: main results *)

(** C1: the STT callback handler sends without looking at any flag.  After
    the caller has closed the writer of a connected stream, the next
    callback that carries an event sends on the closed channel and
    panics. *)
Theorem stt_callback_after_close_panics
        (M : Type) (conv : M -> STT.StreamEvent) (pick : bool) :
  let closed_ := STT.run conv (fst (STT.TranscribeStream connected))
                         [STT.CallerClose] in
  STT.crashed closed_ = None
  /\ Chan.closed (STT.eventCh closed_) = true
  /\ STT.crashed (STT.step conv closed_ (STT.Callback STT.UtteranceEnd pick))
     = Some SendOnClosedChannel.
Proof. cbn. repeat split. Qed.

(** C2: whatever happens on a connected stream, the channel is closed at
    most once and never twice: on the STT side the number of closes and of
    session stops is 1 as soon as [Close] has been called, by the caller,
    by the context watcher or by both, and 0 before; on the TTS side it is
    1, together with the number of [Finish] calls, exactly when the
    goroutine has run its deferred function, which it does within a bounded
    number of its steps once the context is cancelled. *)
Theorem closed_exactly_once
        (T : UnicodeTables) (L : Strings)
        (M : Type) (conv : M -> STT.StreamEvent) :
  (forall evs : list STT.event,
      let st := STT.run conv (fst (STT.TranscribeStream connected)) evs in
      STT.closes st = Nat.min 1 (STT.close_calls st)
      /\ STT.stops st = Nat.min 1 (STT.close_calls st)
      /\ Chan.closed (STT.eventCh st) = (0 <? STT.close_calls st)%nat
      /\ STT.crashed st <> Some CloseOfClosedChannel)
  /\ (let both := STT.run conv (fst (STT.TranscribeStream connected))
                    [STT.Cancel; STT.Watcher false; STT.CallerClose;
                     STT.Watcher false] in
      STT.close_calls both = 2%nat /\ STT.closes both = 1%nat
      /\ STT.stops both = 1%nat /\ STT.crashed both = None)
  /\ (forall (c : TTS.call) (evs : list TTS.event),
      let st := TTS.run (fst (TTS.start connected c)) evs in
      TTS.closes st = (if TTSInv.exited (TTS.worker st) then 1 else 0)%nat
      /\ TTS.finishes st
         = (if TTSInv.finished (TTS.worker st) then 1 else 0)%nat
      /\ Chan.closed (TTS.chunkCh st) = TTSInv.exited (TTS.worker st)
      /\ TTS.crashed st = None)
  /\ (forall (c : TTS.call) (evs post : list TTS.event),
      let st := TTS.run (fst (TTS.start connected c)) evs in
      TTS.ctx_done st = true ->
      TTSInv.reading (TTS.worker st) = false ->
      (TTSInv.steps_to_exit (TTS.worker st) <= TTS.worker_steps post)%nat ->
      let st' := TTS.run st post in
      TTS.worker st' = TTS.Exit
      /\ TTS.closes st' = 1%nat /\ TTS.finishes st' = 1%nat
      /\ Chan.closed (TTS.chunkCh st') = true).
Proof.
  split; [| split; [| split]].
  - intros evs st.
    pose proof (STTFacts.stt_run_inv conv evs _ STTFacts.stt_start_inv) as I.
    fold st in I. destruct I. repeat split; auto. congruence.
  - cbn. repeat split.
  - intros c evs st.
    pose proof (TTSFacts.tts_run_inv evs _ (TTSFacts.tts_start_inv c)) as I.
    fold st in I. destruct I. repeat split; auto. congruence.
  - intros c evs post st Hctx Hr Hn st'.
    pose proof (TTSFacts.tts_run_inv evs _ (TTSFacts.tts_start_inv c)) as I.
    fold st in I.
    pose proof (TTSFacts.tts_reaches_exit post st I Hctx Hr Hn) as He.
    fold st' in He.
    pose proof (TTSFacts.tts_run_inv post st I) as I'. fold st' in I'.
    destruct I'. rewrite He in *. cbn in *. repeat split; auto. congruence.
Qed.

Lemma closed_exactly_once_witness :
  let evs := [TTS.Worker TTS.ok;
              TTS.Worker {| call_err := None; read_chunk := "One. Two";
                            read_err := ReadEOF; pick_done := false |};
              TTS.Cancel] in
  let st := TTS.run (H := latin1_only) (H0 := ascii_strings)
              (fst (TTS.start connected TTS.SynthesizeFromReader)) evs in
  let st' := TTS.run (H := latin1_only) (H0 := ascii_strings) st
               (repeat (TTS.Worker TTS.ok) 9) in
  TTS.worker st = TTS.RSend ["One."] " Two" true
  /\ TTS.ctx_done st = true
  /\ TTS.spoken st' = ["One."; "Two"]
  /\ TTS.worker st' = TTS.Exit /\ TTS.closes st' = 1%nat.
Proof.
  cbv zeta. split; [reflexivity | split; [reflexivity | split; [reflexivity |]]].
  pose proof (proj2 (proj2 (proj2
                (closed_exactly_once latin1_only ascii_strings unit
                   (fun _ => STT.speechStart))))
              TTS.SynthesizeFromReader
              [TTS.Worker TTS.ok;
               TTS.Worker {| call_err := None; read_chunk := "One. Two";
                             read_err := ReadEOF; pick_done := false |};
               TTS.Cancel]
              (repeat (TTS.Worker TTS.ok) 9)
              eq_refl eq_refl ltac:(vm_compute; lia)) as W.
  cbv zeta in W. destruct W as (W1 & W2 & _). split; assumption.
Defined.

(** C3, as stated, fails: with a consumer that does not read in time the
    channel is full when the flush acknowledgement arrives, the final
    marker is dropped, and a run without error or early cancellation ends
    with the channel closed, the 100 pieces of audio delivered and no final
    marker. *)
Lemma final_marker_counterexample :
  (forall (T : UnicodeTables) (L : Strings),
      let st := TTS.run (fst (TTS.start connected (TTS.SynthesizeStream "hi")))
                        TTS.slow_consumer in
      TTS.graceful TTS.slow_consumer = true
      /\ TTS.crashed st = None
      /\ TTS.worker st = TTS.Exit
      /\ TTS.saw_close st = true
      /\ TTS.received st = repeat (TTS.audioChunk "a") 100)
  /\ ~ (forall (T : UnicodeTables) (L : Strings) (c : TTS.call)
              (evs : list TTS.event),
          TTS.graceful evs = true ->
          TTS.saw_close (TTS.run (fst (TTS.start connected c)) evs) = true ->
          existsb TTS.IsFinal
                  (TTS.received (TTS.run (fst (TTS.start connected c)) evs))
          = true).
Proof.
  split; [intros T L; cbv zeta; repeat split; vm_compute; reflexivity |].
  intros Hall.
  specialize (Hall latin1_only ascii_strings (TTS.SynthesizeStream "hi")
                   TTS.slow_consumer).
  assert (Hg : TTS.graceful TTS.slow_consumer = true) by (vm_compute; reflexivity).
  specialize (Hall Hg). vm_compute in Hall.
  specialize (Hall eq_refl). discriminate.
Qed.

(** C3 (amended): the goroutine asks for at most one flush, and no more
    final markers are put on the channel than the provider acknowledges
    flushes, so at most one when it acknowledges once; an acknowledgement
    that finds the handler open, the context live and a free slot puts the
    final marker on the channel, where it is the last non-error item the
    consumer reads before it sees the channel closed, provided the provider
    sends nothing after it; an acknowledgement that finds the channel full
    is dropped. *)
Theorem final_marker
        (T : UnicodeTables) (L : Strings) (c : TTS.call)
        (evs post : list TTS.event) (pick : bool) :
  let st := TTS.run (fst (TTS.start connected c)) evs in
  (TTS.finals (TTS.produced st) <= TTS.flush_acks evs)%nat
  /\ (TTS.flushes st <= 1)%nat
  /\ (List.length (Chan.buf (TTS.chunkCh st)) = 100%nat ->
      TTS.step st (TTS.Callback TTS.Flush pick) = st)
  /\ (TTS.closed st = false -> TTS.ctx_done st = false ->
      (List.length (Chan.buf (TTS.chunkCh st)) < 100)%nat ->
      forallb (fun ev => negb (TTS.is_callback ev)) post = true ->
      let st' := TTS.run (TTS.step st (TTS.Callback TTS.Flush pick)) post in
      TTS.non_errors (TTS.produced st')
      = (TTS.non_errors (TTS.produced st) ++ [TTS.finalChunk])%list
      /\ (TTS.saw_close st' = true ->
          TTS.non_errors (TTS.received st')
          = (TTS.non_errors (TTS.produced st) ++ [TTS.finalChunk])%list)).
Proof.
  intros st.
  pose proof (TTSFacts.tts_run_inv evs _ (TTSFacts.tts_start_inv c)) as I. fold st in I.
  split; [| split; [| split]].
  - pose proof (TTSFacts.run_finals evs _ (TTSFacts.tts_start_inv c)) as Hf.
    fold st in Hf. cbn in Hf. exact Hf.
  - pose proof (TTSInv.inv_flushes st I). lia.
  - intros Hfull. unfold TTS.step. rewrite (TTSInv.inv_running st I).
    cbn [TTS.handle]. apply TTSFacts.sendChunk_full.
    + apply (TTSInv.inv_flag st I).
    + rewrite (TTSInv.inv_cap st I). lia.
  - intros Hc Hctx Hroom Hq st'.
    assert (Es : TTS.step st (TTS.Callback TTS.Flush pick)
                 = TTS.with_chunkCh st
                     {| Chan.buf := (Chan.buf (TTS.chunkCh st)
                                     ++ [TTS.finalChunk])%list;
                        Chan.cap := Chan.cap (TTS.chunkCh st);
                        Chan.closed := false |}).
    { unfold TTS.step. rewrite (TTSInv.inv_running st I). cbn [TTS.handle].
      apply TTSFacts.sendChunk_room; auto.
      - rewrite (TTSInv.inv_flag st I). exact Hc.
      - rewrite (TTSInv.inv_cap st I). exact Hroom. }
    pose proof (TTSFacts.tts_step_inv st (TTS.Callback TTS.Flush pick) I) as I1.
    pose proof (TTSFacts.run_quiet post _ I1 Hq) as Eq. fold st' in Eq.
    assert (Ep : TTS.non_errors
                   (TTS.produced (TTS.step st (TTS.Callback TTS.Flush pick)))
                 = (TTS.non_errors (TTS.produced st) ++ [TTS.finalChunk])%list).
    { rewrite Es. unfold TTS.produced. cbn [TTS.with_chunkCh TTS.received
        TTS.chunkCh Chan.buf]. rewrite app_assoc.
      now rewrite TTSFacts.non_errors_app. }
    rewrite Ep in Eq. split; [exact Eq |].
    intros Hs.
    pose proof (TTSFacts.tts_run_inv post _ I1) as I2. fold st' in I2.
    destruct (TTSInv.inv_drained st' I2 Hs) as [_ Hb].
    rewrite <- Eq. unfold TTS.produced. rewrite Hb. now rewrite app_nil_r.
Qed.

Lemma final_marker_witness :
  let evs := [TTS.Worker TTS.ok; TTS.Worker TTS.ok; TTS.offer ("a", false)] in
  let post := [TTS.Cancel; TTS.Worker TTS.ok; TTS.Worker TTS.ok;
               TTS.Worker TTS.ok; TTS.Receive; TTS.Receive; TTS.Receive] in
  let st := TTS.run (H := latin1_only) (H0 := ascii_strings)
              (fst (TTS.start connected (TTS.SynthesizeStream "hi"))) evs in
  let st' := TTS.run (H := latin1_only) (H0 := ascii_strings)
               (TTS.step (H := latin1_only) (H0 := ascii_strings)
                         st (TTS.Callback TTS.Flush false)) post in
  TTS.closed st = false /\ TTS.ctx_done st = false
  /\ (List.length (Chan.buf (TTS.chunkCh st)) < 100)%nat
  /\ TTS.saw_close st' = true
  /\ TTS.non_errors (TTS.received st')
     = [TTS.audioChunk "a"; TTS.finalChunk].
Proof.
  cbv zeta.
  split; [reflexivity | split; [reflexivity | split; [cbn; lia |]]].
  split; [reflexivity |].
  apply (proj2 (proj2 (proj2 (proj2
           (final_marker latin1_only ascii_strings (TTS.SynthesizeStream "hi")
              [TTS.Worker TTS.ok; TTS.Worker TTS.ok; TTS.offer ("a", false)]
              [TTS.Cancel; TTS.Worker TTS.ok; TTS.Worker TTS.ok;
               TTS.Worker TTS.ok; TTS.Receive; TTS.Receive; TTS.Receive]
              false))) eq_refl eq_refl ltac:(cbn; lia) eq_refl)).
  reflexivity.
Defined.

(** C4: when the client cannot be created or [Connect] fails, each of the
    three streaming operations returns an error and no channel, leaves the
    channel closed and empty without starting anything, and nothing is
    ever read from that channel. *)
Theorem connection_failure
        (T : UnicodeTables) (L : Strings)
        (M : Type) (conv : M -> STT.StreamEvent) (env : connect_env) :
  connection_fails env = true ->
  (forall (c : TTS.call) (evs : list TTS.event),
      let st0 := fst (TTS.start env c) in
      let res := snd (TTS.start env c) in
      TTS.err res <> None /\ TTS.returned_channel res = false
      /\ Chan.closed (TTS.chunkCh st0) = true
      /\ Chan.buf (TTS.chunkCh st0) = []
      /\ TTS.worker st0 = TTS.NotStarted
      /\ TTS.received (TTS.run st0 evs) = []
      /\ Chan.buf (TTS.chunkCh (TTS.run st0 evs)) = [])
  /\ (forall evs : list STT.event,
      let st0 := fst (STT.TranscribeStream env) in
      let res := snd (STT.TranscribeStream env) in
      STT.err res <> None /\ STT.returned_channel res = false
      /\ STT.returned_writer res = false
      /\ Chan.closed (STT.eventCh st0) = true
      /\ Chan.buf (STT.eventCh st0) = []
      /\ STT.watcher st0 = STT.NoWatcher
      /\ STT.received (STT.run conv st0 evs) = []
      /\ Chan.buf (STT.eventCh (STT.run conv st0 evs)) = []).
Proof.
  intros Hf. split.
  - intros c evs st0 res.
    pose proof (TTSFacts.tts_start_unused env c Hf) as U0.
    pose proof (TTSFacts.tts_run_unused evs _ U0) as U.
    destruct U0, U. subst st0 res.
    repeat split; auto;
      destruct env as [[e |] okc]; cbn in Hf |- *;
      try discriminate; try reflexivity;
      apply negb_true_iff in Hf; subst okc; cbn;
      try discriminate; reflexivity.
  - intros evs st0 res.
    pose proof (STTFacts.stt_start_unused env Hf) as U0.
    pose proof (STTFacts.stt_run_unused conv evs _ U0) as U.
    destruct U0, U. subst st0 res.
    repeat split; auto;
      destruct env as [[e |] okc]; cbn in Hf |- *;
      try discriminate; try reflexivity;
      apply negb_true_iff in Hf; subst okc; cbn;
      try discriminate; reflexivity.
Qed.

Lemma connection_failure_witness :
  let env := {| new_client_err := None; connect_ok := false |} in
  connection_fails env = true
  /\ TTS.err (snd (TTS.start env TTS.SynthesizeFromReader)) <> None
  /\ TTS.received
       (TTS.run (H := latin1_only) (H0 := ascii_strings)
                (fst (TTS.start env TTS.SynthesizeFromReader))
                [TTS.Receive; TTS.Callback TTS.Flush false; TTS.Receive])
     = [].
Proof.
  cbv zeta. split; [reflexivity |].
  pose proof (proj1 (connection_failure latin1_only ascii_strings unit
                       (fun _ => STT.speechStart)
                       {| new_client_err := None; connect_ok := false |}
                       eq_refl)
                    TTS.SynthesizeFromReader
                    [TTS.Receive; TTS.Callback TTS.Flush false; TTS.Receive])
    as W.
  cbv zeta in W. split; [apply W | apply W].
Defined.



(** C9: on a connected stream, a [Write] that finds the writer closed
    returns 0 and the closed-pipe error and hands nothing to the session;
    the writer is closed, for good, from the first [Close] on; a [Write]
    that finds the writer open hands its bytes to the session. *)
Theorem write_after_close
        (M : Type) (conv : M -> STT.StreamEvent)
        (evs : list STT.event) (p : string) :
  let st := STT.run conv (fst (STT.TranscribeStream connected)) evs in
  STT.crashed st = None ->
  (STT.closed st = true ->
   let st' := STT.step conv st (STT.WriteBegin p) in
   STT.write_results st'
   = (STT.write_results st ++ [(0, Some STT.ErrClosedPipe)])%list
   /\ STT.session st' = STT.session st
   /\ STT.in_flight st' = STT.in_flight st)
  /\ (STT.closed (STT.step conv st STT.CallerClose) = true
      /\ forall later : list STT.event,
          STT.closed st = true -> STT.closed (STT.run conv st later) = true)
  /\ (STT.closed st = false ->
      let st' := STT.step conv st (STT.WriteBegin p) in
      STT.in_flight st' = (STT.in_flight st ++ [p])%list
      /\ STT.write_results st' = STT.write_results st
      /\ (STT.in_flight st = [] ->
          forall res : Z * option string,
            let st'' := STT.step conv st' (STT.WriteForward res) in
            STT.session st'' = (STT.session st ++ [p])%list
            /\ STT.write_results st''
               = (STT.write_results st ++ [res])%list)).
Proof.
  intros st Hrun. split; [| split].
  - intros Hc st'. subst st'. unfold STT.step. rewrite Hrun.
    unfold STT.write_begin. rewrite Hc. cbn. auto.
  - split.
    + unfold STT.step. rewrite Hrun. apply STTFacts.Close_closed.
    + intros later Hc. now apply STTFacts.run_closed.
  - intros Hc st'.
    assert (Es : st' = STT.write_begin p st).
    { subst st'. unfold STT.step. now rewrite Hrun. }
    rewrite Es. unfold STT.write_begin. rewrite Hc.
    cbn [STT.in_flight STT.write_results].
    split; [reflexivity | split; [reflexivity |]].
    intros He res. unfold STT.step.
    cbn [STT.crashed]. rewrite Hrun. unfold STT.write_forward.
    cbn [STT.in_flight]. rewrite He. cbn. auto.
Qed.

Lemma write_after_close_witness :
  let st := STT.run (fun _ : unit => STT.speechStart)
              (fst (STT.TranscribeStream connected))
              [STT.WriteBegin "abc"; STT.WriteForward (3, None);
               STT.CallerClose] in
  STT.crashed st = None /\ STT.closed st = true
  /\ STT.write_results
       (STT.step (fun _ : unit => STT.speechStart) st (STT.WriteBegin "def"))
     = [(3, None); (0, Some STT.ErrClosedPipe)]
  /\ STT.session
       (STT.step (fun _ : unit => STT.speechStart) st (STT.WriteBegin "def"))
     = ["abc"].
Proof.
  cbv zeta. split; [reflexivity | split; [reflexivity |]].
  pose proof (proj1 (write_after_close unit (fun _ => STT.speechStart)
                       [STT.WriteBegin "abc"; STT.WriteForward (3, None);
                        STT.CallerClose] "def" eq_refl) eq_refl) as W.
  cbv zeta in W. destruct W as (W1 & W2 & _).
  split; [exact W1 | exact W2].
Defined.

(* ================================================================= *)
(** * Further results: package omnivoice and the providers *)

(** X1: [mapTTSEncoding] never returns the empty string, leaves the names
    Deepgram knows as they are, and applying it twice is the same as
    applying it once. *)
Theorem mapTTSEncoding_normalises (format : string) :
  Omnivoice.mapTTSEncoding format <> ""
  /\ Omnivoice.mapTTSEncoding (Omnivoice.mapTTSEncoding format)
     = Omnivoice.mapTTSEncoding format
  /\ (In format Omnivoice.ttsEncodings ->
      Omnivoice.mapTTSEncoding format = format).
Proof.
  split; [apply OmnivoiceFacts.mapTTSEncoding_nonempty | split].
  - apply OmnivoiceFacts.mapTTSEncoding_idem.
  - apply OmnivoiceFacts.mapTTSEncoding_fixes_names.
Qed.

Lemma mapTTSEncoding_normalises_witness :
  In "opus" Omnivoice.ttsEncodings /\ Omnivoice.mapTTSEncoding "opus" = "opus".
Proof.
  split; [cbn; tauto |].
  apply (proj2 (proj2 (mapTTSEncoding_normalises "opus"))). cbn. tauto.
Defined.

(** X2: [mapEncoding] never returns the empty string and applying it twice
    is the same as applying it once; it gives the same answer as
    [mapTTSEncoding] on every name but "wav", which only the latter turns
    into "linear16". *)
Theorem mapEncoding_normalises (encoding : string) :
  Omnivoice.mapEncoding encoding <> ""
  /\ Omnivoice.mapEncoding (Omnivoice.mapEncoding encoding)
     = Omnivoice.mapEncoding encoding
  /\ (encoding <> "wav" ->
      Omnivoice.mapEncoding encoding = Omnivoice.mapTTSEncoding encoding)
  /\ Omnivoice.mapEncoding "wav" = "wav"
  /\ Omnivoice.mapTTSEncoding "wav" = "linear16".
Proof.
  split; [apply OmnivoiceFacts.mapEncoding_nonempty | split; [| split]].
  - apply OmnivoiceFacts.mapEncoding_idem.
  - apply OmnivoiceFacts.encodings_agree.
  - split; reflexivity.
Qed.

Lemma mapEncoding_normalises_witness :
  "g711u" <> "wav"
  /\ Omnivoice.mapEncoding "g711u" = Omnivoice.mapTTSEncoding "g711u".
Proof.
  split; [discriminate |].
  apply (proj1 (proj2 (proj2 (mapEncoding_normalises "g711u")))).
  discriminate.
Defined.

(** X3: the model put in the speak options is never empty: it is the
    configured model when there is one, else the voice id when there is
    one, else the default model; the encoding is the mapped output format
    and the sample rate is passed on; the REST and the websocket builder
    agree on all three. *)
Theorem speak_options_model (config : Omnivoice.SynthesisConfig.t) :
  let opts := Omnivoice.ConfigToSpeakOptions config in
  let ws := Omnivoice.ConfigToWSSpeakOptions config in
  Omnivoice.SpeakOptions.Model opts <> ""
  /\ (Omnivoice.SynthesisConfig.Model config <> "" ->
      Omnivoice.SpeakOptions.Model opts
      = Omnivoice.SynthesisConfig.Model config)
  /\ (Omnivoice.SynthesisConfig.Model config = "" ->
      Omnivoice.SynthesisConfig.VoiceID config <> "" ->
      Omnivoice.SpeakOptions.Model opts
      = Omnivoice.SynthesisConfig.VoiceID config)
  /\ (Omnivoice.SynthesisConfig.Model config = "" ->
      Omnivoice.SynthesisConfig.VoiceID config = "" ->
      Omnivoice.SpeakOptions.Model opts = Omnivoice.DefaultTTSModel)
  /\ Omnivoice.SpeakOptions.Encoding opts <> ""
  /\ Omnivoice.WSSpeakOptions.Model ws = Omnivoice.SpeakOptions.Model opts
  /\ Omnivoice.WSSpeakOptions.Encoding ws
     = Omnivoice.SpeakOptions.Encoding opts
  /\ Omnivoice.WSSpeakOptions.SampleRate ws
     = Omnivoice.SynthesisConfig.SampleRate config
  /\ Omnivoice.SpeakOptions.SampleRate opts
     = Omnivoice.SynthesisConfig.SampleRate config.
Proof.
  cbn. destruct (OmnivoiceFacts.pick_model_cases config) as (H1 & H2 & H3).
  repeat split; auto.
  - apply OmnivoiceFacts.pick_model_nonempty.
  - apply OmnivoiceFacts.mapTTSEncoding_nonempty.
Qed.

Lemma speak_options_model_witness :
  let config := {| Omnivoice.SynthesisConfig.VoiceID := "aura-orion-en";
                   Omnivoice.SynthesisConfig.Model := "";
                   Omnivoice.SynthesisConfig.OutputFormat := "wav";
                   Omnivoice.SynthesisConfig.SampleRate := 0 |} in
  Omnivoice.SynthesisConfig.Model config = ""
  /\ Omnivoice.SynthesisConfig.VoiceID config <> ""
  /\ Omnivoice.SpeakOptions.Model (Omnivoice.ConfigToSpeakOptions config)
     = "aura-orion-en".
Proof.
  cbv zeta. split; [reflexivity | split; [discriminate |]].
  apply (proj1 (proj2 (proj2 (speak_options_model
           {| Omnivoice.SynthesisConfig.VoiceID := "aura-orion-en";
              Omnivoice.SynthesisConfig.Model := "";
              Omnivoice.SynthesisConfig.OutputFormat := "wav";
              Omnivoice.SynthesisConfig.SampleRate := 0 |}))));
    [reflexivity | discriminate].
Defined.

(** X4: the live transcription options never carry a zero sample rate, a
    zero channel count, or an empty model, language or encoding: what the
    configuration leaves unset becomes 8000 Hz, 1 channel, "nova-2",
    "en-US", "linear16", and what it sets is kept; interim results and
    smart formatting are always on, and a diarization version is given
    only when diarization is on. *)
Theorem live_options_defaults (config : Omnivoice.TranscriptionConfig.t) :
  let opts := Omnivoice.ConfigToLiveTranscriptionOptions config in
  Omnivoice.LiveTranscriptionOptions.SampleRate opts <> 0
  /\ Omnivoice.LiveTranscriptionOptions.Channels opts <> 0
  /\ Omnivoice.LiveTranscriptionOptions.Model opts <> ""
  /\ Omnivoice.LiveTranscriptionOptions.Language opts <> ""
  /\ Omnivoice.LiveTranscriptionOptions.Encoding opts <> ""
  /\ (Omnivoice.TranscriptionConfig.SampleRate config <> 0 ->
      Omnivoice.LiveTranscriptionOptions.SampleRate opts
      = Omnivoice.TranscriptionConfig.SampleRate config)
  /\ (Omnivoice.TranscriptionConfig.Channels config <> 0 ->
      Omnivoice.LiveTranscriptionOptions.Channels opts
      = Omnivoice.TranscriptionConfig.Channels config)
  /\ (Omnivoice.TranscriptionConfig.Model config <> "" ->
      Omnivoice.LiveTranscriptionOptions.Model opts
      = Omnivoice.TranscriptionConfig.Model config)
  /\ (Omnivoice.TranscriptionConfig.Language config <> "" ->
      Omnivoice.LiveTranscriptionOptions.Language opts
      = Omnivoice.TranscriptionConfig.Language config)
  /\ Omnivoice.LiveTranscriptionOptions.InterimResults opts = true
  /\ Omnivoice.LiveTranscriptionOptions.SmartFormat opts = true
  /\ (Omnivoice.LiveTranscriptionOptions.DiarizeVersion opts <> "" ->
      Omnivoice.LiveTranscriptionOptions.Diarize opts = true
      /\ 0 < Omnivoice.TranscriptionConfig.MaxSpeakers config).
Proof.
  cbn. unfold Omnivoice.eqs.
  destruct (Z.eqb_spec (Omnivoice.TranscriptionConfig.SampleRate config) 0);
    destruct (Z.eqb_spec (Omnivoice.TranscriptionConfig.Channels config) 0);
    destruct (String.eqb_spec (Omnivoice.TranscriptionConfig.Model config) "");
    destruct (String.eqb_spec (Omnivoice.TranscriptionConfig.Language config)
                              "");
    destruct (Omnivoice.TranscriptionConfig.EnableSpeakerDiarization config);
    destruct (Z.ltb_spec 0 (Omnivoice.TranscriptionConfig.MaxSpeakers config));
    cbn; repeat split; auto; try discriminate; try congruence; try lia;
    try apply OmnivoiceFacts.mapEncoding_nonempty.
Qed.

Lemma live_options_defaults_witness :
  let config := {| Omnivoice.TranscriptionConfig.Encoding := "ulaw";
                   Omnivoice.TranscriptionConfig.SampleRate := 16000;
                   Omnivoice.TranscriptionConfig.Channels := 0;
                   Omnivoice.TranscriptionConfig.Model := "";
                   Omnivoice.TranscriptionConfig.Language := "";
                   Omnivoice.TranscriptionConfig.EnablePunctuation := true;
                   Omnivoice.TranscriptionConfig.EnableSpeakerDiarization
                     := false;
                   Omnivoice.TranscriptionConfig.MaxSpeakers := 2;
                   Omnivoice.TranscriptionConfig.Keywords := [] |} in
  Omnivoice.TranscriptionConfig.SampleRate config <> 0
  /\ Omnivoice.LiveTranscriptionOptions.SampleRate
       (Omnivoice.ConfigToLiveTranscriptionOptions config) = 16000.
Proof.
  cbv zeta. split; [discriminate |].
  apply (proj1 (proj2 (proj2 (proj2 (proj2 (proj2 (live_options_defaults
           {| Omnivoice.TranscriptionConfig.Encoding := "ulaw";
              Omnivoice.TranscriptionConfig.SampleRate := 16000;
              Omnivoice.TranscriptionConfig.Channels := 0;
              Omnivoice.TranscriptionConfig.Model := "";
              Omnivoice.TranscriptionConfig.Language := "";
              Omnivoice.TranscriptionConfig.EnablePunctuation := true;
              Omnivoice.TranscriptionConfig.EnableSpeakerDiarization := false;
              Omnivoice.TranscriptionConfig.MaxSpeakers := 2;
              Omnivoice.TranscriptionConfig.Keywords := [] |}))))))).
  discriminate.
Defined.



(** X6: [itoa] returns for every [int] except the smallest one: on
    [-2^63] the negation in [itoa(-i)] gives [-2^63] back and the
    recursion never ends. *)
Theorem itoa_returns_iff (i : Z) :
  Omnivoice.minInt <= i <= Omnivoice.maxInt ->
  ((exists fuel s, Omnivoice.itoa fuel i = Some s) <-> i <> Omnivoice.minInt).
Proof.
  intros Hi. split.
  - intros (fuel & s & E) ->. now rewrite OmnivoiceFacts.itoa_minInt in E.
  - intros Hne. destruct (OmnivoiceFacts.itoa_atoi 0 i) as (s & E & _);
      [lia |]. now exists 2%nat, s.
Qed.

Lemma itoa_returns_iff_witness :
  Omnivoice.minInt <= 42 <= Omnivoice.maxInt
  /\ exists fuel s, Omnivoice.itoa fuel 42 = Some s.
Proof.
  assert (H : Omnivoice.minInt <= 42 <= Omnivoice.maxInt)
    by (vm_compute; split; discriminate).
  split; [exact H |].
  apply (proj2 (itoa_returns_iff 42 H)). vm_compute. discriminate.
Defined.

(** X7: two speakers get the same label only when they are the same
    speaker. *)
Theorem formatSpeaker_injective (a b : Z) (label : string) :
  Omnivoice.minInt < a <= Omnivoice.maxInt ->
  Omnivoice.minInt < b <= Omnivoice.maxInt ->
  Omnivoice.formatSpeaker 2 a = Some label ->
  Omnivoice.formatSpeaker 2 b = Some label ->
  a = b.
Proof.
  intros Ha Hb. unfold Omnivoice.formatSpeaker.
  destruct (OmnivoiceFacts.itoa_atoi 0 a Ha) as (sa & Ea & Va).
  destruct (OmnivoiceFacts.itoa_atoi 0 b Hb) as (sb & Eb & Vb).
  rewrite Ea, Eb. intros E1 E2.
  inversion E1 as [La]. inversion E2 as [Lb]. congruence.
Qed.

Lemma formatSpeaker_injective_witness :
  Omnivoice.formatSpeaker 2 3 = Some "speaker_3" /\ 3 = 3.
Proof.
  split; [reflexivity |].
  apply (formatSpeaker_injective 3 3 "speaker_3");
    try reflexivity; vm_compute; split; try reflexivity; discriminate.
Defined.



(** X9: [GetVoice] answers with a voice exactly for the ids of the table:
    the voice found has the id asked for and the provider name
    "deepgram" and is one of the voices [ListVoices] returns; for any
    other id the answer is the not-found error, never another voice. *)
Theorem GetVoice_found_iff_listed (voiceID : string) :
  (forall v, TTSProvider.GetVoice voiceID = inl v ->
             Omnivoice.TTSVoice.ID v = voiceID
             /\ Omnivoice.TTSVoice.Provider v = Omnivoice.ProviderName
             /\ In v TTSProvider.ListVoices)
  /\ ((exists v, TTSProvider.GetVoice voiceID = inl v)
      <-> In voiceID (map Omnivoice.Voice.ID Omnivoice.DeepgramVoices))
  /\ (~ In voiceID (map Omnivoice.Voice.ID Omnivoice.DeepgramVoices) ->
      TTSProvider.GetVoice voiceID = inr TTSProvider.ErrVoiceNotFound).
Proof.
  unfold TTSProvider.GetVoice, TTSProvider.ListVoices.
  pose proof (OmnivoiceFacts.lookup_missing voiceID Omnivoice.DeepgramVoices)
    as Hm.
  split; [| split].
  - intros v Hv.
    destruct (OmnivoiceFacts.lookup_found _ _ _ Hv) as [Hid Hin].
    repeat split; auto.
    apply in_map_iff in Hin. destruct Hin as (x & <- & _). reflexivity.
  - split.
    + intros [v Hv].
      destruct (in_dec string_dec voiceID
                       (map Omnivoice.Voice.ID Omnivoice.DeepgramVoices))
        as [Hin | Hout]; [exact Hin |].
      apply Hm in Hout. destruct Hout as [e He]. congruence.
    + intros Hin.
      destruct (TTSProvider.lookup voiceID Omnivoice.DeepgramVoices)
        as [v | e] eqn:E; [now exists v |].
      exfalso. apply (proj1 Hm); [now exists e | exact Hin].
  - intros Hout. apply Hm in Hout. destruct Hout as [[] He]. exact He.
Qed.

Lemma GetVoice_found_iff_listed_witness :
  ~ In "alloy" (map Omnivoice.Voice.ID Omnivoice.DeepgramVoices)
  /\ TTSProvider.GetVoice "alloy" = inr TTSProvider.ErrVoiceNotFound.
Proof.
  assert (H : ~ In "alloy" (map Omnivoice.Voice.ID Omnivoice.DeepgramVoices))
    by (cbn; intuition discriminate).
  split; [exact H |].
  apply (proj2 (proj2 (GetVoice_found_iff_listed "alloy")) H).
Defined.

(** X10: every voice [ListVoices] returns is found again by [GetVoice]
    under its own id, unchanged: no id of the table hides another
    voice. *)
Theorem GetVoice_of_listed (v : Omnivoice.TTSVoice.t) :
  In v TTSProvider.ListVoices ->
  TTSProvider.GetVoice (Omnivoice.TTSVoice.ID v) = inl v.
Proof.
  unfold TTSProvider.ListVoices. cbn [map Omnivoice.DeepgramVoices].
  intros Hin. cbn in Hin.
  repeat (destruct Hin as [<- | Hin]; [reflexivity |]).
  destruct Hin.
Qed.

Lemma GetVoice_of_listed_witness :
  let v := Omnivoice.VoiceToOmniVoice
             (Omnivoice.voice "aura-helios-en" "Helios" "en-GB" "male") in
  In v TTSProvider.ListVoices
  /\ TTSProvider.GetVoice "aura-helios-en" = inl v.
Proof.
  cbv zeta.
  assert (H : In (Omnivoice.VoiceToOmniVoice
                    (Omnivoice.voice "aura-helios-en" "Helios" "en-GB" "male"))
                 TTSProvider.ListVoices) by (cbn; tauto).
  split; [exact H |].
  apply (GetVoice_of_listed _ H).
Defined.

(** X11: of the options given to [New] the last one decides: the provider
    is built with the key of the last [WithAPIKey], and [New] fails with
    "API key is required", leaving the SDK untouched, exactly when there
    is no option or that key is empty.  Both packages behave alike. *)
Theorem New_last_key (opts : list ProviderOption) (p : Omnivoice.process) :
  let key := match rev opts with
             | WithAPIKey k :: _ => k
             | [] => ""
             end in
  (key = "" ->
   TTSProvider.New opts p = (inr "API key is required", p)
   /\ STTProvider.New opts p = (inr "API key is required", p))
  /\ (key <> "" ->
      fst (TTSProvider.New opts p)
      = inl {| TTSProvider.apiKey := key; TTSProvider.client := key |}
      /\ fst (STTProvider.New opts p) = inl {| STTProvider.apiKey := key |}
      /\ snd (TTSProvider.New opts p) = Omnivoice.InitSDK p
      /\ snd (STTProvider.New opts p) = Omnivoice.InitSDK p).
Proof.
  cbv zeta. rewrite <- OmnivoiceFacts.apply_options_last.
  unfold TTSProvider.New, STTProvider.New.
  destruct (String.eqb_spec (apply_options opts) "") as [E | N].
  - split; [auto | congruence].
  - split; [congruence | auto].
Qed.

Lemma New_last_key_witness :
  fst (TTSProvider.New [WithAPIKey ""; WithAPIKey "secret"] Omnivoice.boot)
  = inl {| TTSProvider.apiKey := "secret"; TTSProvider.client := "secret" |}.
Proof.
  apply (proj2 (New_last_key [WithAPIKey ""; WithAPIKey "secret"]
                             Omnivoice.boot)).
  discriminate.
Defined.

(** X12: however many STT and TTS providers a process constructs, in any
    order and with any options, [client.Init] runs at most once: once if
    some construction succeeded, and not at all if none did. *)
Theorem InitSDK_runs_once (cs : list TTSProvider.construction) :
  let p := fold_left TTSProvider.construct cs Omnivoice.boot in
  Omnivoice.client_inits p
  = (if existsb TTSProvider.succeeds cs then 1 else 0)%nat
  /\ Omnivoice.client_inits (Omnivoice.InitSDK (Omnivoice.InitSDK p))
     = Omnivoice.client_inits (Omnivoice.InitSDK p).
Proof.
  cbv zeta.
  destruct (OmnivoiceFacts.construct_inits cs Omnivoice.boot eq_refl)
    as [H1 H2].
  cbn [Omnivoice.boot Omnivoice.sdkInitOnce orb] in H2.
  rewrite H1, H2. split; [reflexivity |].
  unfold Omnivoice.InitSDK.
  destruct (Omnivoice.sdkInitOnce _) eqn:E; cbn; now rewrite ?E.
Qed.

(** X13: [Synthesize] fails exactly when the SDK call fails, with the SDK's
    error behind "deepgram TTS failed: ".  Otherwise it reports the audio
    and the character count of the SDK, a format that is never empty and
    a sample rate that is never 0; the format reported is the encoding
    that was requested exactly when the configured output format is empty
    or one that [mapTTSEncoding] leaves as it is. *)
Theorem Synthesize_result
        (ToStream : string -> Omnivoice.SpeakOptions.t -> (string * Z) + string)
        (text : string) (config : Omnivoice.SynthesisConfig.t) :
  let opts := Omnivoice.ConfigToSpeakOptions config in
  (forall e, ToStream text opts = inr e ->
             TTSProvider.Synthesize ToStream text config
             = inr ("deepgram TTS failed: " ++ e))
  /\ (forall buffer characters,
         ToStream text opts = inl (buffer, characters) ->
         exists r,
           TTSProvider.Synthesize ToStream text config = inl r
           /\ TTSProvider.Audio r = buffer
           /\ TTSProvider.CharacterCount r = characters
           /\ TTSProvider.Format r <> ""
           /\ TTSProvider.SampleRate r <> 0
           /\ (TTSProvider.Format r = Omnivoice.SpeakOptions.Encoding opts
               <-> Omnivoice.SynthesisConfig.OutputFormat config = ""
                   \/ Omnivoice.mapTTSEncoding
                        (Omnivoice.SynthesisConfig.OutputFormat config)
                      = Omnivoice.SynthesisConfig.OutputFormat config)).
Proof.
  cbv zeta. unfold TTSProvider.Synthesize. split.
  - intros e E. now rewrite E.
  - intros buffer characters E. rewrite E. eexists. split; [reflexivity |].
    cbn. repeat split.
    + destruct (String.eqb_spec
                  (Omnivoice.SynthesisConfig.OutputFormat config) "");
        [discriminate | assumption].
    + destruct (Z.eqb_spec (Omnivoice.SynthesisConfig.SampleRate config) 0);
        [discriminate | assumption].
    + destruct (String.eqb_spec
                  (Omnivoice.SynthesisConfig.OutputFormat config) "")
        as [E0 | N0]; [now left | intros Hf; right; now symmetry].
    + destruct (String.eqb_spec
                  (Omnivoice.SynthesisConfig.OutputFormat config) "")
        as [E0 | N0].
      * intros _. now rewrite E0.
      * intros [E1 | E1]; [contradiction | now symmetry].
Qed.

Lemma Synthesize_result_witness :
  let sdk := fun (_ : string) (_ : Omnivoice.SpeakOptions.t) =>
               inl ("RIFF", 5) : (string * Z) + string in
  let config := {| Omnivoice.SynthesisConfig.VoiceID := "";
                   Omnivoice.SynthesisConfig.Model := "";
                   Omnivoice.SynthesisConfig.OutputFormat := "wav";
                   Omnivoice.SynthesisConfig.SampleRate := 0 |} in
  exists r,
    TTSProvider.Synthesize sdk "Hello" config = inl r
    /\ TTSProvider.Format r = "wav"
    /\ Omnivoice.SpeakOptions.Encoding (Omnivoice.ConfigToSpeakOptions config)
       = "linear16"
    /\ TTSProvider.SampleRate r = 24000.
Proof.
  cbv zeta.
  destruct (proj2 (Synthesize_result
                     (fun _ _ => inl ("RIFF", 5))
                     "Hello"
                     {| Omnivoice.SynthesisConfig.VoiceID := "";
                        Omnivoice.SynthesisConfig.Model := "";
                        Omnivoice.SynthesisConfig.OutputFormat := "wav";
                        Omnivoice.SynthesisConfig.SampleRate := 0 |})
                  "RIFF" 5 eq_refl) as (r & E & _).
  exists r. split; [exact E |].
  cbn in E. inversion E. repeat split.
Defined.

(** X14: every text the goroutine of [SynthesizeFromReader] passes to
    [SpeakWithText] is a result of [strings.TrimSpace] and is not empty,
    whatever the reader delivers and whenever the context is cancelled. *)
Theorem reader_speaks_trimmed
        (T : UnicodeTables) (L : Strings) (evs : list TTS.event) :
  let st := TTS.run (fst (TTS.start connected TTS.SynthesizeFromReader)) evs in
  Forall (fun s => s <> "" /\ exists t, s = TrimSpace t) (TTS.spoken st)
  /\ Offers.reader_pc (TTS.worker st) = true.
Proof.
  cbv zeta.
  destruct (TTSDelivery.reader_run
              evs (fst (TTS.start connected TTS.SynthesizeFromReader))
              (TTSFacts.tts_start_inv TTS.SynthesizeFromReader)
              eq_refl (Forall_nil _)) as [Hr Hs].
  split; [exact Hs | exact Hr].
Qed.

(** X15: the goroutine of [SynthesizeStream] passes the text to
    [SpeakWithText] in its first step, as it was given, empty or not, and
    nothing else afterwards. *)
Theorem stream_speaks_text
        (T : UnicodeTables) (L : Strings) (text : string)
        (evs : list TTS.event) :
  let st := TTS.run (fst (TTS.start connected (TTS.SynthesizeStream text)))
                    evs in
  TTS.spoken st = (if (0 <? TTS.worker_steps evs)%nat then [text] else [])
  /\ (TTS.worker st = TTS.SSpeak text <-> TTS.worker_steps evs = 0%nat).
Proof.
  cbv zeta.
  pose proof (TTSDelivery.stream_run
                text evs 0
                (fst (TTS.start connected (TTS.SynthesizeStream text)))
                (TTSFacts.tts_start_inv (TTS.SynthesizeStream text))) as Hs.
  cbn [Nat.add] in Hs.
  destruct Hs as [(E0 & Ew & Es) | (Hpos & Hp & Es)].
  - left. repeat split.
  - rewrite E0, Es. cbn. repeat split; auto.
  - apply Nat.ltb_lt in Hpos as Hb. rewrite Hb, Es. split; [reflexivity |].
    split; [| lia].
    intros Ew. rewrite Ew in Hp. discriminate.
Qed.

(** X16: the audio chunks and final markers on the channel of a connected
    TTS stream are chunks the provider's callbacks handed over, in the
    order of the callbacks, none of them twice; so are those the consumer
    has read.  Whatever else is on the channel is an error chunk. *)
Theorem tts_delivery_in_order
        (T : UnicodeTables) (L : Strings) (c : TTS.call)
        (evs : list TTS.event) :
  let st := TTS.run (fst (TTS.start connected c)) evs in
  subseq (TTS.non_errors (TTS.produced st))
         (TTS.non_errors (Offers.tts_offered evs))
  /\ subseq (TTS.non_errors (TTS.received st))
            (TTS.non_errors (Offers.tts_offered evs))
  /\ (List.length (TTS.non_errors (TTS.received st))
      <= List.length (Offers.tts_offered evs))%nat.
Proof.
  cbv zeta.
  destruct (TTSDelivery.tts_run_offered evs (fst (TTS.start connected c))
              (TTSFacts.tts_start_inv c)) as (d & E & Hsub).
  assert (E0 : TTS.produced (fst (TTS.start connected c)) = [])
    by reflexivity.
  rewrite E0 in E. cbn [app] in E.
  assert (Hp : subseq (TTS.non_errors
                         (TTS.produced
                            (TTS.run (fst (TTS.start connected c)) evs)))
                      (TTS.non_errors (Offers.tts_offered evs)))
    by (now rewrite E).
  assert (Hr : subseq (TTS.non_errors
                         (TTS.received
                            (TTS.run (fst (TTS.start connected c)) evs)))
                      (TTS.non_errors (Offers.tts_offered evs))).
  { unfold TTS.produced in Hp. rewrite TTSFacts.non_errors_app in Hp.
    now apply SubseqFacts.subseq_app_l in Hp. }
  split; [exact Hp | split; [exact Hr |]].
  apply SubseqFacts.subseq_length in Hr.
  pose proof (filter_length_le
                (fun c => negb (TTS.is_error c)) (Offers.tts_offered evs)).
  unfold TTS.non_errors in *. lia.
Qed.

(** X17: in a run in which no SDK call and no read fails, the goroutine
    never reports an error and puts nothing on the channel, which then
    holds only what the callbacks handed over; it calls [Flush] exactly
    once, and has done so by the time it waits for the context or runs its
    deferred function. *)
Theorem error_free_run_flushes_once
        (T : UnicodeTables) (L : Strings) (c : TTS.call)
        (evs : list TTS.event) :
  forallb Offers.calls_succeed evs = true ->
  let st := TTS.run (fst (TTS.start connected c)) evs in
  Offers.unreported (TTS.worker st) = true
  /\ (TTS.flushes st + TTSInv.flushes_ahead (TTS.worker st) = 1)%nat
  /\ (TTS.worker st = TTS.Wait \/ TTSInv.finished (TTS.worker st) = true ->
      TTS.flushes st = 1%nat)
  /\ subseq (TTS.produced st) (Offers.tts_offered evs).
Proof.
  intros Hok. cbv zeta.
  destruct (TTSDelivery.error_free_run evs (fst (TTS.start connected c))
              (TTSFacts.tts_start_inv c) Hok)
    as (Hu & Hf & d & E & Hsub).
  - destruct c; reflexivity.
  - destruct c; reflexivity.
  - split; [exact Hu | split; [exact Hf | split]].
    + intros [Hw | Hw].
      * rewrite Hw in Hf. cbn [TTSInv.flushes_ahead] in Hf. lia.
      * destruct (TTS.worker
                    (TTS.run (fst (TTS.start connected c)) evs));
          try discriminate; cbn [TTSInv.flushes_ahead] in Hf; lia.
    + assert (E0 : TTS.produced (fst (TTS.start connected c)) = [])
        by reflexivity.
      rewrite E0 in E. cbn [app] in E. now rewrite E.
Qed.

Lemma error_free_run_flushes_once_witness :
  let evs := [TTS.Worker TTS.ok;
              TTS.Worker {| call_err := None; read_chunk := "One. Two";
                            read_err := ReadEOF; pick_done := false |};
              TTS.Worker TTS.ok; TTS.Worker TTS.ok; TTS.Worker TTS.ok;
              TTS.Worker TTS.ok; TTS.Callback (TTS.Binary "a") false] in
  let st := TTS.run (H := latin1_only) (H0 := ascii_strings)
              (fst (TTS.start connected TTS.SynthesizeFromReader)) evs in
  forallb Offers.calls_succeed evs = true
  /\ TTS.worker st = TTS.Wait
  /\ TTS.flushes st = 1%nat.
Proof.
  cbv zeta. split; [reflexivity | split; [vm_compute; reflexivity |]].
  apply (proj1 (proj2 (proj2
           (error_free_run_flushes_once
              latin1_only ascii_strings TTS.SynthesizeFromReader
              [TTS.Worker TTS.ok;
               TTS.Worker {| call_err := None; read_chunk := "One. Two";
                             read_err := ReadEOF; pick_done := false |};
               TTS.Worker TTS.ok; TTS.Worker TTS.ok; TTS.Worker TTS.ok;
               TTS.Worker TTS.ok; TTS.Callback (TTS.Binary "a") false]
              eq_refl)))).
  left. vm_compute. reflexivity.
Defined.

(** X18: once the goroutine of a connected TTS stream has run its deferred
    function, every callback of the SDK returns without effect, and
    whatever happens later, nothing more is put on the channel, passed to
    the provider, flushed, finished or closed, and nothing panics. *)
Theorem tts_after_exit
        (T : UnicodeTables) (L : Strings) (c : TTS.call)
        (evs post : list TTS.event) :
  let st := TTS.run (fst (TTS.start connected c)) evs in
  let st' := TTS.run st post in
  TTS.worker st = TTS.Exit ->
  (forall cb pick, TTS.step st (TTS.Callback cb pick) = st)
  /\ TTS.produced st' = TTS.produced st
  /\ TTS.spoken st' = TTS.spoken st
  /\ TTS.flushes st' = TTS.flushes st
  /\ TTS.finishes st' = 1%nat
  /\ TTS.closes st' = 1%nat
  /\ TTS.crashed st' = None.
Proof.
  cbv zeta. intros Hw.
  pose proof (TTSFacts.tts_run_inv evs _ (TTSFacts.tts_start_inv c)) as I.
  destruct (TTSDelivery.exit_run post _ I Hw) as (E1 & E2 & E3 & E4 & E5).
  pose proof (TTSInv.inv_finishes _ I) as Hf.
  pose proof (TTSInv.inv_closes _ I) as Hc.
  rewrite Hw in Hf, Hc. cbn [TTSInv.finished TTSInv.exited] in Hf, Hc.
  split; [| repeat split; try congruence].
  - intros cb pick. unfold TTS.step. rewrite (TTSInv.inv_running _ I).
    apply TTSDelivery.handle_closed.
    rewrite (TTSInv.inv_exit _ I), Hw. reflexivity.
  - apply TTSInv.inv_running. now apply TTSFacts.tts_run_inv.
Qed.

Lemma tts_after_exit_witness :
  let evs := [TTS.Worker TTS.ok; TTS.Worker TTS.ok; TTS.Cancel;
              TTS.Worker TTS.ok; TTS.Worker TTS.ok; TTS.Worker TTS.ok] in
  let st := TTS.run (H := latin1_only) (H0 := ascii_strings)
              (fst (TTS.start connected (TTS.SynthesizeStream "hi"))) evs in
  TTS.worker st = TTS.Exit
  /\ TTS.produced
       (TTS.run (H := latin1_only) (H0 := ascii_strings) st
                [TTS.Callback (TTS.Binary "late") false; TTS.Receive])
     = TTS.produced st.
Proof.
  cbv zeta.
  assert (Hw : TTS.worker
                 (TTS.run (H := latin1_only) (H0 := ascii_strings)
                    (fst (TTS.start connected (TTS.SynthesizeStream "hi")))
                    [TTS.Worker TTS.ok; TTS.Worker TTS.ok; TTS.Cancel;
                     TTS.Worker TTS.ok; TTS.Worker TTS.ok; TTS.Worker TTS.ok])
               = TTS.Exit) by (vm_compute; reflexivity).
  split; [exact Hw |].
  apply (proj1 (proj2
           (tts_after_exit
              latin1_only ascii_strings (TTS.SynthesizeStream "hi")
              [TTS.Worker TTS.ok; TTS.Worker TTS.ok; TTS.Cancel;
               TTS.Worker TTS.ok; TTS.Worker TTS.ok; TTS.Worker TTS.ok]
              [TTS.Callback (TTS.Binary "late") false; TTS.Receive] Hw))).
Defined.

(** X19: a consumer of a connected TTS stream that has found the channel
    closed and empty has everything that was ever put on it: the goroutine
    has run its deferred function, and whatever happens later, what the
    consumer has read does not change. *)
Theorem tts_drained_is_final
        (T : UnicodeTables) (L : Strings) (c : TTS.call)
        (evs post : list TTS.event) :
  let st := TTS.run (fst (TTS.start connected c)) evs in
  let st' := TTS.run st post in
  TTS.saw_close st = true ->
  TTS.worker st = TTS.Exit
  /\ TTS.received st = TTS.produced st
  /\ TTS.received st' = TTS.received st.
Proof.
  cbv zeta. intros Hs.
  pose proof (TTSFacts.tts_run_inv evs _ (TTSFacts.tts_start_inv c)) as I.
  destruct (TTSInv.inv_drained _ I Hs) as [Hc Hb].
  assert (Hw : TTS.worker (TTS.run (fst (TTS.start connected c)) evs)
               = TTS.Exit).
  { pose proof (TTSInv.inv_exit _ I) as He. rewrite Hc in He.
    destruct (TTS.worker (TTS.run (fst (TTS.start connected c)) evs));
      try discriminate. reflexivity. }
  assert (Hp : TTS.received (TTS.run (fst (TTS.start connected c)) evs)
               = TTS.produced (TTS.run (fst (TTS.start connected c)) evs)).
  { unfold TTS.produced. now rewrite Hb, app_nil_r. }
  split; [exact Hw | split; [exact Hp |]].
  destruct (TTSDelivery.exit_run post _ I Hw) as (E1 & _).
  pose proof (TTSFacts.tts_run_inv post _ I) as I'.
  destruct (TTSInv.inv_drained _ I' (TTSDelivery.saw_close_run post _ Hs))
    as [_ Hb'].
  unfold TTS.produced in E1 at 1. rewrite Hb', app_nil_r in E1. congruence.
Qed.

Lemma tts_drained_is_final_witness :
  let evs := [TTS.Worker TTS.ok; TTS.Callback (TTS.Binary "a") false;
              TTS.Worker TTS.ok; TTS.Cancel;
              TTS.Worker TTS.ok; TTS.Worker TTS.ok; TTS.Worker TTS.ok;
              TTS.Receive; TTS.Receive] in
  let st := TTS.run (H := latin1_only) (H0 := ascii_strings)
              (fst (TTS.start connected (TTS.SynthesizeStream "hi"))) evs in
  TTS.saw_close st = true
  /\ TTS.received
       (TTS.run (H := latin1_only) (H0 := ascii_strings) st
                [TTS.Callback TTS.Flush false; TTS.Receive])
     = TTS.received st.
Proof.
  cbv zeta.
  assert (Hs : TTS.saw_close
                 (TTS.run (H := latin1_only) (H0 := ascii_strings)
                    (fst (TTS.start connected (TTS.SynthesizeStream "hi")))
                    [TTS.Worker TTS.ok; TTS.Callback (TTS.Binary "a") false;
                     TTS.Worker TTS.ok; TTS.Cancel;
                     TTS.Worker TTS.ok; TTS.Worker TTS.ok; TTS.Worker TTS.ok;
                     TTS.Receive; TTS.Receive])
               = true) by (vm_compute; reflexivity).
  split; [exact Hs |].
  apply (proj2 (proj2
           (tts_drained_is_final
              latin1_only ascii_strings (TTS.SynthesizeStream "hi")
              [TTS.Worker TTS.ok; TTS.Callback (TTS.Binary "a") false;
               TTS.Worker TTS.ok; TTS.Cancel;
               TTS.Worker TTS.ok; TTS.Worker TTS.ok; TTS.Worker TTS.ok;
               TTS.Receive; TTS.Receive]
              [TTS.Callback TTS.Flush false; TTS.Receive] Hs))).
Defined.


(** X21: the events on the channel of a connected STT stream, and those
    the consumer has read, are events the callbacks sent, in the order of
    the callbacks, none of them twice. *)
Theorem stt_delivery_in_order
        (M : Type) (conv : M -> STT.StreamEvent) (evs : list STT.event) :
  let st := STT.run conv (fst (STT.TranscribeStream connected)) evs in
  subseq (Offers.stt_produced st) (Offers.stt_offered conv evs)
  /\ subseq (STT.received st) (Offers.stt_offered conv evs)
  /\ (List.length (STT.received st)
      <= List.length (Offers.stt_offered conv evs))%nat.
Proof.
  cbv zeta.
  destruct (STTDelivery.stt_run_offered
              conv evs (fst (STT.TranscribeStream connected)))
    as (d & E & Hsub).
  assert (E0 : Offers.stt_produced (fst (@STT.TranscribeStream connected))
               = []) by reflexivity.
  rewrite E0 in E. cbn [app] in E.
  assert (Hp : subseq (Offers.stt_produced
                         (STT.run conv (fst (STT.TranscribeStream connected))
                                  evs))
                      (Offers.stt_offered conv evs)) by (now rewrite E).
  assert (Hr : subseq (STT.received
                         (STT.run conv (fst (STT.TranscribeStream connected))
                                  evs))
                      (Offers.stt_offered conv evs))
    by (now apply SubseqFacts.subseq_app_l in Hp).
  split; [exact Hp | split; [exact Hr |]].
  now apply SubseqFacts.subseq_length.
Qed.


(** X23: cancelling the context of a connected STT stream closes the
    writer: at the latest after two steps of the watcher goroutine the
    session has been stopped and the event channel closed, once each,
    whatever else happens in between. *)
Theorem stt_cancel_closes_writer
        (M : Type) (conv : M -> STT.StreamEvent)
        (evs post : list STT.event) :
  (2 <= Offers.watcher_steps post)%nat ->
  let st := STT.run conv (fst (STT.TranscribeStream connected))
                    (evs ++ STT.Cancel :: post) in
  STT.closed st = true
  /\ Chan.closed (STT.eventCh st) = true
  /\ STT.closes st = 1%nat
  /\ STT.stops st = 1%nat.
Proof.
  intros Hn. cbv zeta.
  pose proof (STTFacts.stt_run_inv
                conv (evs ++ STT.Cancel :: post) _ (STTFacts.stt_start_inv))
    as I.
  assert (Hc : STT.closed
                 (STT.run conv (fst (STT.TranscribeStream connected))
                          (evs ++ STT.Cancel :: post)) = true).
  { rewrite STTFacts.stt_run_app.
    pose proof (STTFacts.stt_run_inv conv evs _ (STTFacts.stt_start_inv))
      as I1.
    pose proof (STTDelivery.crash_run conv evs _ (STTFacts.stt_start_inv)
                  (or_introl eq_refl)) as Q1.
    pose proof (STTDelivery.watcher_ok_run
                  conv evs (fst (STT.TranscribeStream connected))
                  (STTFacts.stt_start_inv) Logic.I) as W1.
    revert I1 Q1 W1.
    generalize (STT.run conv (fst (STT.TranscribeStream connected)) evs).
    intros st1 I1 Q1 W1.
    change (STT.run conv st1 (STT.Cancel :: post))
      with (STT.run conv (STT.step conv st1 STT.Cancel) post).
    destruct (STT.crashed st1) eqn:Hcr.
    - destruct Q1 as [Q1 | Q1]; [discriminate |].
      apply STTFacts.run_closed. now apply STTFacts.step_closed.
    - apply STTDelivery.watcher_closes.
      + now apply STTFacts.stt_step_inv.
      + apply STTDelivery.crash_step; [exact I1 | now left].
      + now apply STTDelivery.watcher_ok_step.
      + unfold STT.step. now rewrite Hcr.
      + assert (Hle : (Offers.watcher_ahead
                         (STT.watcher (STT.step conv st1 STT.Cancel))
                       <= 2)%nat)
          by (destruct (STT.watcher (STT.step conv st1 STT.Cancel));
              cbn; lia).
        lia. }
  pose proof (STTInv.inv_called _ I) as Hk. rewrite Hc in Hk.
  symmetry in Hk. apply Nat.ltb_lt in Hk.
  repeat split.
  - exact Hc.
  - now rewrite (STTInv.inv_flag _ I).
  - rewrite (STTInv.inv_closes _ I). lia.
  - rewrite (STTInv.inv_stops _ I). lia.
Qed.

Lemma stt_cancel_closes_writer_witness :
  let post := [STT.Watcher true; STT.Receive; STT.Watcher false] in
  (2 <= Offers.watcher_steps (MessageResponse := unit) post)%nat
  /\ STT.closes
       (STT.run (fun _ : unit => STT.speechStart)
                (fst (STT.TranscribeStream connected))
                ([STT.WriteBegin "abc"] ++ STT.Cancel :: post))
     = 1%nat.
Proof.
  cbv zeta.
  assert (Hn : (2 <= Offers.watcher_steps (MessageResponse := unit)
                       [STT.Watcher true; STT.Receive; STT.Watcher false])%nat)
    by (vm_compute; lia).
  split; [exact Hn |].
  apply (proj1 (proj2 (proj2
           (stt_cancel_closes_writer
              unit (fun _ : unit => STT.speechStart)
              [STT.WriteBegin "abc"]
              [STT.Watcher true; STT.Receive; STT.Watcher false] Hn)))).
Defined.

(** X24: whatever the text, no element [splitIntoSentences] returns is
    empty; every element but the last ends in '.', '!' or '?'; and every
    element but the first begins with a white-space character. *)
Theorem split_shape (T : UnicodeTables) (text : string) :
  let pieces := Segmenter.splitIntoSentences text in
  Forall (fun s => s <> "") pieces
  /\ (forall s, In s (removelast pieces) ->
                exists p, s = p ++ "." \/ s = p ++ "!" \/ s = p ++ "?")
  /\ (forall s, In s (tl pieces) ->
                exists r rest,
                  Unicode.IsSpace r = true /\ s = Utf8.AppendRune r ++ rest).
Proof.
  cbv zeta. rewrite SegmenterFacts.splitIntoSentences_spec.
  unfold Segmenter.split_spec.
  set (runes := Utf8.stringtoslicerune text).
  split; [| split].
  - apply Forall_map.
    eapply Forall_impl; [| apply ShapeFacts.cut_nonempty].
    intros p Hp E. apply SegmenterFacts.encode_runes_nil in E. contradiction.
  - intros s Hin. rewrite ShapeFacts.removelast_map in Hin.
    apply in_map_iff in Hin. destruct Hin as (piece & <- & Hin).
    apply ShapeFacts.cut_flagged in Hin. destruct Hin as (p & r & -> & Hr).
    apply ShapeFacts.flagged_terminator in Hr.
    exists (Utf8.encode_runes p).
    rewrite SegmenterFacts.encode_runes_app. cbn [Utf8.encode_runes].
    rewrite SegmenterFacts.append_nil_r.
    destruct (ShapeFacts.terminator_bytes r Hr) as [-> | [-> | ->]]; auto.
  - intros s Hin. rewrite ShapeFacts.tl_map in Hin.
    apply in_map_iff in Hin. destruct Hin as (piece & <- & Hin).
    pose proof (ShapeFacts.cut_tail_starts
                  Unicode.IsSpace (Segmenter.boundaries runes) runes []
                  (ShapeFacts.boundary_then_space runes)) as Hall.
    rewrite Forall_forall in Hall. specialize (Hall piece Hin).
    destruct piece as [| r rest]; [contradiction |].
    exists r, (Utf8.encode_runes rest). split; [exact Hall | reflexivity].
Qed.

(** X25: whatever the bytes of the text, the elements [splitIntoSentences]
    returns, put together, are well-formed UTF-8 with the runes of the
    text; splitting them again returns the same elements, so that a
    second pass changes nothing. *)
Theorem split_sanitises (T : UnicodeTables) (text : string) :
  let out := Segmenter.join (Segmenter.splitIntoSentences text) in
  Utf8.ValidString out = true
  /\ Utf8.stringtoslicerune out = Utf8.stringtoslicerune text
  /\ Segmenter.splitIntoSentences out = Segmenter.splitIntoSentences text
  /\ Segmenter.join (Segmenter.splitIntoSentences out) = out.
Proof.
  cbv zeta. rewrite SegmenterFacts.join_split.
  destruct (ShapeFacts.reencode text) as [Er Ev].
  assert (Es : Segmenter.splitIntoSentences
                 (Utf8.encode_runes (Utf8.stringtoslicerune text))
               = Segmenter.splitIntoSentences text)
    by (now apply ShapeFacts.split_runes).
  repeat split; auto.
  now rewrite Es, SegmenterFacts.join_split.
Qed.

(** X26: the elements but the last that [splitIntoSentences] returns for
    a text stay as they are when the text grows: for well-formed text,
    splitting the text with more bytes behind it gives these elements,
    followed by what splitting the last element with the new bytes behind
    it gives.  (The tables are taken to list no white space as an
    uppercase letter.) *)
Theorem split_append (T : UnicodeTables) (text more : string) :
  Utf8.ValidString text = true ->
  (forall r, White_Space r = true -> Upper r = false) ->
  Segmenter.splitIntoSentences (text ++ more)
  = (removelast (Segmenter.splitIntoSentences text)
     ++ Segmenter.splitIntoSentences
          (last (Segmenter.splitIntoSentences text) "" ++ more))%list.
Proof. apply ResumeFacts.split_grow. Qed.

Lemma split_append_witness :
  Utf8.ValidString "One. Two" = true
  /\ Segmenter.splitIntoSentences (H := latin1_only) ("One. Two" ++ ". Three")
     = (removelast
          (Segmenter.splitIntoSentences (H := latin1_only) "One. Two")
        ++ Segmenter.splitIntoSentences (H := latin1_only)
             (last (Segmenter.splitIntoSentences (H := latin1_only) "One. Two")
                   ""
              ++ ". Three"))%list.
Proof.
  split; [reflexivity |].
  apply (split_append latin1_only "One. Two" ". Three");
    [reflexivity | discriminate].
Defined.

(** X27: in a run of [SynthesizeFromReader] in which no SDK call and no
    read fails and the reader delivers well-formed UTF-8, what the
    goroutine passes to [SpeakWithText] is, at any moment, the beginning
    of the sentences of the whole text read so far, each trimmed and the
    empty ones left out; once it has called [Flush], at end of input or
    on cancellation, it has passed on all of them.  Cutting the text as
    it arrives loses and reorders nothing.  (Of [strings.TrimSpace] only
    that it leaves the empty string empty is used; the tables are taken
    to list no white space as an uppercase letter.) *)
Theorem reader_speaks_sentences
        (T : UnicodeTables) (L : Strings) (evs : list TTS.event) :
  TrimSpace "" = "" ->
  (forall r, White_Space r = true -> Upper r = false) ->
  forallb Offers.calls_succeed evs = true ->
  forallb Reader.valid_read evs = true ->
  let st0 := fst (TTS.start connected TTS.SynthesizeFromReader) in
  let st := TTS.run st0 evs in
  let sentences := Segmenter.splitIntoSentences (Reader.text_read st0 evs) in
  (exists rest, Reader.speakable sentences = (TTS.spoken st ++ rest)%list)
  /\ (TTS.flushes st = 1%nat -> TTS.spoken st = Reader.speakable sentences).
Proof.
  intros Hts Ht Hok Hvr. cbv zeta.
  pose proof (TTSFacts.tts_start_inv TTS.SynthesizeFromReader) as I0.
  destruct (ReaderFacts.reader_inv_run
              evs "" (fst (TTS.start connected TTS.SynthesizeFromReader))
              Hts Ht I0 eq_refl (conj eq_refl eq_refl) Hok Hvr)
    as [HJ _].
  cbn [append] in HJ.
  split; [now apply ReaderFacts.reader_inv_prefix |].
  intros Hf.
  destruct (TTSDelivery.error_free_run
              evs (fst (TTS.start connected TTS.SynthesizeFromReader))
              I0 Hok eq_refl eq_refl) as (_ & Hfl & _).
  rewrite Hf in Hfl.
  unfold Reader.reader_inv in HJ.
  destruct (TTS.worker
              (TTS.run (fst (TTS.start connected TTS.SynthesizeFromReader))
                       evs));
    try contradiction; try exact HJ; cbn in Hfl; lia.
Qed.

Lemma reader_speaks_sentences_witness :
  let evs := [TTS.Worker TTS.ok;
              TTS.Worker {| call_err := None; read_chunk := "One. T";
                            read_err := ReadNil; pick_done := false |};
              TTS.Worker TTS.ok; TTS.Worker TTS.ok; TTS.Worker TTS.ok;
              TTS.Worker {| call_err := None; read_chunk := "wo. ";
                            read_err := ReadEOF; pick_done := false |};
              TTS.Worker TTS.ok; TTS.Worker TTS.ok; TTS.Worker TTS.ok;
              TTS.Worker TTS.ok] in
  let st0 := fst (TTS.start connected TTS.SynthesizeFromReader) in
  let st := TTS.run (H := latin1_only) (H0 := ascii_strings) st0 evs in
  Reader.text_read (H := latin1_only) (H0 := ascii_strings) st0 evs
  = "One. Two. "
  /\ TTS.flushes st = 1%nat
  /\ TTS.spoken st = ["One."; "Two."]
  /\ TTS.spoken st
     = Reader.speakable (H0 := ascii_strings)
         (Segmenter.splitIntoSentences (H := latin1_only) "One. Two. ").
Proof.
  cbv zeta.
  assert (Hf : TTS.flushes
                 (TTS.run (H := latin1_only) (H0 := ascii_strings)
                    (fst (TTS.start connected TTS.SynthesizeFromReader))
                    [TTS.Worker TTS.ok;
                     TTS.Worker {| call_err := None; read_chunk := "One. T";
                                   read_err := ReadNil; pick_done := false |};
                     TTS.Worker TTS.ok; TTS.Worker TTS.ok; TTS.Worker TTS.ok;
                     TTS.Worker {| call_err := None; read_chunk := "wo. ";
                                   read_err := ReadEOF; pick_done := false |};
                     TTS.Worker TTS.ok; TTS.Worker TTS.ok; TTS.Worker TTS.ok;
                     TTS.Worker TTS.ok]) = 1%nat)
    by (vm_compute; reflexivity).
  split; [vm_compute; reflexivity |].
  split; [exact Hf |].
  split; [vm_compute; reflexivity |].
  apply (proj2 (reader_speaks_sentences
                  latin1_only ascii_strings
                  [TTS.Worker TTS.ok;
                   TTS.Worker {| call_err := None; read_chunk := "One. T";
                                 read_err := ReadNil; pick_done := false |};
                   TTS.Worker TTS.ok; TTS.Worker TTS.ok; TTS.Worker TTS.ok;
                   TTS.Worker {| call_err := None; read_chunk := "wo. ";
                                 read_err := ReadEOF; pick_done := false |};
                   TTS.Worker TTS.ok; TTS.Worker TTS.ok; TTS.Worker TTS.ok;
                   TTS.Worker TTS.ok]
                  eq_refl ltac:(discriminate) eq_refl eq_refl) Hf).
Defined.
